(** * polysim-ts: online polyline simplification

    A shallow embedding of the simplification core of polysim-ts
    (math.ts, line.ts, line_fitter.ts, path.ts, simple_path_hull.ts and
    path_simplifier.ts) together with the properties of its specification.

    The program computes on JavaScript numbers.  The embedding is written
    once, over an interface [Number] of the arithmetic the source uses, and
    is read at two instances:
    - [float], IEEE 754 binary64 with the rounding, the signed zeros, the
      infinities and the NaN of a JavaScript number: what the code computes;
    - [R], the real numbers: the arithmetic the comments of the source
      reason in ("should never be negative, as follows from the
      Cauchy-Schwarz inequality").
    Array indices, distances and sizes are integers in the source and are
    [nat] or [Z] here. *)

From Stdlib Require Import ZArith Lia Reals Lra Floats Uint63.
From stdpp Require Import base option list sets.

Set Default Proof Using "Type".

(** ** JavaScript numbers *)

Class Number (num : Type) := {
  nadd : num -> num -> num;
  nsub : num -> num -> num;
  nmul : num -> num -> num;
  ndiv : num -> num -> num;
  nneg : num -> num;
  (* Math.abs, and Math.max / Math.min of two arguments *)
  nabs : num -> num;
  nmax : num -> num -> num;
  nmin : num -> num -> num;
  (* a < b, a <= b, a == b *)
  nlt : num -> num -> bool;
  nle : num -> num -> bool;
  neq : num -> num -> bool;
  (* isFinite(a) *)
  nfinite : num -> bool;
  (* an integer literal, or an integer used as a number *)
  nofZ : Z -> num;
  (* Number.EPSILON *)
  nEPSILON : num;
  (* what arithmetic on [undefined] gives (an array read out of range) *)
  nundef : num
}.

Declare Scope num_scope.
Delimit Scope num_scope with num.
Notation "a + b" := (nadd a b) : num_scope.
Notation "a - b" := (nsub a b) : num_scope.
Notation "a * b" := (nmul a b) : num_scope.
Notation "a / b" := (ndiv a b) : num_scope.
Notation "- a" := (nneg a) : num_scope.
Notation "a <? b" := (nlt a b) : num_scope.
Notation "a <=? b" := (nle a b) : num_scope.
Notation "a >? b" := (nlt b a) : num_scope.
Notation "a >=? b" := (nle b a) : num_scope.
Notation "a =? b" := (neq a b) : num_scope.
Notation "# z" := (nofZ z%Z) (at level 1, format "# z") : num_scope.

(** *** binary64 *)

Module JsFloat.

  (* an integer as a binary64 number (rounded when it has more than 53 bits) *)
Definition ofZ (z : Z) : float :=
    match z with
    | Z0 => PrimFloat.zero
    | Zpos _ => PrimFloat.of_uint63 (Uint63.of_Z z)
    | Zneg _ => PrimFloat.opp (PrimFloat.of_uint63 (Uint63.of_Z (- z)))
    end.

  (* Math.max(a, b): NaN when an argument is NaN, and +0 above -0 *)
Definition max (a b : float) : float :=
    if PrimFloat.is_nan a || PrimFloat.is_nan b then PrimFloat.nan
    else if PrimFloat.ltb a b then b
    else if PrimFloat.ltb b a then a
    else if PrimFloat.get_sign a then b else a.

  (* Math.min(a, b): NaN when an argument is NaN, and -0 below +0 *)
Definition min (a b : float) : float :=
    if PrimFloat.is_nan a || PrimFloat.is_nan b then PrimFloat.nan
    else if PrimFloat.ltb a b then a
    else if PrimFloat.ltb b a then b
    else if PrimFloat.get_sign a then a else b.

  (* Number.EPSILON = 2^-52 *)
Definition EPSILON : float := 0x1p-52%float.

End JsFloat.

#[export] Instance float_Number : Number float := {|
  nadd := PrimFloat.add;
  nsub := PrimFloat.sub;
  nmul := PrimFloat.mul;
  ndiv := PrimFloat.div;
  nneg := PrimFloat.opp;
  nabs := PrimFloat.abs;
  nmax := JsFloat.max;
  nmin := JsFloat.min;
  nlt := PrimFloat.ltb;
  nle := PrimFloat.leb;
  neq := PrimFloat.eqb;
  nfinite := PrimFloat.is_finite;
  nofZ := JsFloat.ofZ;
  nEPSILON := JsFloat.EPSILON;
  nundef := PrimFloat.nan
|}.

(** *** real numbers: the same operations without rounding *)

Module Exact.

Definition ltb (a b : R) : bool := if Rlt_dec a b then true else false.
Definition leb (a b : R) : bool := if Rle_dec a b then true else false.
Definition eqb (a b : R) : bool := if Req_dec_T a b then true else false.
Definition EPSILON : R := (/ 2 ^ 52)%R.

End Exact.

#[export] Instance R_Number : Number R := {|
  nadd := Rplus;
  nsub := Rminus;
  nmul := Rmult;
  ndiv := Rdiv;
  nneg := Ropp;
  nabs := Rabs;
  nmax := Rmax;
  nmin := Rmin;
  nlt := Exact.ltb;
  nle := Exact.leb;
  neq := Exact.eqb;
  nfinite := fun _ => true;
  nofZ := IZR;
  nEPSILON := Exact.EPSILON;
  nundef := 0%R
|}.

(** ** math.ts: class PVector *)

Module PVector.
Section Def.
Context {num : Type} `{Number num}.
Local Open Scope num_scope.

Record t := mk { x : num; y : num }.

Definition magSq (v : t) : num := x v * x v + y v * y v.

Definition isSingular (v : t) : bool :=
    negb (nfinite (x v) && nfinite (y v)).

Definition sub (a b : t) : t := mk (x a - x b) (y a - y b).

Definition per (u v : t) : num := x u * y v - x v * y u.

Definition span (a b : t) : t := sub b a.

Definition distSq (a b : t) : num :=
    let dx := x a - x b in
    let dy := y a - y b in
    dx * dx + dy * dy.

  (** Modelled from the spec: [PVector.dot], which [isPioneer] calls and
      math.ts as given here does not define; the spec describes the test as
      "dot products of equal sign" of the tangent with the two spans. *)
Definition dot (u v : t) : num := x u * x v + y u * y v.

End Def.
Arguments t num : clear implicits.
End PVector.

Abbreviation PVector := PVector.t.

(** ** line.ts: class Line, placed before [Geometry], which projects onto lines *)

Module Line.
Section Def.
Context {num : Type} `{Number num}.
Local Open Scope num_scope.

Record line := mk { a : num; b : num; c : num }.

(* a point in line (s, t) coordinates: class LVector *)
Record LVector := mkL { s : num; t : num }.

Definition origin (l : line) : PVector num :=
  let c1 := - c l / (a l * a l + b l * b l) in
  PVector.mk (a l * c1) (b l * c1).

Definition tangent (l : line) : PVector num := PVector.mk (- b l) (a l).

Definition normal (l : line) : PVector num := PVector.mk (a l) (b l).

Definition map (l : line) (p : PVector num) : LVector :=
  let c1 := a l * a l + b l * b l in
  let t := (a l * PVector.x p + b l * PVector.y p + c l) / c1 in
  let c2 := c l / c1 - t in
  let s := if nabs (a l) >? nabs (b l)
           then (PVector.y p + b l * c2) / a l
           else - (PVector.x p + a l * c2) / b l in
  mkL s t.

Definition unmapc (l : line) (s t : num) : PVector num :=
  let c1 := t - c l / (a l * a l + b l * b l) in
  PVector.mk (c1 * a l - s * b l) (c1 * b l + s * a l).

Definition unmap (l : line) (v : LVector) : PVector num :=
  unmapc l (s v) (t v).

Definition remapc (l other : line) (s t : num) : LVector :=
  map l (unmapc other s t).

Definition remap (l other : line) (v : LVector) : LVector :=
  remapc l other (s v) (t v).

End Def.
Arguments line num : clear implicits.
Arguments LVector num : clear implicits.
End Line.

Abbreviation Line := Line.line.
Abbreviation LVector := Line.LVector.

(** ** math.ts: class Geometry *)

Module Geometry.
Section Def.
Context {num : Type} `{Number num}.
Local Open Scope num_scope.

Definition side (a b p : PVector num) : num :=
  PVector.per (PVector.span a b) (PVector.span a p).

Definition intersect (a b c d : PVector num) : bool :=
  let ab := PVector.span a b in
  let ac := PVector.span a c in
  let ad := PVector.span a d in
  let sab := PVector.per ab ac * PVector.per ab ad in
  if sab >? #0 then false else
  let cd := PVector.span c d in
  let cb := PVector.span c b in
  let scd := PVector.per cd ac * PVector.per cd cb in
  if scd <? #0 then false else
  if (sab =? #0) && (scd =? #0) then
    let abSq := PVector.magSq ab in
    (PVector.magSq ac <=? abSq) || (PVector.magSq ad <? abSq)
  else true.

Definition project (p : PVector num) (l : Line num) : PVector num :=
  let t := - (Line.a l * PVector.x p + Line.b l * PVector.y p + Line.c l)
           / (Line.a l * Line.a l + Line.b l * Line.b l) in
  PVector.mk (PVector.x p + t * Line.a l) (PVector.y p + t * Line.b l).

(* Gaussian elimination with full pivot selection; the mutable locals of the
   source are threaded as a tuple through the two conditional swaps. *)
Definition intersection (l1 l2 : Line num) : PVector num :=
  let a11 := Line.a l1 in let a12 := Line.b l1 in let b1 := - Line.c l1 in
  let a21 := Line.a l2 in let a22 := Line.b l2 in let b2 := - Line.c l2 in
  let '(a11, a12, b1, a21, a22, b2) :=
    if nmax (nabs a11) (nabs a12) <? nmax (nabs a21) (nabs a22)
    then (a21, a22, b2, a11, a12, b1)
    else (a11, a12, b1, a21, a22, b2) in
  let '(a11, a12, a21, a22, swapResult) :=
    if nabs a11 <? nabs a12
    then (a12, a11, a22, a21, true)
    else (a11, a12, a21, a22, false) in
  let a22 := a22 - a12 * a21 / a11 in
  let b2 := b2 - b1 * a21 / a11 in
  let x2 := b2 / a22 in
  let x1 := (b1 - a12 * x2) / a11 in
  if swapResult then PVector.mk x2 x1 else PVector.mk x1 x2.

End Def.
End Geometry.

(** ** math.ts: function clamp *)

Section Clamp.
Context {num : Type} `{Number num}.
Local Open Scope num_scope.

Definition clamp (x a b : num) : num :=
  if x <? a then a
  else if b <? x then b
  else x.

End Clamp.

(** ** Arrays

    [a[i]] for an integer [i]: [None] stands for the [undefined] that
    JavaScript gives outside the array. *)

Definition lookupZ {A : Type} (l : list A) (i : Z) : option A :=
  if (0 <=? i)%Z then l !! Z.to_nat i else None.

(** ** path.ts: class Path

    The points of a [Path], in order.  Its two listeners, the fitter and the
    simplifier, are notified by [PathSimplifier.addPoint] below, in the order
    in which they were registered.  Every appended point is an object of its
    own (as [addPointc] and the demo's [new PVector] make it), so that the
    index of a point in the path stands for the identity of its object. *)

Abbreviation Path num := (list (PVector num)).

(** ** line_fitter.ts: class LineFitter *)

Module LineFitter.
Section Def.
Context {num : Type} `{Number num}.
Local Open Scope num_scope.

Record t := mk {
  pathLength : nat;
  sumsX : list num;
  sumsY : list num;
  sumsXX : list num;
  sumsYY : list num;
  sumsXY : list num
}.

Definition onClear : t := mk 0 [#0] [#0] [#0] [#0] [#0].

(* sums[i] as a number *)
Definition at_ (sums : list num) (i : Z) : num :=
  default nundef (lookupZ sums i).

Definition onAddPoint (f : t) (p : PVector num) : t :=
  let x := PVector.x p in
  let y := PVector.y p in
  let i := Z.of_nat (pathLength f) in
  mk (S (pathLength f))
     (sumsX f ++ [at_ (sumsX f) i + x])
     (sumsY f ++ [at_ (sumsY f) i + y])
     (sumsXX f ++ [at_ (sumsXX f) i + x * x])
     (sumsYY f ++ [at_ (sumsYY f) i + y * y])
     (sumsXY f ++ [at_ (sumsXY f) i + x * y]).

(* new LineFitter(path): cleared, then every point of the path replayed *)
Definition new (path : Path num) : t := foldl onAddPoint onClear path.

Definition rangeSum (sums : list num) (i j : Z) : num :=
  at_ sums (j + 1) - at_ sums i.

(* the private static fitLine, on the six range statistics *)
Definition fitLineStat (sumX sumY sumXX sumYY sumXY : num) (n : Z) : Line num :=
  if (n <=? 0)%Z then Line.mk #1 (- #1) #0 else
  let fa := nmax (#n * sumXX - sumX * sumX) #0 in
  let fb := nmax (#n * sumYY - sumY * sumY) #0 in
  if (fa <=? nEPSILON) && (fb <=? nEPSILON) then
    Line.mk (- #1) (- #1) ((sumX + sumY) / #n)
  else if fa <? fb then
    let a := #1 in
    let b := (sumX * sumY - #n * sumXY) / fb in
    let c := - (sumY * b + sumX) / #n in
    Line.mk a b c
  else
    let a := (sumX * sumY - #n * sumXY) / fa in
    let b := #1 in
    let c := - (sumX * a + sumY) / #n in
    Line.mk a b c.

Definition fitLine (f : t) (i j : Z) : Line num :=
  fitLineStat
    (rangeSum (sumsX f) i j)
    (rangeSum (sumsY f) i j)
    (rangeSum (sumsXX f) i j)
    (rangeSum (sumsYY f) i j)
    (rangeSum (sumsXY f) i j)
    (j - i + 1).


End Def.
Arguments t num : clear implicits.
End LineFitter.

Abbreviation LineFitter := LineFitter.t.

(** ** simple_path_hull.ts: class SimplePathHull

    The nodes of the doubly linked list are objects that the hull, their
    neighbours and the simplifier all refer to and that [offer] mutates.
    They live here in an arena [nodes]; a reference to a node is its index
    in the arena, and [n0 != n1] on two nodes compares the indices.  A node
    is never freed: an evicted node stays in the arena with [isValid] false
    and with the links it had.

    The [while] loops of [offer] walk the links, and they run here on a fuel
    of one more than the number of nodes of the arena.  [None] is a run that
    does not return: the fuel is used up (the loop does not leave the
    links it walks) or a property of [undefined] is read.  The lemma
    [offer_total] below shows that neither happens. *)

Module SimplePathHull.
Section Def.
Context {num : Type} `{Number num}.
Local Open Scope num_scope.

(* a reference to a PVector object: the identity of the object, which the
   test [first.pos === p] compares, and its coordinates *)
Record PRef := mkRef { ref : nat; val : PVector num }.

(* type SimplePathHullNode *)
Record Node := mkNode { pos : PRef; prev : nat; next : nat; isValid : bool }.

Record t := mk { nodes : list Node; first : option nat; size : Z }.

Definition empty : t := mk [] None 0.

Definition isEmpty (h : t) : bool := (size h =? 0)%Z.

Definition set_prev (k : nat) (n : Node) : Node :=
  mkNode (pos n) k (next n) (isValid n).

Definition set_next (k : nat) (n : Node) : Node :=
  mkNode (pos n) (prev n) k (isValid n).

Definition invalidate (n : Node) : Node :=
  mkNode (pos n) (prev n) (next n) false.

(* makeNode(pos, prev?, next?): the new node takes the next free index [k];
   then [node.prev.next = node.next.prev = node]. *)
Definition makeNode (nodes : list Node) (p : PRef) (prv nxt : option nat)
  : list Node * nat :=
  let k := length nodes in
  let node := mkNode p (default k prv) (default k nxt) true in
  let nodes := nodes ++ [node] in
  let nodes := alter (set_prev k) (next node) nodes in
  let nodes := alter (set_next k) (prev node) nodes in
  (nodes, k).

(* while (n0.prev != first && side(n0.pos, n0.prev.pos, p) >= 0) n0 = n0.prev *)
Fixpoint seekPrev (fuel : nat) (nodes : list Node) (first n0 : nat)
  (p : PVector num) : option nat :=
  match fuel with
  | O => None
  | S fuel =>
    N0 ← nodes !! n0;
    if decide (prev N0 = first) then Some n0 else
    P ← nodes !! prev N0;
    if Geometry.side (val (pos N0)) (val (pos P)) p >=? #0
    then seekPrev fuel nodes first (prev N0) p
    else Some n0
  end.

(* while (n1.next != first && side(n1.pos, n1.next.pos, p) <= 0) n1 = n1.next *)
Fixpoint seekNext (fuel : nat) (nodes : list Node) (first n1 : nat)
  (p : PVector num) : option nat :=
  match fuel with
  | O => None
  | S fuel =>
    N1 ← nodes !! n1;
    if decide (next N1 = first) then Some n1 else
    Q ← nodes !! next N1;
    if Geometry.side (val (pos N1)) (val (pos Q)) p <=? #0
    then seekNext fuel nodes first (next N1) p
    else Some n1
  end.

(* while (n != n1) { n.isValid = false; n = n.next; --this._size; } *)
Fixpoint evict (fuel : nat) (nodes : list Node) (size : Z) (n n1 : nat)
  : option (list Node * Z) :=
  match fuel with
  | O => None
  | S fuel =>
    if decide (n = n1) then Some (nodes, size) else
    N ← nodes !! n;
    evict fuel (alter invalidate n nodes) (size - 1)%Z (next N) n1
  end.

(* the branches of [offer], up to its final test *)
Definition place (h : t) (p : PRef) : option t :=
  if (3 <=? size h)%Z then
    first ← first h;
    let fuel := S (length (nodes h)) in
    n0 ← seekPrev fuel (nodes h) first first (val p);
    n1 ← seekNext fuel (nodes h) first first (val p);
    if decide (n0 = n1) then Some h else
    N0 ← nodes h !! n0;
    '(nodes1, size1) ← evict fuel (nodes h) (size h) (next N0) n1;
    let '(nodes2, k) := makeNode nodes1 p (Some n0) (Some n1) in
    Some (mk nodes2 (Some k) size1)
  else if (size h =? 0)%Z then
    let '(nodes1, k) := makeNode (nodes h) p None None in
    Some (mk nodes1 (Some k) (size h))
  else if (size h =? 1)%Z then
    let '(nodes1, k) := makeNode (nodes h) p (first h) (first h) in
    Some (mk nodes1 (Some k) (size h))
  else
    first ← first h;
    F ← nodes h !! first;
    Q ← nodes h !! next F;
    let s := Geometry.side (val (pos F)) (val (pos Q)) (val p) in
    if s <? #0 then
      let '(nodes1, k) := makeNode (nodes h) p (Some first) (Some (next F)) in
      Some (mk nodes1 (Some k) (size h))
    else if s >? #0 then
      let '(nodes1, k) := makeNode (nodes h) p (Some (prev F)) (Some first) in
      Some (mk nodes1 (Some k) (size h))
    else
      let nodes1 := alter invalidate first (nodes h) in
      let '(nodes2, k) := makeNode nodes1 p (Some (prev F)) (Some (next F)) in
      Some (mk nodes2 (Some k) (size h - 1)%Z).

(* offer(p): the hull after the call and the node it returns, if any *)
Definition offer (h : t) (p : PRef) : option (t * option nat) :=
  h1 ← place h p;
  match first h1 with
  | None => Some (h1, None)
  | Some f =>
    F ← nodes h1 !! f;
    if decide (ref (pos F) = ref p)
    then Some (mk (nodes h1) (first h1) (size h1 + 1)%Z, Some f)
    else Some (h1, None)
  end.

End Def.
Arguments PRef num : clear implicits.
Arguments Node num : clear implicits.
Arguments t num : clear implicits.
End SimplePathHull.

Abbreviation SimplePathHull := SimplePathHull.t.

(** ** path_simplifier.ts: class ErrorBox *)

Module ErrorBox.
Section Def.
Context {num : Type} `{Number num}.
Local Open Scope num_scope.

Record t := mk { line : Line num; s0 : num; s1 : num; t0 : num; t1 : num }.

(* this.line, where a parameter of the method is called [line] too *)
Definition ErrorBox_line (box : t) : Line num := line box.

(* Math.min and Math.max of five arguments *)
Definition min5 (a b c d e : num) : num := nmin (nmin (nmin (nmin a b) c) d) e.
Definition max5 (a b c d e : num) : num := nmax (nmax (nmax (nmax a b) c) d) e.

Definition new (line : Line num) (p : PVector num) : t :=
  let l := Line.map line p in
  mk line (Line.s l) (Line.s l) (Line.t l) (Line.t l).

Definition extend (box : t) (line : Line num) (p : PVector num) : t :=
  let old := ErrorBox_line box in
  let l := Line.map line p in
  let l00 := Line.remapc line old (s0 box) (t0 box) in
  let l01 := Line.remapc line old (s0 box) (t1 box) in
  let l10 := Line.remapc line old (s1 box) (t0 box) in
  let l11 := Line.remapc line old (s1 box) (t1 box) in
  mk line
     (min5 (Line.s l) (Line.s l00) (Line.s l01) (Line.s l10) (Line.s l11))
     (max5 (Line.s l) (Line.s l00) (Line.s l01) (Line.s l10) (Line.s l11))
     (min5 (Line.t l) (Line.t l00) (Line.t l01) (Line.t l10) (Line.t l11))
     (max5 (Line.t l) (Line.t l00) (Line.t l01) (Line.t l10) (Line.t l11)).

Definition error (box : t) : num :=
  nmax (t0 box * t0 box) (t1 box * t1 box)
  * (Line.a (line box) * Line.a (line box) + Line.b (line box) * Line.b (line box)).

Definition getCartesianCorners (box : t) : list (PVector num) :=
  [ Line.unmapc (line box) (s0 box) (t0 box);
    Line.unmapc (line box) (s0 box) (t1 box);
    Line.unmapc (line box) (s1 box) (t1 box);
    Line.unmapc (line box) (s1 box) (t0 box) ].

End Def.
Arguments t num : clear implicits.
End ErrorBox.

Abbreviation ErrorBox := ErrorBox.t.

(** ** path_simplifier.ts: class PathSimplifier *)

(* type Event *)
Inductive Event := accept | cut | threshold | pioneer_weak | pioneer_strong.

(* type PointTag *)
Record PointTag := mkTag { tag_dist : Z; tag_next : Z; tag_cut : bool }.

(* ti.cut = true *)
Definition set_cut (ti : PointTag) : PointTag :=
  mkTag (tag_dist ti) (tag_next ti) true.

Module PathSimplifier.
Section Def.
Context {num : Type} `{Number num}.
Local Open Scope num_scope.

Import SimplePathHull.

(** The simplifier with the objects it owns or shares: [path] is the Path it
    is attached to and [fitter] the LineFitter it registered on that path
    before itself. *)
Record t := mk {
  path : Path num;
  pathLength : nat;
  fitter : LineFitter num;
  tags : list PointTag;
  thresholdSq : num;
  trace : list Event
}.

(* isPioneer(line, n), reading the node [n] and its neighbours in the arena *)
Definition isPioneer (nodes : list (Node num)) (line : Line num) (n : nat)
  : option bool :=
  N ← nodes !! n;
  if negb (isValid N) then Some false else
  let t := Line.tangent line in
  P ← nodes !! prev N;
  Q ← nodes !! next N;
  let dp := PVector.dot t (PVector.span (val (pos N)) (val (pos P))) in
  let dn := PVector.dot t (PVector.span (val (pos N)) (val (pos Q))) in
  Some (dp * dn >=? #0).

(* what the loop of [onAddPoint] reads and writes *)
Record Scan := mkScan {
  sc_tags : list PointTag;
  sc_box : ErrorBox num;
  sc_hull : SimplePathHull num;
  sc_next : Z;
  sc_dist : Z;
  sc_trace : list Event
}.

(* ti.cut || i < j - 2 && Geometry.intersect(pi, path.point(i + 1), path.point(j - 1), pj) *)
Definition cutTest (path : Path num) (ti : PointTag) (i j : nat)
  (pi pj : PVector num) : option bool :=
  if tag_cut ti then Some true else
  if (Z.of_nat i <? Z.of_nat j - 2)%Z then
    a ← path !! S i;
    b ← lookupZ path (Z.of_nat j - 1);
    Some (Geometry.intersect pi a b pj)
  else Some false.

(* for (let i = j - 1; i >= 0; --i): [scan ... k st] runs the iterations
   i = k - 1, ..., 0, until one of them breaks *)
Fixpoint scan (path : Path num) (fitter : LineFitter num) (thresholdSq : num)
  (j : nat) (pj : PVector num) (nj : option nat) (k : nat) (st : Scan)
  : option Scan :=
  match k with
  | O => Some st
  | S i =>
    pi ← path !! i;
    ti ← sc_tags st !! i;
    isCut ← cutTest path ti i j pi pj;
    if (isCut : bool) then
      Some (mkScan (<[i := set_cut ti]> (sc_tags st)) (sc_box st) (sc_hull st)
                   (sc_next st) (sc_dist st) (sc_trace st ++ [cut]))
    else
    let line := LineFitter.fitLine fitter (Z.of_nat i) (Z.of_nat j) in
    let box := ErrorBox.extend (sc_box st) line pi in
    if ErrorBox.error box >? thresholdSq then
      Some (mkScan (sc_tags st) box (sc_hull st)
                   (sc_next st) (sc_dist st) (sc_trace st ++ [threshold]))
    else
    '(hull, ni) ← offer (sc_hull st) (mkRef i pi);
    weak ← match ni with
           | None => Some true
           | Some n => negb <$> isPioneer (nodes hull) line n
           end;
    if (weak : bool) then
      scan path fitter thresholdSq j pj nj i
           (mkScan (sc_tags st) box hull
                   (sc_next st) (sc_dist st) (sc_trace st ++ [pioneer_weak]))
    else
    n ← nj;
    strong ← negb <$> isPioneer (nodes hull) line n;
    if (strong : bool) then
      Some (mkScan (sc_tags st) box hull
                   (sc_next st) (sc_dist st) (sc_trace st ++ [pioneer_strong]))
    else
    if (tag_dist ti <? sc_dist st)%Z then
      scan path fitter thresholdSq j pj nj i
           (mkScan (sc_tags st) box hull
                   (Z.of_nat i) (tag_dist ti) (sc_trace st ++ [accept]))
    else
      scan path fitter thresholdSq j pj nj i
           (mkScan (sc_tags st) box hull
                   (sc_next st) (sc_dist st) (sc_trace st ++ [accept]))
  end.

Definition onClear (s : t) : t :=
  mk (path s) 0 (fitter s) [] (thresholdSq s) (trace s).

(* onAddPoint(path, p), for the path the simplifier is attached to, which
   already holds [p] as its last point *)
Definition onAddPoint (s : t) (p : PVector num) : option t :=
  let j := pathLength s in
  let pj := p in
  let errorBox :=
    ErrorBox.new (LineFitter.fitLine (fitter s) (Z.of_nat j) (Z.of_nat j)) pj in
  '(hull, nj) ← offer SimplePathHull.empty (mkRef j pj);
  if (j =? 0)%nat then
    Some (mk (path s) (S j) (fitter s)
             (tags s ++ [mkTag 0 (-1) false]) (thresholdSq s) [accept])
  else
  let next := (Z.of_nat j - 1)%Z in
  tn ← lookupZ (tags s) next;
  let dist := tag_dist tn in
  st ← scan (path s) (fitter s) (thresholdSq s) j pj nj j
            (mkScan (tags s) errorBox hull next dist [accept]);
  Some (mk (path s) (S j) (fitter s)
           (sc_tags st ++ [mkTag (sc_dist st + 1) (sc_next st) false])
           (thresholdSq s) (sc_trace st)).

(* the listeners run on the points of a path, one after the other *)
Fixpoint replay (s : t) (ps : list (PVector num)) : option t :=
  match ps with
  | [] => Some s
  | p :: ps => s1 ← onAddPoint s p; replay s1 ps
  end.

(* new PathSimplifier(path, threshold) *)
Definition new (path : Path num) (threshold : num) : option t :=
  replay (onClear (mk path 0 (LineFitter.new path) [] (threshold * threshold) []))
         path.

(* path.addPoint(p) on the path of the simplifier: the point is pushed, then
   the fitter is notified, then the simplifier *)
Definition addPoint (s : t) (p : PVector num) : option t :=
  onAddPoint (mk (path s ++ [p]) (pathLength s)
                 (LineFitter.onAddPoint (fitter s) p)
                 (tags s) (thresholdSq s) (trace s)) p.

(* path.clear() *)
Definition clear (s : t) : t :=
  onClear (mk [] (pathLength s) LineFitter.onClear (tags s) (thresholdSq s) (trace s)).

(* path.addPoint(p) for each point of [ps] in turn *)
Fixpoint addPoints (s : t) (ps : list (PVector num)) : option t :=
  match ps with
  | [] => Some s
  | p :: ps => s1 ← addPoint s p; addPoints s1 ps
  end.

(* the while loop of [getSimplified], on a fuel *)
Fixpoint walk (fuel : nat) (s : t) (i : Z) (line : Line num)
  (result : Path num) : option (Line num * Path num) :=
  match fuel with
  | O => None
  | S fuel =>
    if (i =? 0)%Z then Some (line, result) else
    let j := i in
    tj ← lookupZ (tags s) j;
    let i := tag_next tj in
    pj ← lookupZ (path s) j;
    let prevLine := line in
    let line := LineFitter.fitLine (fitter s) i j in
    let p := Geometry.intersection line prevLine in
    if PVector.isSingular p || (PVector.distSq p pj >? #4 * thresholdSq s)
    then walk fuel s i line (result ++ [pj])
    else walk fuel s i line (result ++ [p])
  end.

(* getSimplified(); the loop gets the fuel [pathLength], one unit for each
   index it can visit and one for the test that ends it *)
Definition getSimplified (s : t) : option (Path num) :=
  if (pathLength s <=? 1)%nat then Some (path s) else
  let j := (Z.of_nat (pathLength s) - 1)%Z in
  tj ← lookupZ (tags s) j;
  let i := tag_next tj in
  let line := LineFitter.fitLine (fitter s) i j in
  pj ← lookupZ (path s) j;
  '(line, result) ← walk (pathLength s) s i line [Geometry.project pj line];
  p0 ← path s !! 0%nat;
  Some (result ++ [Geometry.project p0 line]).

End Def.
Arguments t num : clear implicits.
Arguments Scan num : clear implicits.
End PathSimplifier.

Abbreviation PathSimplifier := PathSimplifier.t.

(** ** Runs

    [build threshold path0 ps]: a simplifier is constructed on a path that
    holds the points [path0], and the points [ps] are then appended to the
    path one by one.  [simplify threshold ps]: the simplified path after the
    points [ps] were appended to an empty path. *)

Section Runs.
Context {num : Type} `{Number num}.

Definition build (threshold : num) (path0 ps : Path num)
  : option (PathSimplifier num) :=
  s0 ← PathSimplifier.new path0 threshold;
  PathSimplifier.addPoints s0 ps.

Definition simplify (threshold : num) (ps : Path num) : option (Path num) :=
  s ← build threshold [] ps;
  PathSimplifier.getSimplified s.

(* hull.offer(p) for each point of [ps] in turn, each an object of its own *)
Fixpoint offers (h : SimplePathHull num) (k : nat) (ps : list (PVector num))
  : option (SimplePathHull num) :=
  match ps with
  | [] => Some h
  | p :: ps =>
    '(h1, _) ← SimplePathHull.offer h (SimplePathHull.mkRef k p);
    offers h1 (S k) ps
  end.

(* the positions of the hull polygon: from [first], along [next], as the
   demo app draws it; [size] nodes *)
Fixpoint boundary (nodes : list (SimplePathHull.Node num)) (n : nat) (k : nat)
  : list (PVector num) :=
  match k with
  | O => []
  | S k =>
    match nodes !! n with
    | None => []
    | Some N =>
      SimplePathHull.val (SimplePathHull.pos N)
      :: boundary nodes (SimplePathHull.next N) k
    end
  end.

Definition polygon (h : SimplePathHull num) : list (PVector num) :=
  match SimplePathHull.first h with
  | None => []
  | Some f => boundary (SimplePathHull.nodes h) f (Z.to_nat (SimplePathHull.size h))
  end.

End Runs.

(* a point with binary64 coordinates *)
Definition pt (x y : float) : PVector float := PVector.mk x y.

(** * The hull as a linked structure

    [link nodes a b]: in the arena, [b] is the next node of [a] and [a] the
    previous node of [b].  [chain nodes a l b]: following [next] from [a]
    passes the nodes of [l] in order and arrives at [b].  A hull is well
    formed when the links of its arena stay inside the arena and, if it has a
    first node [f], following [next] from [f] returns to [f] through distinct
    nodes. *)

Section HullStructure.
Context {num : Type} `{Number num}.
Import SimplePathHull.
Implicit Types (nodes : list (Node num)) (h : SimplePathHull num).

Definition nextOf nodes (a : nat) : option nat := next <$> nodes !! a.
Definition prevOf nodes (b : nat) : option nat := prev <$> nodes !! b.

Definition link nodes (a b : nat) : Prop :=
  nextOf nodes a = Some b ∧ prevOf nodes b = Some a.

Fixpoint chain nodes (a : nat) (l : list nat) (b : nat) : Prop :=
  match l with
  | [] => link nodes a b
  | x :: l => link nodes a x ∧ chain nodes x l b
  end.

Definition closed nodes : Prop :=
  ∀ n x, nextOf nodes n = Some x ∨ prevOf nodes n = Some x → x < length nodes.

Definition wf h : Prop :=
  closed (nodes h) ∧
  match first h with
  | None => size h = 0%Z
  | Some f => ∃ l, NoDup (f :: l) ∧ chain (nodes h) f l f
  end.

(* [keep] is what stays of a cycle when a new node is put between [a] and
   [b]: [a] alone when they are one node, a path from [b] to [a] otherwise *)
Definition closes nodes (a b : nat) (keep : list nat) : Prop :=
  (a = b ∧ keep = [a] ∧ a < length nodes) ∨
  (∃ rest, keep = b :: rest ++ [a] ∧ NoDup keep ∧ chain nodes b rest a).

End HullStructure.

(** * The scan of [onAddPoint] as a relation

    [scans j k st st']: the iterations i = k - 1, ..., 0 of the loop that
    scans for the new index [j] take the state [st] to [st'].  The relation
    keeps what the loop does to the tags, to [next] and [dist] and to the
    trace, and leaves open what the fitter, the error box and the hull
    answer: every run of [scan] is one of its derivations ([scan_scans]). *)

Section ScanRelation.
Context {num : Type} `{Number num}.
Import PathSimplifier.

Inductive scans (j : nat) : nat → Scan num → Scan num → Prop :=
| scans_done st :
    scans j 0 st st
| scans_cut i st ti :
    sc_tags st !! i = Some ti →
    tag_cut ti = true ∨ (Z.of_nat i < Z.of_nat j - 2)%Z →
    scans j (S i) st
      (mkScan (<[i := set_cut ti]> (sc_tags st)) (sc_box st) (sc_hull st)
              (sc_next st) (sc_dist st) (sc_trace st ++ [cut]))
| scans_threshold i st ti box :
    sc_tags st !! i = Some ti → tag_cut ti = false →
    scans j (S i) st
      (mkScan (sc_tags st) box (sc_hull st)
              (sc_next st) (sc_dist st) (sc_trace st ++ [threshold]))
| scans_strong i st ti box hull :
    sc_tags st !! i = Some ti → tag_cut ti = false →
    scans j (S i) st
      (mkScan (sc_tags st) box hull
              (sc_next st) (sc_dist st) (sc_trace st ++ [pioneer_strong]))
| scans_weak i st ti box hull st' :
    sc_tags st !! i = Some ti → tag_cut ti = false →
    scans j i
      (mkScan (sc_tags st) box hull
              (sc_next st) (sc_dist st) (sc_trace st ++ [pioneer_weak])) st' →
    scans j (S i) st st'
| scans_accept i st ti box hull st' :
    sc_tags st !! i = Some ti → tag_cut ti = false →
    scans j i
      (mkScan (sc_tags st) box hull
              (if (tag_dist ti <? sc_dist st)%Z then Z.of_nat i else sc_next st)
              (if (tag_dist ti <? sc_dist st)%Z then tag_dist ti else sc_dist st)
              (sc_trace st ++ [accept])) st' →
    scans j (S i) st st'.

End ScanRelation.

(** * The table of tags

    [route_ok tags j tj]: the tag of index 0 is the start of every route;
    the tag of a later index [j] names an earlier index [i] as its [next] and
    is one step farther from the start than [i].  [Inv s] is what every
    append keeps: there is one tag for each appended point, every tag is
    [route_ok], and a tag that is cut lies more than three indices below the
    end of the table. *)

Section TableDefs.
Context {num : Type} `{Number num}.
Import PathSimplifier.
Implicit Types (s : PathSimplifier num).

Definition route_ok (tags : list PointTag) (j : nat) (tj : PointTag) : Prop :=
  match j with
  | O => tag_dist tj = 0%Z ∧ tag_next tj = (-1)%Z
  | S _ => ∃ i ti, i < j ∧ tag_next tj = Z.of_nat i ∧
                   tags !! i = Some ti ∧ tag_dist tj = (tag_dist ti + 1)%Z
  end.

Definition Inv s : Prop :=
  length (tags s) = pathLength s ∧
  ∀ j tj, tags s !! j = Some tj →
    route_ok (tags s) j tj ∧ (tag_cut tj = true → j + 3 < pathLength s).

(* the tags of [tags'] are those of [tags], up to cuts that were set *)
Definition same_routes (tags tags' : list PointTag) : Prop :=
  ∀ i ti, tags !! i = Some ti →
    ∃ ti', tags' !! i = Some ti' ∧ tag_dist ti' = tag_dist ti ∧
           tag_next ti' = tag_next ti ∧ (tag_cut ti = true → tag_cut ti' = true).

(* the state of a simplifier between two calls, when it has seen every point
   of its path *)
Definition Ready s : Prop := Inv s ∧ pathLength s = length (path s).

End TableDefs.

(** * Reconstruction: the route that [getSimplified] walks

    [route tags j ch]: following [next] from the index [j] visits the indices
    [ch], first [j] and last 0.  [polyline s prevLine ch out line]: the loop
    of [getSimplified], entered at the head of [ch] with the fitted line
    [prevLine] of the edge it comes from, adds the vertices [out], one for
    each index of [ch] but the last, and ends with the fitted line [line]. *)

Section Reconstruction.
Context {num : Type} `{Number num}.
Import PathSimplifier.
Implicit Types (s : PathSimplifier num).
Local Open Scope num_scope.

(* the vertex the loop adds for the original point [pj], where the fitted
   lines of the two edges at [pj] are [line] and [prevLine] *)
Definition corner (thresholdSq : num) (line prevLine : Line num)
  (pj : PVector num) : PVector num :=
  let p := Geometry.intersection line prevLine in
  if PVector.isSingular p || (PVector.distSq p pj >? #4 * thresholdSq)
  then pj else p.

Inductive route (tags : list PointTag) : Z → list Z → Prop :=
| route_start : route tags 0 [0%Z]
| route_step j tj ch :
    j ≠ 0%Z → lookupZ tags j = Some tj →
    route tags (tag_next tj) ch → route tags j (j :: ch).

Inductive polyline s : Line num → list Z → Path num → Line num → Prop :=
| polyline_end prevLine : polyline s prevLine [0%Z] [] prevLine
| polyline_corner prevLine j tj pj ch out line :
    j ≠ 0%Z → lookupZ (tags s) j = Some tj → lookupZ (path s) j = Some pj →
    polyline s (LineFitter.fitLine (fitter s) (tag_next tj) j)
             (tag_next tj :: ch) out line →
    polyline s prevLine (j :: tag_next tj :: ch)
      (corner (thresholdSq s) (LineFitter.fitLine (fitter s) (tag_next tj) j)
              prevLine pj :: out)
      line.

(* the indices of a list go down, strictly *)
Definition descending (ch : list Z) : Prop :=
  ∀ a b x y, ch !! a = Some x → ch !! b = Some y → a < b → (y < x)%Z.

End Reconstruction.

(** * The running sums of the fitter *)

Section RunningSums.
Context {num : Type} `{Number num}.
Import LineFitter.

(* [sums] holds the running sums of [vals]: one more entry than [vals], each
   the entry before it plus the value of that index *)
Definition running (sums vals : list num) : Prop :=
  length sums = S (length vals) ∧
  ∀ i v, vals !! i = Some v →
    at_ sums (Z.of_nat i + 1) = nadd (at_ sums (Z.of_nat i)) v.

End RunningSums.

(** * The plane of exact arithmetic *)

Section Plane.
Local Open Scope R_scope.

(* the point [p] satisfies the equation of the line [l] *)
Definition onLine (l : Line R) (p : PVector R) : Prop :=
  Line.a l * PVector.x p + Line.b l * PVector.y p + Line.c l = 0.

(* the line has a direction: (a, b) is not (0, 0) *)
Definition proper (l : Line R) : Prop :=
  Line.a l * Line.a l + Line.b l * Line.b l ≠ 0.

(* the point [p] lies on the closed segment from [a] to [b] *)
Definition onSegment (a b p : PVector R) : Prop :=
  ∃ t, 0 <= t <= 1 ∧
       PVector.x p = PVector.x a + t * (PVector.x b - PVector.x a) ∧
       PVector.y p = PVector.y a + t * (PVector.y b - PVector.y a).

(* the squared distance from [p] to the line [l] *)
Definition lineDistSq (l : Line R) (p : PVector R) : R :=
  PVector.distSq p (Geometry.project p l).

End Plane.

(** * Ranges of points and their sums *)

Section Ranges.

(* the elements of indices i, ..., j of a list *)
Definition slice {A : Type} (i j : nat) (l : list A) : list A :=
  take (S j - i) (drop i l).

(* the sum of a list of real numbers *)
Definition sumR (l : list R) : R := foldr Rplus 0%R l.

(* the sum of the squared residuals a x + b y + c of the points [pts] for
   the line [l] *)
Definition residualSq (l : Line R) (pts : list (PVector R)) : R :=
  sumR ((λ p, (Line.a l * PVector.x p + Line.b l * PVector.y p + Line.c l)
              * (Line.a l * PVector.x p + Line.b l * PVector.y p + Line.c l))%R
        <$> pts).

End Ranges.

(** * Error boxes and the points they hold *)

Section Boxes.
Local Open Scope R_scope.

(* the point [p], in the coordinates of the line of the box, lies inside the
   rectangle of the box *)
Definition inBox (box : ErrorBox R) (p : PVector R) : Prop :=
  ErrorBox.s0 box <= Line.s (Line.map (ErrorBox.line box) p) <= ErrorBox.s1 box ∧
  ErrorBox.t0 box <= Line.t (Line.map (ErrorBox.line box) p) <= ErrorBox.t1 box.

(* errorBox.extend(line, p) for each pair of [steps] in turn *)
Definition extends (box : ErrorBox R) (steps : list (Line R * PVector R))
  : ErrorBox R :=
  foldl (λ box step, ErrorBox.extend box step.1 step.2) box steps.

End Boxes.

(** * A simplifier seen from a longer path

    The constructor replays the points of the path it is given with the
    whole path and a fitter of the whole path before it; [rebase P F s] is
    the state [s] with this path and this fitter in place of its own. *)

Section Attachment.
Context {num : Type} `{Number num}.
Import PathSimplifier.

Definition rebase (P : Path num) (F : LineFitter num) (s : PathSimplifier num)
  : PathSimplifier num :=
  PathSimplifier.mk P (pathLength s) F (tags s) (thresholdSq s) (trace s).

(* two paths hold the same points below the index [n] *)
Definition paths_agree (n : nat) (P P' : Path num) : Prop :=
  ∀ i, i < n → P !! i = P' !! i.

(* two fitters hold the same sums up to the index [n] *)
Definition sums_agree (n : nat) (F F' : LineFitter num) : Prop :=
  ∀ k, k ≤ n →
    LineFitter.sumsX F !! k = LineFitter.sumsX F' !! k ∧
    LineFitter.sumsY F !! k = LineFitter.sumsY F' !! k ∧
    LineFitter.sumsXX F !! k = LineFitter.sumsXX F' !! k ∧
    LineFitter.sumsYY F !! k = LineFitter.sumsYY F' !! k ∧
    LineFitter.sumsXY F !! k = LineFitter.sumsXY F' !! k.

(* the fitter holds one sum more than it has seen points, in each array *)
Definition fitter_full (F : LineFitter num) : Prop :=
  length (LineFitter.sumsX F) = S (LineFitter.pathLength F) ∧
  length (LineFitter.sumsY F) = S (LineFitter.pathLength F) ∧
  length (LineFitter.sumsXX F) = S (LineFitter.pathLength F) ∧
  length (LineFitter.sumsYY F) = S (LineFitter.pathLength F) ∧
  length (LineFitter.sumsXY F) = S (LineFitter.pathLength F).

(* the hull of the scan for the point [p] of index [j], before the loop *)
Definition hullOf (j : nat) (p : PVector num) : SimplePathHull num :=
  SimplePathHull.mk
    [SimplePathHull.mkNode (SimplePathHull.mkRef j p) 0 0 true] (Some 0) 1.

End Attachment.

(** * Events, cuts and fitted edges *)

(* an event that ends the loop of a scan *)
Definition breaks (e : Event) : Prop :=
  e = cut ∨ e = threshold ∨ e = pioneer_strong.

Section Crossings.
Context {num : Type} `{Number num}.
Import PathSimplifier.

(* the segment from point [i] to point [i + 1] of [P] and the segment that
   ends at the point [pj] of index [j], three or more indices later, are
   reported as intersecting *)
Definition crosses (P : Path num) (i j : nat) (pj : PVector num) : Prop :=
  (Z.of_nat i < Z.of_nat j - 2)%Z ∧
  ∃ pi a b, P !! i = Some pi ∧ P !! S i = Some a ∧ P !! (j - 1) = Some b ∧
            Geometry.intersect pi a b pj = true.

(* every cut of the table has its crossing *)
Definition cuts_cross (P : Path num) (s : PathSimplifier num) : Prop :=
  ∀ i ti, tags s !! i = Some ti → tag_cut ti = true →
    ∃ j pj, j < pathLength s ∧ P !! j = Some pj ∧ crosses P i j pj.

End Crossings.

Section FittedEdges.
Import PathSimplifier.
Local Open Scope R_scope.

(* the points of indices i, ..., j of [P] are within the squared distance
   [bound] of the line that the fitter [F] gives for them *)
Definition fits (P : Path R) (F : LineFitter R) (bound : R) (i j : nat) : Prop :=
  ∀ m pm, i ≤ m → m ≤ j → P !! m = Some pm →
    lineDistSq (LineFitter.fitLine F (Z.of_nat i) (Z.of_nat j)) pm <= bound.

(* the [next] of a scan is the one it started with, or an index from which
   the points fit *)
Definition next_fits (P : Path R) (F : LineFitter R) (bound : R) (j : nat)
  (next0 next : Z) : Prop :=
  next = next0 ∨ ∃ i, next = Z.of_nat i ∧ fits P F bound i j.

(* every tag of the table has a [next] that is the index before it or one
   from which the points fit *)
Definition table_fits (P : Path R) (F : LineFitter R) (bound : R)
  (s : PathSimplifier R) : Prop :=
  ∀ j tj, tags s !! j = Some tj →
    next_fits P F bound j (Z.of_nat j - 1) (tag_next tj).

End FittedEdges.

(** * Inputs of the exact examples *)

(** ** The nodes that a hull counts *)

Section HullCount.
Context {num : Type} `{Number num}.
Import SimplePathHull.
Implicit Types (nodes : list (Node num)) (h : SimplePathHull num).

Definition validAt nodes (n : nat) : option bool := isValid <$> nodes !! n.
Definition refAt nodes (n : nat) : option nat := (λ N, ref (pos N)) <$> nodes !! n.

(* the hull after offers of the point objects 0, ..., k - 1: [size] counts
   the nodes of the cycle of [first], and these are the valid nodes *)
Definition counted h (k : nat) : Prop :=
  closed (nodes h) ∧
  (∀ n r, refAt (nodes h) n = Some r → r < k) ∧
  match first h with
  | None => size h = 0%Z ∧ nodes h = []
  | Some f =>
    ∃ l, NoDup (f :: l) ∧ chain (nodes h) f l f ∧
         size h = Z.of_nat (length (f :: l)) ∧
         ∀ n, validAt (nodes h) n = Some true ↔ n ∈ f :: l
  end.

End HullCount.


Section ExactInputs.
Local Open Scope R_scope.

(* a point with real coordinates *)
Definition ptR (x y : R) : PVector R := PVector.mk x y.

(* the line x + y = 2, the line x = 1 and the line y = 2 *)
Definition lineDiag : Line R := Line.mk 1 1 (-2).
Definition lineV : Line R := Line.mk 1 0 (-1).
Definition lineH : Line R := Line.mk 0 1 (-2).

(* two points, and three points on the x axis *)
Definition pair01 : Path R := [ptR 0 0; ptR 2 1].

End ExactInputs.

(** * Inputs of the runs on binary64 *)

Section Inputs.
Local Open Scope float_scope.

(* the three collinear points of the first scenario *)
Definition collinear3 : Path float := [pt 0 0; pt 5 0; pt 10 0].

(* the lines x = 0 and y = 1, and the coordinate (s, t) = (2, 3) *)
Definition lineX : Line float := Line.mk 1 0 0.
Definition lineY : Line float := Line.mk 0 1 (-1).
Definition coord23 : LVector float := Line.mkL 2 3.

(* the polyline B -> A -> P; Z coordinates, read in binary64 and in R *)
Definition ptZ {num : Type} `{Number num} (x y : Z) : PVector num :=
  PVector.mk (nofZ x) (nofZ y).

Definition hullB {num : Type} `{Number num} : PVector num :=
  ptZ 134217729 134217728.
Definition hullA {num : Type} `{Number num} : PVector num := ptZ 0 0.
Definition hullP {num : Type} `{Number num} : PVector num :=
  ptZ 134217730 134217729.


(* the right-angle path of the second scenario *)
Definition rightAngle : Path float := [pt 0 0; pt 10 0; pt 10 10].

(* a path that bends back: its last point is (0,0) *)
Definition zigzag : Path float := [pt 10 2; pt 20 0; pt 10 3; pt 0 0].

(* the boxes of the scan for the last point, index 3: the box of the point
   itself, then one [extend] for each of i = 2, 1, 0 *)
Definition zigzagFitter : LineFitter float := LineFitter.new zigzag.
Definition zigzagBox3 : ErrorBox float :=
  ErrorBox.new (LineFitter.fitLine zigzagFitter 3 3) (pt 0 0).
Definition zigzagBox2 : ErrorBox float :=
  ErrorBox.extend zigzagBox3 (LineFitter.fitLine zigzagFitter 2 3) (pt 10 3).
Definition zigzagBox1 : ErrorBox float :=
  ErrorBox.extend zigzagBox2 (LineFitter.fitLine zigzagFitter 1 3) (pt 20 0).
Definition zigzagBox0 : ErrorBox float :=
  ErrorBox.extend zigzagBox1 (LineFitter.fitLine zigzagFitter 0 3) (pt 10 2).

(* a path whose last segment crosses its first one *)
Definition crossing : Path float := [pt 0 0; pt 10 0; pt 10 10; pt 5 (-5)].

(* the simplifier after the four points of [crossing], threshold 100: the
   scan for index 3 has cut index 0 *)
Definition crossingState : PathSimplifier float :=
  Eval vm_compute in
    match build 100 [] crossing with
    | Some s => s
    | None => PathSimplifier.mk [] 0 LineFitter.onClear [] 0 []
    end.

End Inputs.

(** * Facts about the hull *)

Section HullFacts.
Context {num : Type} `{Number num}.
Import SimplePathHull.
Implicit Types (nodes : list (Node num)) (h : SimplePathHull num).

Lemma nextOf_Some nodes a b :
  nextOf nodes a = Some b ↔ ∃ A, nodes !! a = Some A ∧ next A = b.
Proof.
  unfold nextOf. destruct (nodes !! a) as [A|]; simpl; split.
  - intros [= <-]. eauto.
  - intros (A' & [= <-] & <-). done.
  - done.
  - intros (? & ? & _). done.
Qed.

Lemma prevOf_Some nodes a b :
  prevOf nodes a = Some b ↔ ∃ A, nodes !! a = Some A ∧ prev A = b.
Proof.
  unfold prevOf. destruct (nodes !! a) as [A|]; simpl; split.
  - intros [= <-]. eauto.
  - intros (A' & [= <-] & <-). done.
  - done.
  - intros (? & ? & _). done.
Qed.

Lemma nextOf_lt nodes a b : nextOf nodes a = Some b → a < length nodes.
Proof. intros (A & HA & _)%nextOf_Some. by eapply lookup_lt_Some. Qed.

Lemma prevOf_lt nodes a b : prevOf nodes a = Some b → a < length nodes.
Proof. intros (A & HA & _)%prevOf_Some. by eapply lookup_lt_Some. Qed.

Lemma link_lt nodes a b : link nodes a b → a < length nodes ∧ b < length nodes.
Proof. intros [Hn Hp]. eauto using nextOf_lt, prevOf_lt. Qed.

Lemma chain_app nodes a l1 x l2 b :
  chain nodes a (l1 ++ x :: l2) b ↔ chain nodes a l1 x ∧ chain nodes x l2 b.
Proof.
  revert a. induction l1 as [|y l1 IH]; intros a; simpl; [tauto|].
  rewrite IH. tauto.
Qed.

Lemma chain_snoc nodes a l z b :
  chain nodes a (l ++ [z]) b ↔ chain nodes a l z ∧ link nodes z b.
Proof. apply chain_app. Qed.

Lemma chain_lt nodes a l b n :
  chain nodes a l b → n ∈ a :: l ++ [b] → n < length nodes.
Proof.
  revert a. induction l as [|x l IH]; intros a; simpl.
  - intros [??]%link_lt. rewrite elem_of_cons, list_elem_of_singleton.
    intros [->| ->]; done.
  - intros [[??]%link_lt Hc]. rewrite elem_of_cons. intros [->|Hn]; [done|].
    by apply (IH x).
Qed.

(* a chain only reads the [next] of its sources and the [prev] of its targets *)
Lemma chain_ext nodes nodes' a l b :
  (∀ n, n ∈ a :: l → nextOf nodes' n = nextOf nodes n) →
  (∀ n, n ∈ l ++ [b] → prevOf nodes' n = prevOf nodes n) →
  chain nodes a l b → chain nodes' a l b.
Proof.
  revert a. induction l as [|x l IH]; intros a Hn Hp; simpl.
  - intros [??]. split.
    + rewrite Hn; [done|]. apply elem_of_cons; auto.
    + rewrite Hp; [done|]. apply list_elem_of_singleton; auto.
  - intros [[??] Hc]. split; [split|].
    + rewrite Hn; [done|]. apply elem_of_cons; auto.
    + rewrite Hp; [done|]. apply elem_of_cons; auto.
    + apply IH; [| |done].
      * intros n Hin. apply Hn. apply elem_of_cons; auto.
      * intros n Hin. apply Hp. simpl. apply elem_of_cons; auto.
Qed.

(* distinct nodes of an arena are no more than the arena has *)
Lemma NoDup_bounded_length (l : list nat) (n : nat) :
  NoDup l → (∀ x, x ∈ l → x < n) → length l ≤ n.
Proof.
  intros Hnd Hlt.
  trans (length (seq 0 n)); [|by rewrite length_seq].
  apply submseteq_length, NoDup_submseteq; [done|].
  intros x Hx. apply elem_of_seq. specialize (Hlt x Hx). lia.
Qed.

(* a cycle can be read from any of its nodes *)
Lemma cycle_rotate nodes f l x :
  NoDup (f :: l) → chain nodes f l f → x ∈ f :: l →
  ∃ l', NoDup (x :: l') ∧ chain nodes x l' x ∧ f :: l ≡ₚ x :: l'.
Proof.
  intros Hnd Hc [->|Hx]%elem_of_cons; [by exists l|].
  apply list_elem_of_split in Hx as (l1 & l2 & ->).
  apply chain_app in Hc as [Hc1 Hc2].
  assert (f :: l1 ++ x :: l2 ≡ₚ x :: l2 ++ f :: l1) as Hperm.
  { change (f :: l1 ++ x :: l2) with ((f :: l1) ++ x :: l2).
    rewrite <- Permutation_middle. apply perm_skip, Permutation_app_comm. }
  exists (l2 ++ f :: l1). split_and!; [|by apply chain_app|done].
  by rewrite <- Hperm.
Qed.

Lemma nextOf_invalidate nodes i n :
  nextOf (alter invalidate i nodes) n = nextOf nodes n.
Proof.
  unfold nextOf. rewrite list_lookup_alter. case_decide; [subst|done].
  by destruct (nodes !! n).
Qed.

Lemma prevOf_invalidate nodes i n :
  prevOf (alter invalidate i nodes) n = prevOf nodes n.
Proof.
  unfold prevOf. rewrite list_lookup_alter. case_decide; [subst|done].
  by destruct (nodes !! n).
Qed.


Lemma length_invalidate nodes i : length (alter invalidate i nodes) = length nodes.
Proof. apply length_alter. Qed.

Lemma lookup_snoc_decide {A : Type} (l : list A) (x : A) (n : nat) :
  (l ++ [x]) !! n = if decide (n = length l) then Some x else l !! n.
Proof.
  case_decide as Hn.
  - subst n. by apply list_lookup_middle.
  - destruct (decide (n < length l)) as [Hlt|Hge].
    + by apply lookup_app_l.
    + rewrite !lookup_ge_None_2; [done|lia|]. rewrite length_app. simpl. lia.
Qed.

Lemma nextOf_snoc nodes N n :
  nextOf (nodes ++ [N]) n =
  if decide (n = length nodes) then Some (next N) else nextOf nodes n.
Proof. unfold nextOf. rewrite lookup_snoc_decide. by case_decide. Qed.

Lemma prevOf_snoc nodes N n :
  prevOf (nodes ++ [N]) n =
  if decide (n = length nodes) then Some (prev N) else prevOf nodes n.
Proof. unfold prevOf. rewrite lookup_snoc_decide. by case_decide. Qed.

Lemma nextOf_set_next nodes k i n :
  i < length nodes →
  nextOf (alter (set_next k) i nodes) n =
  if decide (n = i) then Some k else nextOf nodes n.
Proof.
  intros [N HN]%lookup_lt_is_Some_2. unfold nextOf.
  rewrite list_lookup_alter. repeat case_decide; subst; try done.
  by rewrite HN.
Qed.

Lemma nextOf_set_prev nodes k i n :
  nextOf (alter (set_prev k) i nodes) n = nextOf nodes n.
Proof.
  unfold nextOf. rewrite list_lookup_alter. case_decide; [subst|done].
  by destruct (nodes !! n).
Qed.

Lemma prevOf_set_prev nodes k i n :
  i < length nodes →
  prevOf (alter (set_prev k) i nodes) n =
  if decide (n = i) then Some k else prevOf nodes n.
Proof.
  intros [N HN]%lookup_lt_is_Some_2. unfold prevOf.
  rewrite list_lookup_alter. repeat case_decide; subst; try done.
  by rewrite HN.
Qed.

Lemma prevOf_set_next nodes k i n :
  prevOf (alter (set_next k) i nodes) n = prevOf nodes n.
Proof.
  unfold prevOf. rewrite list_lookup_alter. case_decide; [subst|done].
  by destruct (nodes !! n).
Qed.

(* what [makeNode] leaves in the arena, for neighbours that are nodes of the
   arena or the new node itself *)
Lemma makeNode_spec nodes p prv nxt nodes' k :
  makeNode nodes p prv nxt = (nodes', k) →
  default (length nodes) prv ≤ length nodes →
  default (length nodes) nxt ≤ length nodes →
  k = length nodes ∧ length nodes' = S (length nodes) ∧
  (∀ n, nextOf nodes' n =
        if decide (n = default k prv) then Some k
        else if decide (n = k) then Some (default k nxt) else nextOf nodes n) ∧
  (∀ n, prevOf nodes' n =
        if decide (n = default k nxt) then Some k
        else if decide (n = k) then Some (default k prv) else prevOf nodes n).
Proof.
  unfold makeNode. intros [= <- <-] Ha Hb.
  set (k := length nodes) in *. set (a := default k prv) in *.
  set (b := default k nxt) in *. simpl.
  split_and!; [done|..].
  - rewrite !length_alter, length_app. simpl. fold k. lia.
  - intros n. rewrite nextOf_set_next, nextOf_set_prev, nextOf_snoc; [done|].
    rewrite length_alter, length_app. simpl. fold k. lia.
  - intros n. rewrite prevOf_set_next, prevOf_set_prev, prevOf_snoc; [done|].
    rewrite length_app. simpl. fold k. lia.
Qed.

(** The three loops of [offer] end within the fuel they are given. *)

Lemma seekPrev_chain nodes first p l b fuel :
  chain nodes first l b → length l < fuel →
  ∃ n0, seekPrev fuel nodes first b p = Some n0 ∧ n0 ∈ l ++ [b].
Proof.
  revert b fuel. induction l as [|z l IH] using rev_ind; intros b fuel Hc Hf.
  - destruct fuel as [|fuel]; [lia|]. destruct Hc as [_ Hp].
    apply prevOf_Some in Hp as (B & HB & Hprev). simpl. rewrite HB. simpl.
    rewrite decide_True by done. eexists. split; [done|].
    by apply list_elem_of_singleton.
  - apply chain_snoc in Hc as [Hc [Hn Hp]].
    rewrite length_app in Hf. simpl in Hf.
    destruct fuel as [|fuel]; [lia|].
    apply prevOf_Some in Hp as (B & HB & Hprev).
    apply nextOf_Some in Hn as (Z & HZ & _).
    simpl. rewrite HB. simpl. rewrite Hprev.
    case_decide.
    { eexists. split; [done|]. set_solver. }
    rewrite HZ. simpl.
    destruct (nle _ _).
    + destruct (IH z fuel Hc) as (n0 & -> & Hin); [lia|].
      eexists. split; [done|]. set_solver.
    + eexists. split; [done|]. set_solver.
Qed.

Lemma seekNext_chain nodes first p l a fuel :
  chain nodes a l first → length l < fuel →
  ∃ n1, seekNext fuel nodes first a p = Some n1 ∧ n1 ∈ a :: l.
Proof.
  revert a fuel. induction l as [|x l IH]; intros a fuel Hc Hf.
  - destruct fuel as [|fuel]; [lia|]. destruct Hc as [Hn _].
    apply nextOf_Some in Hn as (A & HA & Hnext). simpl. rewrite HA. simpl.
    rewrite decide_True by done. eexists. split; [done|].
    by apply list_elem_of_singleton.
  - destruct Hc as [[Hn Hp] Hc]. simpl in Hf.
    destruct fuel as [|fuel]; [lia|].
    apply nextOf_Some in Hn as (A & HA & Hnext).
    apply prevOf_Some in Hp as (X & HX & _).
    simpl. rewrite HA. simpl. rewrite Hnext.
    case_decide.
    { eexists. split; [done|]. apply elem_of_cons. auto. }
    rewrite HX. simpl.
    destruct (nle _ _).
    + destruct (IH x fuel Hc) as (n1 & -> & Hin); [lia|].
      eexists. split; [done|]. apply elem_of_cons. auto.
    + eexists. split; [done|]. apply elem_of_cons. auto.
Qed.

Lemma evict_chain mid nodes a b size fuel :
  chain nodes a mid b → b ∉ mid → length mid < fuel →
  ∃ nodes',
    evict fuel nodes size (hd b mid) b
    = Some (nodes', (size - Z.of_nat (length mid))%Z) ∧
    length nodes' = length nodes ∧
    (∀ n, nextOf nodes' n = nextOf nodes n) ∧
    (∀ n, prevOf nodes' n = prevOf nodes n).
Proof.
  revert nodes a size fuel.
  induction mid as [|x mid IH]; intros nodes a size fuel Hc Hb Hf.
  - destruct fuel as [|fuel]; [lia|]. simpl. rewrite decide_True by done.
    exists nodes. by rewrite Z.sub_0_r.
  - simpl in Hf. destruct fuel as [|fuel]; [lia|].
    destruct Hc as [[_ Hp] Hc].
    apply not_elem_of_cons in Hb as [Hbx Hb].
    apply prevOf_Some in Hp as (X & HX & _).
    simpl. rewrite decide_False by done. rewrite HX. simpl.
    assert (next X = hd b mid) as ->.
    { destruct mid as [|y mid]; simpl in *.
      - destruct Hc as [(X' & HX' & <-)%nextOf_Some _]. congruence.
      - destruct Hc as [[(X' & HX' & <-)%nextOf_Some _] _]. congruence. }
    destruct (IH (alter invalidate x nodes) x (size - 1)%Z fuel)
      as (nodes' & -> & Hlen & Hn' & Hp'); [|done|lia|].
    { eapply chain_ext; [| |done]; intros;
        [apply nextOf_invalidate|apply prevOf_invalidate]. }
    exists nodes'. split_and!.
    + do 2 f_equal. lia.
    + by rewrite Hlen, length_invalidate.
    + intros n. by rewrite Hn', nextOf_invalidate.
    + intros n. by rewrite Hp', prevOf_invalidate.
Qed.

(** [makeNode] keeps the links inside the arena, and splices the new node
    into a cycle. *)

Lemma makeNode_closed nodes p prv nxt nodes' k :
  makeNode nodes p prv nxt = (nodes', k) →
  default (length nodes) prv ≤ length nodes →
  default (length nodes) nxt ≤ length nodes →
  closed nodes → closed nodes'.
Proof.
  intros Hm Ha Hb Hcl.
  destruct (makeNode_spec _ _ _ _ _ _ Hm Ha Hb) as (-> & Hlen & Hn & Hp).
  intros n x. rewrite Hn, Hp, Hlen.
  specialize (Hcl n x).
  intros [Hx|Hx]; repeat case_decide; simplify_eq; try lia;
    (assert (x < length nodes) by auto; lia).
Qed.

(* between a node and itself: the new node and that node make a 2-cycle *)
Lemma makeNode_pair nodes p a nodes' k :
  makeNode nodes p (Some a) (Some a) = (nodes', k) →
  a < length nodes →
  NoDup [k; a] ∧ chain nodes' k [a] k.
Proof.
  intros Hm Ha.
  destruct (makeNode_spec _ _ _ _ _ _ Hm) as (-> & Hlen & Hn & Hp);
    simpl; [lia..|].
  simpl in *. split.
  - apply NoDup_cons. split; [set_solver by lia|apply NoDup_singleton].
  - unfold link. rewrite !Hn, !Hp.
    rewrite !(decide_True (P := a = a)) by done.
    rewrite !(decide_False (P := length nodes = a)) by lia.
    by rewrite !(decide_True (P := length nodes = length nodes)) by done.
Qed.

(* between the end [a] and the start [b] of a path: the new node closes the
   path into a cycle *)
Lemma makeNode_splice nodes p a b rest nodes' k :
  makeNode nodes p (Some a) (Some b) = (nodes', k) →
  NoDup (b :: rest ++ [a]) → chain nodes b rest a →
  NoDup (k :: b :: rest ++ [a]) ∧ chain nodes' k (b :: rest ++ [a]) k.
Proof.
  intros Hm Hnd Hc.
  assert (∀ n, n ∈ b :: rest ++ [a] → n < length nodes) as Hlt.
  { intros n. by apply chain_lt. }
  assert (a ≠ b) as Hab.
  { apply NoDup_cons in Hnd as [Hb _]. set_solver. }
  destruct (makeNode_spec _ _ _ _ _ _ Hm) as (-> & Hlen & Hn & Hp); simpl.
  { assert (a < length nodes) by (apply Hlt; set_solver). lia. }
  { assert (b < length nodes) by (apply Hlt; set_solver). lia. }
  simpl in *. split.
  - apply NoDup_cons. split; [|done].
    intros Hk%Hlt. lia.
  - assert (a < length nodes) as Ha by (apply Hlt; set_solver).
    assert (b < length nodes) as Hb by (apply Hlt; set_solver).
    split; [|apply chain_snoc; split].
    + unfold link. rewrite Hn, Hp.
      rewrite (decide_False (P := length nodes = a)) by lia.
      rewrite (decide_True (P := length nodes = length nodes)) by done.
      by rewrite (decide_True (P := b = b)) by done.
    + eapply chain_ext; [| |done].
      * intros n Hin. rewrite Hn.
        assert (n < length nodes) by (apply Hlt; set_solver).
        rewrite decide_False; [by rewrite decide_False by lia|].
        intros ->. change (b :: rest ++ [a]) with ((b :: rest) ++ [a]) in Hnd.
        apply NoDup_app in Hnd as (_ & Hdis & _).
        apply (Hdis a); [done|set_solver].
      * intros n Hin. rewrite Hp.
        assert (n < length nodes) by (apply Hlt; set_solver).
        rewrite decide_False; [by rewrite decide_False by lia|].
        intros ->. apply NoDup_cons in Hnd as [Hnb _]. done.
    + unfold link. rewrite Hn, Hp.
      rewrite (decide_True (P := a = a)) by done.
      rewrite (decide_False (P := length nodes = b)) by lia.
      by rewrite (decide_True (P := length nodes = length nodes)) by done.
Qed.

Lemma makeNode_single nodes p nodes' k :
  makeNode nodes p None None = (nodes', k) →
  NoDup [k] ∧ chain nodes' k [] k.
Proof.
  intros Hm.
  destruct (makeNode_spec _ _ _ _ _ _ Hm) as (-> & Hlen & Hn & Hp);
    simpl; [lia..|].
  split; [apply NoDup_singleton|]. simpl. unfold link. rewrite Hn, Hp. simpl.
  by rewrite !decide_True by done.
Qed.

Lemma makeNode_length nodes p prv nxt nodes' k :
  makeNode nodes p prv nxt = (nodes', k) → length nodes' = S (length nodes).
Proof.
  unfold makeNode. intros [= <- <-].
  rewrite !length_alter, length_app. simpl. lia.
Qed.

Lemma closed_ext nodes nodes' :
  length nodes' = length nodes →
  (∀ n, nextOf nodes' n = nextOf nodes n) →
  (∀ n, prevOf nodes' n = prevOf nodes n) →
  closed nodes → closed nodes'.
Proof. intros Hlen Hn Hp Hcl n x. rewrite Hn, Hp, Hlen. apply Hcl. Qed.

Lemma snoc_case {A : Type} (l : list A) : l = [] ∨ ∃ l' z, l = l' ++ [z].
Proof. induction l using rev_ind; eauto. Qed.

Lemma NoDup_rotate_split (n0 n1 : nat) (mid rest : list nat) :
  NoDup (n0 :: mid ++ n1 :: rest) →
  (n1 ∉ mid) ∧ NoDup (n1 :: rest ++ [n0]).
Proof.
  intros Hnd.
  assert (n0 :: mid ++ n1 :: rest ≡ₚ mid ++ (n1 :: rest ++ [n0])) as Hperm.
  { rewrite Permutation_middle. apply Permutation_app_head.
    change (n1 :: rest ++ [n0]) with ((n1 :: rest) ++ [n0]).
    rewrite (Permutation_app_comm (n1 :: rest) [n0]). done. }
  rewrite Hperm in Hnd. apply NoDup_app in Hnd as (_ & Hdis & Hnd).
  split; [|done]. intros Hin. apply (Hdis n1 Hin). set_solver.
Qed.

(** [offer] returns, on every well-formed hull, and leaves a well-formed hull
    with a first node and with all the nodes the arena had. *)

Lemma makeNode_closes nodes p a b keep nodes' k :
  closes nodes a b keep →
  makeNode nodes p (Some a) (Some b) = (nodes', k) →
  a < length nodes ∧ b < length nodes ∧
  NoDup (k :: keep) ∧ chain nodes' k keep k.
Proof.
  intros [(<- & -> & Ha)|(rest & -> & Hnd & Hc)] Hm.
  - destruct (makeNode_pair _ _ _ _ _ Hm Ha). done.
  - destruct (makeNode_splice _ _ _ _ _ _ _ Hm Hnd Hc).
    split_and!; [| |done..]; eapply chain_lt; [done| |done|]; set_solver.
Qed.

Lemma closes_wf nodes p a b keep nodes' k sz :
  closed nodes → closes nodes a b keep →
  makeNode nodes p (Some a) (Some b) = (nodes', k) →
  wf (mk nodes' (Some k) sz).
Proof.
  intros Hcl Hk Hm.
  destruct (makeNode_closes _ _ _ _ _ _ _ Hk Hm) as (Ha & Hb & Hnd & Hc).
  split; simpl; [|eauto].
  apply (makeNode_closed _ _ _ _ _ _ Hm); simpl; [lia..|done].
Qed.

(* the cycle seen from its first node [f] *)
Lemma cycle_after nodes f l F :
  NoDup (f :: l) → chain nodes f l f → nodes !! f = Some F →
  ∃ keep, closes nodes f (next F) keep.
Proof.
  intros Hnd Hc HF. destruct l as [|x l]; simpl in Hc.
  - destruct Hc as [(F' & HF' & Hn)%nextOf_Some _].
    exists [f]. left. split_and!; [congruence|done|by eapply lookup_lt_Some].
  - destruct Hc as [[(F' & HF' & Hn)%nextOf_Some _] Hc].
    assert (next F = x) as -> by congruence.
    exists (x :: l ++ [f]). right. exists l. split_and!; [done| |done].
    eapply NoDup_Permutation_proper; [|done].
    change (x :: l ++ [f]) with ((x :: l) ++ [f]).
    by rewrite (Permutation_app_comm (x :: l) [f]).
Qed.

Lemma cycle_before nodes f l F :
  NoDup (f :: l) → chain nodes f l f → nodes !! f = Some F →
  ∃ keep, closes nodes (prev F) f keep.
Proof.
  intros Hnd Hc HF. destruct (snoc_case l) as [->|(l' & z & ->)].
  - destruct Hc as [_ (F' & HF' & Hp)%prevOf_Some].
    exists [prev F]. left. split_and!; [congruence|done|].
    assert (prev F = f) as -> by congruence. by eapply lookup_lt_Some.
  - apply chain_snoc in Hc as [Hc [_ (F' & HF' & Hp)%prevOf_Some]].
    assert (prev F = z) as -> by congruence.
    exists (f :: l' ++ [z]). right. by exists l'.
Qed.

Lemma cycle_around nodes f l F :
  NoDup (f :: l) → chain nodes f l f → nodes !! f = Some F →
  ∃ keep, closes (alter invalidate f nodes) (prev F) (next F) keep.
Proof.
  intros Hnd Hc HF.
  assert (∀ a m b, chain nodes a m b → chain (alter invalidate f nodes) a m b)
    as Hinv.
  { intros a m b. apply chain_ext; intros;
      [apply nextOf_invalidate|apply prevOf_invalidate]. }
  destruct l as [|x l]; simpl in Hc.
  - destruct Hc as [(F' & HF' & Hn)%nextOf_Some (F'' & HF'' & Hp)%prevOf_Some].
    exists [prev F]. left. rewrite length_invalidate.
    split_and!; [congruence|done|].
    assert (prev F = f) as -> by congruence. by eapply lookup_lt_Some.
  - destruct Hc as [[(F' & HF' & Hn)%nextOf_Some Hpx] Hc].
    assert (next F = x) as -> by congruence.
    apply NoDup_cons in Hnd as [_ Hnd].
    destruct (snoc_case l) as [->|(mid & z & ->)].
    + destruct Hc as [_ (F'' & HF'' & Hp)%prevOf_Some].
      assert (prev F = x) as -> by congruence.
      exists [x]. left. rewrite length_invalidate. split_and!; [done..|].
      by eapply prevOf_lt.
    + apply chain_snoc in Hc as [Hc [_ (F'' & HF'' & Hp)%prevOf_Some]].
      assert (prev F = z) as -> by congruence.
      exists (x :: mid ++ [z]). right. exists mid. split_and!; [done..|].
      by apply Hinv.
Qed.

Opaque makeNode.

Lemma place_wf h p :
  wf h →
  ∃ h', place h p = Some h' ∧ wf h' ∧ is_Some (first h') ∧
        length (nodes h) ≤ length (nodes h').
Proof.
  intros [Hcl Hw]. unfold place.
  destruct (3 <=? size h)%Z eqn:H3.
  { (* three nodes or more: the tangents are sought from [first] *)
    destruct (first h) as [f|] eqn:Hf; [|lia].
    destruct Hw as (l & Hnd & Hc).
    remember (S (length (nodes h))) as fuel eqn:Hfuel. simpl.
    assert (∀ x, x ∈ f :: l → x < length (nodes h)) as Hlt.
    { intros x Hx. eapply chain_lt; [done|]. set_solver. }
    assert (length (f :: l) ≤ length (nodes h)) as Hlen
      by by apply NoDup_bounded_length.
    simpl in Hlen.
    destruct (seekPrev_chain (nodes h) f (val p) l f fuel Hc)
      as (n0 & -> & Hn0); [lia|].
    destruct (seekNext_chain (nodes h) f (val p) l f fuel Hc)
      as (n1 & -> & Hn1); [lia|].
    simpl. case_decide as Hne.
    { exists h. rewrite Hf. split_and!; eauto.
      split; [done|]. rewrite Hf. eauto. }
    destruct (cycle_rotate (nodes h) f l n0 Hnd Hc) as (l' & Hnd' & Hc' & Hperm);
      [set_solver|].
    assert (n1 ∈ l') as Hin.
    { rewrite Hperm in Hn1. set_solver. }
    apply list_elem_of_split in Hin as (mid & rest & ->).
    apply chain_app in Hc' as [Hmid Hrest].
    destruct (NoDup_rotate_split _ _ _ _ Hnd') as [Hn1mid Hnd2].
    assert (length (n0 :: mid ++ n1 :: rest) = length (f :: l)) as Hlen'
      by by rewrite Hperm.
    simpl in Hlen'. rewrite length_app in Hlen'. simpl in Hlen'.
    assert (∃ N0, nodes h !! n0 = Some N0 ∧ next N0 = hd n1 mid)
      as (N0 & -> & HN0).
    { destruct mid as [|y mid]; simpl in *.
      - by destruct Hmid as [?%nextOf_Some _].
      - by destruct Hmid as [[?%nextOf_Some _] _]. }
    simpl. rewrite HN0.
    destruct (evict_chain mid (nodes h) n0 n1 (size h) fuel Hmid)
      as (nodes1 & -> & Hlen1 & Hnx1 & Hpv1); [done|lia|].
    simpl.
    destruct (makeNode nodes1 p (Some n0) (Some n1)) as [nodes2 k] eqn:Hm.
    assert (chain nodes1 n1 rest n0) as Hrest1.
    { eapply chain_ext; [| |done]; intros; [apply Hnx1|apply Hpv1]. }
    destruct (makeNode_splice _ _ _ _ _ _ _ Hm Hnd2 Hrest1) as [Hnd3 Hc3].
    assert (∀ x, x ∈ n1 :: rest ++ [n0] → x < length nodes1) as Hlt1.
    { intros x. by apply chain_lt. }
    eexists. split; [done|]. split_and!; simpl.
    - split; simpl; [|eauto].
      apply (makeNode_closed _ _ _ _ _ _ Hm); simpl.
      + assert (n0 < length nodes1) by (apply Hlt1; set_solver). lia.
      + assert (n1 < length nodes1) by (apply Hlt1; set_solver). lia.
      + by eapply closed_ext.
    - eauto.
    - apply makeNode_length in Hm. lia. }
  destruct (size h =? 0)%Z eqn:H0.
  { (* no node *)
    destruct (makeNode (nodes h) p None None) as [nodes1 k] eqn:Hm.
    destruct (makeNode_single _ _ _ _ Hm) as [Hnd1 Hc1].
    eexists. split; [done|]. split_and!; simpl.
    - split; simpl; [|eauto].
      apply (makeNode_closed _ _ _ _ _ _ Hm); simpl; [lia..|done].
    - eauto.
    - apply makeNode_length in Hm. lia. }
  destruct (first h) as [f|] eqn:Hf; [|lia].
  destruct Hw as (l & Hnd & Hc).
  assert (∀ x, x ∈ f :: l → x < length (nodes h)) as Hlt.
  { intros x Hx. eapply chain_lt; [done|]. set_solver. }
  assert (f < length (nodes h)) as Hflt by (apply Hlt; set_solver).
  destruct (size h =? 1)%Z eqn:H1.
  { (* one node *)
    destruct (makeNode (nodes h) p (Some f) (Some f)) as [nodes1 k] eqn:Hm.
    destruct (makeNode_pair _ _ _ _ _ Hm Hflt) as [Hnd1 Hc1].
    eexists. split; [done|]. split_and!; simpl.
    - split; simpl; [|eauto].
      apply (makeNode_closed _ _ _ _ _ _ Hm); simpl; [lia..|done].
    - eauto.
    - apply makeNode_length in Hm. lia. }
  (* two nodes *)
  assert (∃ F, nodes h !! f = Some F) as [F HF] by by apply lookup_lt_is_Some_2.
  assert (nextOf (nodes h) f = Some (next F)) as HnF
    by (unfold nextOf; by rewrite HF).
  assert (prevOf (nodes h) f = Some (prev F)) as HpF
    by (unfold prevOf; by rewrite HF).
  assert (next F < length (nodes h)) as HnFlt by (eapply Hcl; eauto).
  assert (prev F < length (nodes h)) as HpFlt by (eapply Hcl; eauto).
  destruct (lookup_lt_is_Some_2 _ _ HnFlt) as [Q HQ].
  simpl. rewrite HF. simpl. rewrite HQ. simpl.
  set (nodes1 := alter invalidate f (nodes h)).
  assert (closed nodes1) as Hcl1.
  { eapply closed_ext; [apply length_invalidate| | |done]; intros;
      [apply nextOf_invalidate|apply prevOf_invalidate]. }
  assert (length nodes1 = length (nodes h)) as Hlen1 by apply length_invalidate.
  destruct (nlt _ _).
  { destruct (cycle_after _ _ _ _ Hnd Hc HF) as [keep Hk].
    destruct (makeNode (nodes h) p (Some f) (Some (next F)))
      as [nodes2 k] eqn:Hm.
    eexists. split; [done|]. split_and!; simpl.
    - by apply (closes_wf _ _ _ _ _ _ _ _ Hcl Hk Hm).
    - eauto.
    - apply makeNode_length in Hm. lia. }
  destruct (nlt _ _).
  { destruct (cycle_before _ _ _ _ Hnd Hc HF) as [keep Hk].
    destruct (makeNode (nodes h) p (Some (prev F)) (Some f))
      as [nodes2 k] eqn:Hm.
    eexists. split; [done|]. split_and!; simpl.
    - by apply (closes_wf _ _ _ _ _ _ _ _ Hcl Hk Hm).
    - eauto.
    - apply makeNode_length in Hm. lia. }
  destruct (cycle_around _ _ _ _ Hnd Hc HF) as [keep Hk]. fold nodes1 in Hk.
  destruct (makeNode nodes1 p (Some (prev F)) (Some (next F)))
    as [nodes2 k] eqn:Hm.
  eexists. split; [done|]. split_and!; simpl.
  - by apply (closes_wf _ _ _ _ _ _ _ _ Hcl1 Hk Hm).
  - eauto.
  - apply makeNode_length in Hm. lia.
Qed.

Transparent makeNode.

Lemma wf_empty : wf (SimplePathHull.empty (num := num)).
Proof. split; simpl; [|done]. intros n x. unfold nextOf, prevOf. by intros [|]. Qed.

Theorem offer_total h p :
  wf h →
  ∃ h' r, offer h p = Some (h', r) ∧ wf h' ∧
          length (nodes h) ≤ length (nodes h') ∧
          (∀ n, r = Some n → first h' = Some n).
Proof.
  intros Hwf. unfold offer.
  destruct (place_wf h p Hwf) as (h1 & -> & Hwf1 & [f Hf] & Hlen). simpl.
  rewrite Hf.
  destruct Hwf1 as [Hcl1 Hw1]. rewrite Hf in Hw1. destruct Hw1 as (l & Hnd & Hc).
  assert (f < length (nodes h1)) as [F HF]%lookup_lt_is_Some_2.
  { eapply chain_lt; [done|]. set_solver. }
  rewrite HF. simpl. case_decide.
  - eexists _, _. split; [done|]. split_and!; simpl; [|done|done].
    split; simpl; [done|]. eauto.
  - eexists _, _. split; [done|]. split_and!; [|done..].
    split; [done|]. rewrite Hf. eauto.
Qed.

(** Offers to a fresh hull always return, whatever the points, and leave the
    doubly linked cycle well formed. *)
Lemma offers_wf ps : ∀ h k,
  wf h → ∃ h', offers h k ps = Some h' ∧ wf h'.
Proof.
  induction ps as [|p ps IH]; intros h k Hwf; simpl; [eauto|].
  destruct (offer_total h (mkRef k p) Hwf) as (h1 & r & -> & Hwf1 & _).
  simpl. by apply IH.
Qed.

(** X1: Any sequence of offers to a fresh hull returns: the loops of [offer]
    end and read no node that is missing, and the nodes reachable from
    [first] stay a doubly linked cycle of distinct nodes, with links inside
    the arena and [prev] inverse to [next]. *)
Theorem offers_return (ps : list (PVector num)) (k : nat) :
  ∃ h, offers SimplePathHull.empty k ps = Some h ∧ wf h.
Proof. apply offers_wf, wf_empty. Qed.

End HullFacts.

(** * Offers: what they return *)

Section OfferFacts.
Context {num : Type} `{Number num}.
Import SimplePathHull.
Implicit Types (nodes : list (Node num)) (h : SimplePathHull num).


Lemma lookup_alter_keeps {A : Type} (f : A → A) (P : A → Prop) (i j : nat)
  (l : list A) (x : A) :
  l !! j = Some x → P x → (∀ y, P y → P (f y)) →
  ∃ y, alter f i l !! j = Some y ∧ P y.
Proof.
  intros Hx HP Hf. rewrite list_lookup_alter.
  case_decide; subst; rewrite Hx; simpl; eauto.
Qed.

(* the node that [makeNode] creates: it has the next free index, the
   position it was made for, and it is valid *)
Lemma makeNode_node nodes p prv nxt nodes' k :
  makeNode nodes p prv nxt = (nodes', k) →
  k = length nodes ∧
  ∃ N, nodes' !! k = Some N ∧ pos N = p ∧ isValid N = true.
Proof.
  unfold makeNode. intros [= <- <-]. split; [done|].
  set (k := length nodes). set (a := default k prv). set (b := default k nxt).
  simpl.
  assert ((nodes ++ [mkNode p a b true]) !! k = Some (mkNode p a b true)) as H0
    by (by apply list_lookup_middle).
  destruct (lookup_alter_keeps (set_prev k)
              (λ N, pos N = p ∧ isValid N = true) b k _ _ H0)
    as (N1 & H1 & HP1); [done|by intros [] []|].
  destruct (lookup_alter_keeps (set_next k)
              (λ N, pos N = p ∧ isValid N = true) a k _ _ H1 HP1)
    as (N2 & H2 & HP2); [by intros [] []|].
  exists N2. by destruct HP2.
Qed.

Opaque makeNode.


Transparent makeNode.


(* the first three offers, for every arithmetic: the test of [side] on the
   third point decides between the two triangles and the 2-gon *)
Lemma offers_three (a b c : PVector num) :
  ∃ h, offers SimplePathHull.empty 0 [a; b; c] = Some h ∧
       polygon h = if nlt (Geometry.side b a c) (nofZ 0) then [c; a; b]
                   else if nlt (nofZ 0) (Geometry.side b a c) then [c; b; a]
                   else [c; a].
Proof.
  unfold offers, offer, place. simpl.
  destruct (nlt (Geometry.side b a c) _); [by eexists|].
  destruct (nlt _ (Geometry.side b a c)); by eexists.
Qed.

End OfferFacts.

(** * The hull: what [size] and [isValid] say *)

Section CountFacts.
Context {num : Type} `{Number num}.
Import SimplePathHull.
Implicit Types (nodes : list (Node num)) (h : SimplePathHull num).

Lemma validAt_alter nodes (g : Node num → Node num) i n :
  (∀ N, isValid (g N) = isValid N) →
  validAt (alter g i nodes) n = validAt nodes n.
Proof.
  intros Hg. unfold validAt. rewrite list_lookup_alter.
  case_decide; [subst|done]. destruct (nodes !! n); simpl; [by rewrite Hg|done].
Qed.

Lemma refAt_alter nodes (g : Node num → Node num) i n :
  (∀ N, pos (g N) = pos N) →
  refAt (alter g i nodes) n = refAt nodes n.
Proof.
  intros Hg. unfold refAt. rewrite list_lookup_alter.
  case_decide; [subst|done]. destruct (nodes !! n); simpl; [by rewrite Hg|done].
Qed.

Lemma validAt_invalidate nodes i n :
  validAt (alter invalidate i nodes) n
  = if decide (n = i) then (λ _, false) <$> validAt nodes n
    else validAt nodes n.
Proof.
  unfold validAt. rewrite list_lookup_alter.
  repeat case_decide; subst; try done. by destruct (nodes !! n).
Qed.

Lemma validAt_ge nodes n : length nodes ≤ n → validAt nodes n = None.
Proof. intros Hn. unfold validAt. by rewrite lookup_ge_None_2. Qed.

(* [makeNode] marks the new node, and no other *)
Lemma makeNode_marks nodes p prv nxt nodes' k :
  makeNode nodes p prv nxt = (nodes', k) →
  ∀ n,
    validAt nodes' n
    = (if decide (n = length nodes) then Some true else validAt nodes n) ∧
    refAt nodes' n
    = (if decide (n = length nodes) then Some (ref p) else refAt nodes n).
Proof.
  unfold makeNode. intros [= <- <-] n. split.
  - rewrite !validAt_alter by by intros []. unfold validAt.
    rewrite lookup_snoc_decide. by case_decide.
  - rewrite !refAt_alter by by intros []. unfold refAt.
    rewrite lookup_snoc_decide. by case_decide.
Qed.

(* the third loop of [offer] unmarks the nodes it passes, and no other *)
Lemma evict_marks mid nodes a b size fuel :
  chain nodes a mid b → b ∉ mid → length mid < fuel →
  ∃ nodes',
    evict fuel nodes size (hd b mid) b
    = Some (nodes', (size - Z.of_nat (length mid))%Z) ∧
    length nodes' = length nodes ∧
    (∀ n, nextOf nodes' n = nextOf nodes n) ∧
    (∀ n, prevOf nodes' n = prevOf nodes n) ∧
    (∀ n, refAt nodes' n = refAt nodes n) ∧
    (∀ n, validAt nodes' n
          = if decide (n ∈ mid) then (λ _, false) <$> validAt nodes n
            else validAt nodes n).
Proof.
  revert nodes a size fuel.
  induction mid as [|x mid IH]; intros nodes a size fuel Hc Hb Hf.
  - destruct fuel as [|fuel]; [lia|]. simpl. rewrite decide_True by done.
    exists nodes. rewrite Z.sub_0_r. by split_and!.
  - simpl in Hf. destruct fuel as [|fuel]; [lia|].
    destruct Hc as [[_ Hp] Hc].
    apply not_elem_of_cons in Hb as [Hbx Hb].
    apply prevOf_Some in Hp as (X & HX & _).
    simpl. rewrite decide_False by done. rewrite HX. simpl.
    assert (next X = hd b mid) as ->.
    { destruct mid as [|y mid]; simpl in *.
      - destruct Hc as [(X' & HX' & <-)%nextOf_Some _]. congruence.
      - destruct Hc as [[(X' & HX' & <-)%nextOf_Some _] _]. congruence. }
    destruct (IH (alter invalidate x nodes) x (size - 1)%Z fuel)
      as (nodes' & -> & Hlen & Hn' & Hp' & Hr' & Hv'); [|done|lia|].
    { eapply chain_ext; [| |done]; intros;
        [apply nextOf_invalidate|apply prevOf_invalidate]. }
    exists nodes'. split_and!.
    + do 2 f_equal. lia.
    + by rewrite Hlen, length_invalidate.
    + intros n. by rewrite Hn', nextOf_invalidate.
    + intros n. by rewrite Hp', prevOf_invalidate.
    + intros n. rewrite Hr'. by apply refAt_alter.
    + intros n. rewrite Hv', validAt_invalidate.
      destruct (validAt nodes n) as [v|]; simpl;
        repeat case_decide; try done; set_solver.
Qed.

(* a node made for the point object [k] between the ends of what stays of
   the cycle: the hull counts it, once [offer] has added 1 to [size] *)
Lemma accept_counted nodes1 nodes2 (p : PVector num) (k : nat) prv nxt k1 keep :
  makeNode nodes1 (mkRef k p) prv nxt = (nodes2, k1) →
  closed nodes2 → NoDup (k1 :: keep) → chain nodes2 k1 keep k1 →
  (∀ n r, refAt nodes1 n = Some r → r < k) →
  (∀ n, validAt nodes1 n = Some true ↔ n ∈ keep) →
  ∃ F, nodes2 !! k1 = Some F ∧ ref (pos F) = k ∧
       counted (mk nodes2 (Some k1) (Z.of_nat (length keep) + 1)) (S k).
Proof.
  intros Hm Hcl Hnd Hc Href Hv.
  destruct (makeNode_node _ _ _ _ _ _ Hm) as (-> & F & HF & Hpos & _).
  exists F. split_and!; [done|by rewrite Hpos|].
  split_and!; simpl; [done|..].
  - intros n r. rewrite (proj2 (makeNode_marks _ _ _ _ _ _ Hm n)).
    case_decide; [intros [= <-]; simpl; lia|].
    intros Hr%Href. lia.
  - exists keep. split_and!; [done|done|lia|].
    intros n. rewrite (proj1 (makeNode_marks _ _ _ _ _ _ Hm n)).
    rewrite elem_of_cons, <- Hv. case_decide; [tauto|]. tauto.
Qed.

Opaque makeNode.

(* one more offer, of a point object that the hull has not seen *)
Lemma offer_counted h k (p : PVector num) :
  counted h k →
  ∃ h' r, offer h (mkRef k p) = Some (h', r) ∧ counted h' (S k) ∧
    (size h' ≤ size h + 1)%Z ∧
    ((size h ≤ 1)%Z → size h' = (size h + 1)%Z) ∧
    ((2 ≤ size h)%Z → (2 ≤ size h')%Z).
Proof.
  intros (Hcl & Href & Hw). unfold offer, place.
  destruct (first h) as [f|] eqn:Hf.
  2: { destruct Hw as [Hs Hn]. rewrite Hs, Hn. simpl.
       destruct (makeNode [] (mkRef k p) None None) as [nodes1 k1] eqn:Hm.
       destruct (makeNode_single _ _ _ _ Hm) as [Hnd1 Hc1].
       destruct (accept_counted _ _ _ _ _ _ _ [] Hm) as (F & HF & HrF & Hcnt);
         [|done|done| | |].
       - apply (makeNode_closed _ _ _ _ _ _ Hm); simpl; [lia..|].
         rewrite <- Hn. done.
       - intros n r. rewrite <- Hn. apply Href.
       - intros n. unfold validAt. rewrite lookup_nil. simpl.
         split; [done|]. by intros ?%not_elem_of_nil.
       - simpl. rewrite HF. simpl. rewrite decide_True by done.
         eexists _, _. split; [done|]. simpl in *. split_and!; [done|lia..]. }
  destruct Hw as (l & Hnd & Hc & Hsz & Hv).
  assert (∀ x, x ∈ f :: l → x < length (nodes h)) as Hlt.
  { intros x Hx. eapply chain_lt; [done|]. set_solver. }
  assert (f < length (nodes h)) as Hflt by (apply Hlt; set_solver).
  destruct (Z.leb_spec 3 (size h)) as [H3|H3].
  { (* three nodes or more *)
    remember (S (length (nodes h))) as fuel eqn:Hfuel. simpl.
    assert (length (f :: l) ≤ length (nodes h)) as Hlen
      by by apply NoDup_bounded_length.
    simpl in Hlen.
    destruct (seekPrev_chain (nodes h) f p l f fuel Hc)
      as (n0 & -> & Hn0); [lia|].
    destruct (seekNext_chain (nodes h) f p l f fuel Hc)
      as (n1 & -> & Hn1); [lia|].
    simpl. case_decide as Hne.
    { (* the point is ignored *)
      simpl. rewrite Hf. simpl.
      destruct (lookup_lt_is_Some_2 _ _ Hflt) as [F HF]. rewrite HF. simpl.
      assert (ref (pos F) < k) as HrF.
      { apply (Href f). unfold refAt. by rewrite HF. }
      rewrite decide_False by lia.
      eexists _, _. split; [done|]. split_and!; [|lia..].
      split_and!; [done| |rewrite Hf; eauto].
      intros n r Hr%Href. lia. }
    destruct (cycle_rotate (nodes h) f l n0 Hnd Hc)
      as (l' & Hnd' & Hc' & Hperm); [set_solver|].
    assert (n1 ∈ l') as Hin.
    { rewrite Hperm in Hn1. set_solver. }
    apply list_elem_of_split in Hin as (mid & rest & ->).
    apply chain_app in Hc' as [Hmid Hrest].
    destruct (NoDup_rotate_split _ _ _ _ Hnd') as [Hn1mid Hnd2].
    assert (length (n0 :: mid ++ n1 :: rest) = length (f :: l)) as Hlen'
      by by rewrite Hperm.
    simpl in Hlen'. rewrite length_app in Hlen'. simpl in Hlen'.
    assert (∃ N0, nodes h !! n0 = Some N0 ∧ next N0 = hd n1 mid)
      as (N0 & -> & HN0).
    { destruct mid as [|y mid]; simpl in *.
      - by destruct Hmid as [?%nextOf_Some _].
      - by destruct Hmid as [[?%nextOf_Some _] _]. }
    simpl. rewrite HN0.
    destruct (evict_marks mid (nodes h) n0 n1 (size h) fuel Hmid)
      as (nodes1 & -> & Hlen1 & Hnx1 & Hpv1 & Hr1 & Hv1); [done|lia|].
    simpl.
    destruct (makeNode nodes1 (mkRef k p) (Some n0) (Some n1))
      as [nodes2 k1] eqn:Hm.
    assert (chain nodes1 n1 rest n0) as Hrest1.
    { eapply chain_ext; [| |done]; intros; [apply Hnx1|apply Hpv1]. }
    destruct (makeNode_splice _ _ _ _ _ _ _ Hm Hnd2 Hrest1) as [Hnd3 Hc3].
    assert (∀ x, x ∈ n1 :: rest ++ [n0] → x < length nodes1) as Hlt1.
    { intros x. by apply chain_lt. }
    destruct (accept_counted _ _ _ _ _ _ _ (n1 :: rest ++ [n0]) Hm)
      as (G & HG & HrG & Hcnt); [|done|done|..].
    { apply (makeNode_closed _ _ _ _ _ _ Hm); simpl.
      - assert (n0 < length nodes1) by (apply Hlt1; set_solver). lia.
      - assert (n1 < length nodes1) by (apply Hlt1; set_solver). lia.
      - by eapply closed_ext. }
    { intros n r. rewrite Hr1. apply Href. }
    { intros n. rewrite Hv1. case_decide as Hn.
      - split; [by destruct (validAt (nodes h) n)|].
        intros Hin. exfalso.
        apply NoDup_cons in Hnd' as [Hn0m Hnd'].
        apply NoDup_app in Hnd' as (_ & Hdis & _).
        apply elem_of_cons in Hin as [->|Hin]; [done|].
        apply elem_of_app in Hin as [Hin|Hin].
        + apply (Hdis n Hn). set_solver.
        + apply list_elem_of_singleton in Hin as ->. set_solver.
      - rewrite Hv, Hperm. set_solver. }
    simpl. rewrite HG. simpl. rewrite decide_True by done.
    eexists _, _. split; [done|]. simpl.
    replace (size h - Z.of_nat (length mid))%Z
      with (Z.of_nat (length (n1 :: rest ++ [n0]))).
    2: { simpl. rewrite length_app. simpl. simpl in Hsz. lia. }
    split_and!; [done|..]; simpl; rewrite ?length_app; simpl; simpl in Hsz;
      lia. }
  destruct (Z.eqb_spec (size h) 0) as [H0|H0]; [simpl in Hsz; lia|].
  destruct (Z.eqb_spec (size h) 1) as [H1|H1].
  { (* one node *)
    destruct l as [|x l]; [|simpl in Hsz; lia].
    destruct (makeNode (nodes h) (mkRef k p) (Some f) (Some f))
      as [nodes1 k1] eqn:Hm.
    destruct (makeNode_pair _ _ _ _ _ Hm Hflt) as [Hnd1 Hc1].
    destruct (accept_counted _ _ _ _ _ _ _ [f] Hm) as (F & HF & HrF & Hcnt);
      [|done|done|done|done|].
    { apply (makeNode_closed _ _ _ _ _ _ Hm); simpl; [lia..|done]. }
    simpl. rewrite HF. simpl. rewrite decide_True by done.
    eexists _, _. split; [done|]. simpl in *.
    replace (size h) with 1%Z by lia. split_and!; [done|lia..]. }
  (* two nodes *)
  destruct l as [|x [|y l]]; [simpl in Hsz; lia| |simpl in Hsz; lia].
  pose proof Hc as [Hl1 Hl2]. destruct Hc as [[HnF HpX] [HnX HpF]].
  apply nextOf_Some in HnF as (F & HF & HnF).
  apply prevOf_Some in HpF as (F' & HF' & HpF).
  assert (F' = F) as -> by congruence.
  assert (x < length (nodes h)) as Hxlt by (apply Hlt; set_solver).
  destruct (lookup_lt_is_Some_2 _ _ Hxlt) as [Q HQ].
  simpl. rewrite HF. simpl. rewrite HnF, HpF, HQ. simpl.
  assert (f ≠ x) as Hfx.
  { apply NoDup_cons in Hnd as [Hfx _]. set_solver. }
  destruct (nlt _ _).
  { destruct (makeNode (nodes h) (mkRef k p) (Some f) (Some x))
      as [nodes1 k1] eqn:Hm.
    destruct (makeNode_splice _ _ _ _ [] _ _ Hm) as [Hnd1 Hc1].
    { simpl. apply NoDup_cons. split; [set_solver|apply NoDup_singleton]. }
    { exact Hl2. }
    destruct (accept_counted _ _ _ _ _ _ _ [x; f] Hm)
      as (G & HG & HrG & Hcnt); [|done|done|done|..].
    { apply (makeNode_closed _ _ _ _ _ _ Hm); simpl; [lia..|done]. }
    { intros n. rewrite Hv. set_solver. }
    simpl. rewrite HG. simpl. rewrite decide_True by done.
    eexists _, _. split; [done|]. simpl in *.
    replace (size h) with 2%Z by lia. split_and!; [done|lia..]. }
  destruct (nlt _ _).
  { destruct (makeNode (nodes h) (mkRef k p) (Some x) (Some f))
      as [nodes1 k1] eqn:Hm.
    destruct (makeNode_splice _ _ _ _ [] _ _ Hm) as [Hnd1 Hc1].
    { simpl. apply NoDup_cons. split; [set_solver|apply NoDup_singleton]. }
    { exact Hl1. }
    destruct (accept_counted _ _ _ _ _ _ _ [f; x] Hm)
      as (G & HG & HrG & Hcnt); [|done|done|done|done|].
    { apply (makeNode_closed _ _ _ _ _ _ Hm); simpl; [lia..|done]. }
    simpl. rewrite HG. simpl. rewrite decide_True by done.
    eexists _, _. split; [done|]. simpl in *.
    replace (size h) with 2%Z by lia. split_and!; [done|lia..]. }
  destruct (makeNode (alter invalidate f (nodes h)) (mkRef k p) (Some x)
              (Some x)) as [nodes2 k1] eqn:Hm.
  destruct (makeNode_pair _ _ _ _ _ Hm) as [Hnd1 Hc1].
  { by rewrite length_invalidate. }
  destruct (accept_counted _ _ _ _ _ _ _ [x] Hm)
    as (G & HG & HrG & Hcnt); [|done|done|..].
  { apply (makeNode_closed _ _ _ _ _ _ Hm); simpl;
      [rewrite length_invalidate; lia..|].
    eapply closed_ext; [apply length_invalidate| | |done]; intros;
      [apply nextOf_invalidate|apply prevOf_invalidate]. }
  { intros n r. rewrite refAt_alter by done. apply Href. }
  { intros n. rewrite validAt_invalidate. case_decide as Hn.
    - subst n. destruct (validAt (nodes h) f); simpl; set_solver.
    - rewrite Hv. set_solver. }
  simpl. rewrite HG. simpl. rewrite decide_True by done.
  eexists _, _. split; [done|]. simpl in *.
  replace (size h) with 2%Z by lia. split_and!; [done|lia..].
Qed.

Transparent makeNode.

Lemma counted_empty k : counted (SimplePathHull.empty (num := num)) k.
Proof.
  split_and!; simpl; [|by intros n r|done].
  intros n x. unfold nextOf, prevOf. by intros [|].
Qed.

Lemma offers_counted ps : ∀ h k,
  counted h k →
  ∃ h', offers h k ps = Some h' ∧ counted h' (k + length ps) ∧
        (Z.min (size h + Z.of_nat (length ps)) 2 ≤ size h')%Z ∧
        (size h' ≤ size h + Z.of_nat (length ps))%Z.
Proof.
  induction ps as [|p ps IH]; intros h k Hcnt; simpl.
  - exists h. rewrite Nat.add_0_r. split_and!; [done|done|lia..].
  - destruct (offer_counted h k p Hcnt) as (h1 & r & -> & Hcnt1 & Hle & H1 & H2).
    simpl. destruct (IH h1 (S k) Hcnt1) as (h' & -> & Hcnt' & Hmin & Hmax).
    exists h'. replace (k + S (length ps)) with (S k + length ps) by lia.
    split_and!; [done|done|lia..].
Qed.

(* walking [next] from the first node of a chain passes its nodes in turn *)
Lemma boundary_chain nodes a l b :
  chain nodes a l b →
  Forall2 (λ n v, ∃ N, nodes !! n = Some N ∧ val (pos N) = v)
          (a :: l) (boundary nodes a (S (length l))).
Proof.
  revert a. induction l as [|x l IH]; intros a; simpl.
  - intros [(A & HA & _)%nextOf_Some _]. rewrite HA.
    repeat constructor. eauto.
  - intros [[(A & HA & Hn)%nextOf_Some _] Hc]. rewrite HA.
    constructor; [eauto|]. rewrite Hn. by apply IH.
Qed.

(** X3: What [size()] and [isValid] say, after any offers to a fresh hull, each
    of a point object of its own.  [size()] is the number of nodes on the
    cycle of [first]: it is 0 only when nothing was offered, at least 2
    after two offers, and never above the number of offers.  The valid
    nodes are the nodes of that cycle, and the walk along [next] from
    [first], [size()] steps long, passes each of them once. *)
Theorem size_counts_the_cycle (ps : list (PVector num)) (k : nat) :
  ∃ h, offers SimplePathHull.empty k ps = Some h ∧
    (Z.min (Z.of_nat (length ps)) 2 ≤ size h ≤ Z.of_nat (length ps))%Z ∧
    (isEmpty h = true ↔ ps = []) ∧
    match first h with
    | None => ps = []
    | Some f =>
      ∃ l, NoDup (f :: l) ∧ chain (nodes h) f l f ∧
           size h = Z.of_nat (length (f :: l)) ∧
           (∀ n, validAt (nodes h) n = Some true ↔ n ∈ f :: l) ∧
           Forall2 (λ n v, ∃ N, nodes h !! n = Some N ∧ val (pos N) = v)
                   (f :: l) (polygon h)
    end.
Proof.
  destruct (offers_counted ps _ k (counted_empty k))
    as (h & Hh & (_ & _ & Hw) & Hmin & Hmax).
  simpl in Hmin, Hmax. exists h. split; [done|]. split; [lia|]. split.
  - unfold isEmpty. rewrite Z.eqb_eq. split.
    + intros Hs. destruct ps; [done|]. simpl length in Hmin. lia.
    + intros ->. simpl in Hmax. lia.
  - unfold polygon. destruct (first h) as [f|].
    + destruct Hw as (l & Hnd & Hc & Hsz & Hv). exists l.
      split_and!; [done..|].
      rewrite Hsz, Nat2Z.id. by apply (boundary_chain _ _ _ f).
    + destruct Hw as [Hs _]. destruct ps; [done|]. simpl length in Hmin. lia.
Qed.

End CountFacts.

(** * Facts about the scan *)

Section ScanFacts.
Context {num : Type} `{Number num}.
Import SimplePathHull PathSimplifier.
Implicit Types (st : Scan num) (s : PathSimplifier num).

Lemma cutTest_true path ti i j pi pj :
  cutTest path ti i j pi pj = Some true →
  tag_cut ti = true ∨ (Z.of_nat i < Z.of_nat j - 2)%Z.
Proof.
  unfold cutTest. destruct (tag_cut ti); [auto|].
  destruct (Z.of_nat i <? Z.of_nat j - 2)%Z eqn:Hlt; [|done].
  intros _. right. lia.
Qed.

Lemma cutTest_false path ti i j pi pj :
  cutTest path ti i j pi pj = Some false → tag_cut ti = false.
Proof. unfold cutTest. by destruct (tag_cut ti). Qed.

Lemma scan_scans path fitter thresholdSq j pj nj k st st' :
  scan path fitter thresholdSq j pj nj k st = Some st' → scans j k st st'.
Proof.
  revert st. induction k as [|i IH]; intros st; simpl.
  { intros [= <-]. constructor. }
  destruct (path !! i) as [pi|]; [simpl|done].
  destruct (sc_tags st !! i) as [ti|] eqn:Hti; [simpl|done].
  destruct (cutTest path ti i j pi pj) as [[]|] eqn:Hcut; [simpl..|done].
  { intros [= <-]. apply scans_cut; [done|]. by eapply cutTest_true. }
  apply cutTest_false in Hcut.
  destruct (nlt _ _).
  { intros [= <-]. by eapply scans_threshold. }
  destruct (offer _ _) as [[hull ni]|]; [simpl|done].
  destruct ni as [n|]; simpl.
  - destruct (isPioneer (nodes hull) _ n) as [[]|]; [simpl..|done].
    + destruct nj as [n'|]; [simpl|done].
      destruct (isPioneer (nodes hull) _ n') as [[]|]; [simpl..|done].
      * destruct (tag_dist ti <? sc_dist st)%Z eqn:Hd; intros Hs%IH;
          eapply scans_accept; try done; by rewrite Hd.
      * intros [= <-]. by eapply scans_strong.
    + intros Hs%IH. by eapply scans_weak.
  - intros Hs%IH. by eapply scans_weak.
Qed.


(** What a scan does to the tags: nothing, or the cut of one index. *)
Lemma scans_tags j k st st' :
  scans j k st st' →
  sc_tags st' = sc_tags st ∨
  ∃ i ti, i < k ∧ sc_tags st !! i = Some ti ∧
          (tag_cut ti = true ∨ (Z.of_nat i < Z.of_nat j - 2)%Z) ∧
          sc_tags st' = <[i := set_cut ti]> (sc_tags st).
Proof.
  induction 1 as [st|i st ti Hti Hc|i st ti box Hti Hc|i st ti box hull Hti Hc
                  |i st ti box hull st' Hti Hc Hs IH
                  |i st ti box hull st' Hti Hc Hs IH]; simpl in *; auto.
  - right. exists i, ti. auto.
  - destruct IH as [->|(i' & ti' & Hlt & ? & ? & ->)]; [auto|].
    right. exists i', ti'. split_and!; auto with lia.
  - destruct IH as [->|(i' & ti' & Hlt & ? & ? & ->)]; [auto|].
    right. exists i', ti'. split_and!; auto with lia.
Qed.

(** What a scan does to [next] and [dist]: they stay, or they become an index
    below [k] that is not cut and its distance, which is smaller. *)
Lemma scans_best j k st st' :
  scans j k st st' →
  (sc_next st' = sc_next st ∧ sc_dist st' = sc_dist st) ∨
  ∃ i ti, i < k ∧ sc_tags st !! i = Some ti ∧ tag_cut ti = false ∧
          sc_next st' = Z.of_nat i ∧ sc_dist st' = tag_dist ti ∧
          (sc_dist st' < sc_dist st)%Z.
Proof.
  induction 1 as [st|i st ti Hti Hc|i st ti box Hti Hc|i st ti box hull Hti Hc
                  |i st ti box hull st' Hti Hc Hs IH
                  |i st ti box hull st' Hti Hc Hs IH]; simpl in *; auto.
  - destruct IH as [?|(i' & ti' & Hlt & ? & ? & ? & ? & ?)]; [auto|].
    right. exists i', ti'. split_and!; auto with lia.
  - destruct (tag_dist ti <? sc_dist st)%Z eqn:Hd.
    + apply Z.ltb_lt in Hd. right.
      destruct IH as [[-> ->]|(i' & ti' & Hlt & ? & ? & ? & ? & ?)].
      * exists i, ti. split_and!; auto with lia.
      * exists i', ti'. split_and!; auto with lia.
    + destruct IH as [?|(i' & ti' & Hlt & ? & ? & ? & ? & ?)]; [auto|].
      right. exists i', ti'. split_and!; auto with lia.
Qed.

(** What a scan adds to the trace: one event for each index it visits, from
    [k - 1] downwards; the event of an index that is cut is [cut], and it is
    the last one. *)
Lemma scans_trace j k st st' :
  scans j k st st' →
  ∃ evs, sc_trace st' = sc_trace st ++ evs ∧ length evs ≤ k ∧
    ∀ m e, evs !! m = Some e →
      m < k ∧ ∃ ti, sc_tags st !! (k - 1 - m) = Some ti ∧
                    (tag_cut ti = true → e = cut ∧ length evs = S m).
Proof.
  induction 1 as [st|i st ti Hti Hc|i st ti box Hti Hc|i st ti box hull Hti Hc
                  |i st ti box hull st' Hti Hc Hs IH
                  |i st ti box hull st' Hti Hc Hs IH]; simpl in *.
  - exists []. rewrite app_nil_r. split_and!; [done|simpl; lia|]. by intros [].
  - exists [cut]. split_and!; [done|simpl; lia|].
    intros [|m] e; [|done]. intros [= <-]. split; [lia|].
    exists ti. by replace (i - 0 - 0) with i by lia.
  - exists [threshold]. split_and!; [done|simpl; lia|].
    intros [|m] e; [|done]. intros [= <-]. split; [lia|].
    exists ti. replace (i - 0 - 0) with i by lia. split; [done|congruence].
  - exists [pioneer_strong]. split_and!; [done|simpl; lia|].
    intros [|m] e; [|done]. intros [= <-]. split; [lia|].
    exists ti. replace (i - 0 - 0) with i by lia. split; [done|congruence].
  - destruct IH as (evs & -> & Hlen & Hev).
    exists (pioneer_weak :: evs). rewrite <- app_assoc. split_and!; [done|simpl; lia|].
    intros [|m] e; simpl.
    + intros [= <-]. split; [lia|].
      exists ti. replace (i - 0 - 0) with i by lia. split; [done|congruence].
    + intros Hm. destruct (Hev m e Hm) as (Hlt & ti' & Hti' & Hcut).
      split; [lia|]. exists ti'. replace (i - 0 - S m) with (i - 1 - m) by lia.
      split; [done|]. intros Hc'. destruct (Hcut Hc') as [-> ->]. done.
  - destruct IH as (evs & -> & Hlen & Hev).
    exists (accept :: evs). rewrite <- app_assoc. split_and!; [done|simpl; lia|].
    intros [|m] e; simpl.
    + intros [= <-]. split; [lia|].
      exists ti. replace (i - 0 - 0) with i by lia. split; [done|congruence].
    + intros Hm. destruct (Hev m e Hm) as (Hlt & ti' & Hti' & Hcut).
      split; [lia|]. exists ti'. replace (i - 0 - S m) with (i - 1 - m) by lia.
      split; [done|]. intros Hc'. destruct (Hcut Hc') as [-> ->]. done.
Qed.


(** The scan returns. *)

Lemma isPioneer_total (nodes : list (Node num)) line n :
  closed nodes → n < length nodes → is_Some (isPioneer nodes line n).
Proof.
  intros Hcl [N HN]%lookup_lt_is_Some_2. unfold isPioneer. rewrite HN. simpl.
  destruct (isValid N); simpl; [|eauto].
  assert (prev N < length nodes) as [P HP]%lookup_lt_is_Some_2.
  { apply (Hcl n). right. unfold prevOf. by rewrite HN. }
  assert (next N < length nodes) as [Q HQ]%lookup_lt_is_Some_2.
  { apply (Hcl n). left. unfold nextOf. by rewrite HN. }
  rewrite HP, HQ. simpl. eauto.
Qed.

Lemma cutTest_total (path : Path num) ti i j pi pj :
  i < j → j ≤ length path → is_Some (cutTest path ti i j pi pj).
Proof.
  intros Hi Hj. unfold cutTest. destruct (tag_cut ti); [eauto|].
  destruct (Z.of_nat i <? Z.of_nat j - 2)%Z eqn:Hlt; [|eauto].
  apply Z.ltb_lt in Hlt.
  destruct (lookup_lt_is_Some_2 path (S i)) as [a ->]; [lia|].
  unfold lookupZ. rewrite (proj2 (Z.leb_le _ _)) by lia.
  destruct (lookup_lt_is_Some_2 path (Z.to_nat (Z.of_nat j - 1))) as [b ->];
    [lia|].
  simpl. eauto.
Qed.

Lemma wf_first_lt (h : SimplePathHull num) f :
  wf h → first h = Some f → f < length (nodes h).
Proof.
  intros [_ Hw] Hf. rewrite Hf in Hw. destruct Hw as (l & _ & Hc).
  eapply chain_lt; [done|]. set_solver.
Qed.

Lemma scan_total path fitter thresholdSq j pj n k st :
  k ≤ j → j ≤ length path → k ≤ length (sc_tags st) →
  wf (sc_hull st) → n < length (nodes (sc_hull st)) →
  is_Some (scan path fitter thresholdSq j pj (Some n) k st).
Proof.
  revert st. induction k as [|i IH]; intros st Hk Hj Htags Hwf Hn; simpl.
  { eauto. }
  destruct (lookup_lt_is_Some_2 path i) as [pi ->]; [lia|].
  destruct (lookup_lt_is_Some_2 (sc_tags st) i) as [ti ->]; [lia|]. simpl.
  destruct (cutTest_total path ti i j pi pj) as [isCut ->]; [lia..|]. simpl.
  destruct isCut; [eauto|].
  destruct (nlt _ _); [eauto|].
  destruct (offer_total (sc_hull st) (mkRef i pi) Hwf)
    as (hull & ni & -> & Hwf' & Hlen & Hni). simpl.
  assert (closed (nodes hull)) as Hcl by apply Hwf'.
  destruct ni as [m|]; simpl.
  - destruct (isPioneer_total (nodes hull) 
               (LineFitter.fitLine fitter (Z.of_nat i) (Z.of_nat j)) m)
      as [b ->]; [done|by eapply wf_first_lt; eauto|].
    simpl. destruct b; simpl.
    + destruct (isPioneer_total (nodes hull)
                 (LineFitter.fitLine fitter (Z.of_nat i) (Z.of_nat j)) n)
        as [b ->]; [done|lia|].
      simpl. destruct b; simpl.
      * destruct (tag_dist ti <? sc_dist st)%Z; apply IH; simpl; auto with lia.
      * eauto.
    + apply IH; simpl; auto with lia.
  - apply IH; simpl; auto with lia.
Qed.

End ScanFacts.

(** * Facts about the table of tags *)

Section Table.
Context {num : Type} `{Number num}.
Import SimplePathHull PathSimplifier.
Implicit Types (st : Scan num) (s : PathSimplifier num).

Lemma offer_empty (p : PRef num) :
  offer SimplePathHull.empty p
  = Some (SimplePathHull.mk [mkNode p 0 0 true] (Some 0) 1, Some 0).
Proof.
  unfold offer, place. simpl. unfold makeNode. simpl.
  by rewrite decide_True by done.
Qed.

(** One append, opened up: the first point gets the start tag; a later point
    [j] gets its tag from a scan of the indices below [j]. *)
Lemma onAddPoint_cases s p :
  length (tags s) = pathLength s → pathLength s ≤ length (path s) →
  ∃ s', onAddPoint s p = Some s' ∧
    path s' = path s ∧ fitter s' = fitter s ∧
    thresholdSq s' = thresholdSq s ∧ pathLength s' = S (pathLength s) ∧
    ((pathLength s = 0 ∧ tags s' = tags s ++ [mkTag 0 (-1) false] ∧
      trace s' = [accept]) ∨
     (∃ tn box hull st',
        0 < pathLength s ∧ tags s !! (pathLength s - 1) = Some tn ∧
        scans (pathLength s) (pathLength s)
              (mkScan (tags s) box hull (Z.of_nat (pathLength s) - 1)
                      (tag_dist tn) [accept]) st' ∧
        tags s' = sc_tags st' ++ [mkTag (sc_dist st' + 1) (sc_next st') false] ∧
        trace s' = sc_trace st')).
Proof.
  intros Hlen Hpath. unfold onAddPoint. rewrite offer_empty. simpl.
  destruct (pathLength s =? 0) eqn:Hj.
  { apply Nat.eqb_eq in Hj. eexists. split; [done|]. simpl.
    split_and!; auto. }
  apply Nat.eqb_neq in Hj.
  unfold lookupZ. rewrite (proj2 (Z.leb_le _ _)) by lia.
  replace (Z.to_nat (Z.of_nat (pathLength s) - 1)) with (pathLength s - 1) by lia.
  destruct (lookup_lt_is_Some_2 (tags s) (pathLength s - 1)) as [tn Htn]; [lia|].
  rewrite Htn. simpl.
  match goal with |- context [scan ?a ?b ?c ?d ?e ?f ?g ?st] =>
    destruct (scan_total a b c d e 0 g st) as [st' Hst']; simpl; try lia
  end.
  { split; simpl.
    - intros n x. unfold nextOf, prevOf.
      destruct n as [|n]; simpl; intros [[= <-]|[= <-]]; lia.
    - exists []. split; [apply NoDup_singleton|]. by split. }
  rewrite Hst'. simpl. eexists. split; [done|]. simpl.
  split_and!; auto. right.
  eexists _, _, _, _. split_and!; [lia|done| |done..].
  by eapply scan_scans.
Qed.


Lemma same_routes_refl tags : same_routes tags tags.
Proof. intros i ti Hti. exists ti. auto. Qed.

Lemma same_routes_trans tags1 tags2 tags3 :
  same_routes tags1 tags2 → same_routes tags2 tags3 → same_routes tags1 tags3.
Proof.
  intros H12 H23 i t1 Ht1.
  destruct (H12 i t1 Ht1) as (t2 & Ht2 & Hd2 & Hn2 & Hc2).
  destruct (H23 i t2 Ht2) as (t3 & Ht3 & Hd3 & Hn3 & Hc3).
  exists t3. split_and!; [done|congruence..|auto].
Qed.

Lemma same_routes_cut tags i ti :
  tags !! i = Some ti → same_routes tags (<[i := set_cut ti]> tags).
Proof.
  intros Hti i' ti' Hti'. destruct (decide (i = i')) as [<-|Hne].
  - exists (set_cut ti). rewrite list_lookup_insert_eq by by eapply lookup_lt_Some.
    assert (ti' = ti) as -> by congruence. auto.
  - exists ti'. rewrite list_lookup_insert_ne by done. auto.
Qed.

Lemma same_routes_snoc tags t : same_routes tags (tags ++ [t]).
Proof.
  intros i ti Hti. exists ti. split_and!; auto. by apply lookup_app_l_Some.
Qed.

Lemma same_routes_length tags tags' :
  same_routes tags tags' → length tags ≤ length tags'.
Proof.
  intros Hs. destruct (decide (length tags = 0)) as [|Hne]; [lia|].
  destruct (lookup_lt_is_Some_2 tags (length tags - 1)) as [t Ht]; [lia|].
  destruct (Hs _ _ Ht) as (t' & Ht'%lookup_lt_Some & _). lia.
Qed.

Lemma route_ok_same_routes tags tags' j tj tj' :
  same_routes tags tags' →
  tag_dist tj' = tag_dist tj → tag_next tj' = tag_next tj →
  route_ok tags j tj → route_ok tags' j tj'.
Proof.
  intros Hs Hd Hn. destruct j as [|j]; simpl; [by rewrite Hd, Hn|].
  intros (i & ti & Hlt & Hnext & Hti & Hdist).
  destruct (Hs i ti Hti) as (ti' & Hti' & Hd' & _).
  exists i, ti'. split_and!; [done|congruence|done|congruence].
Qed.

(** One append keeps the table, adds the tag of the new index [j], and never
    routes a new tag through an index that is cut. *)
Lemma onAddPoint_spec s p s' :
  Inv s → pathLength s ≤ length (path s) → onAddPoint s p = Some s' →
  Inv s' ∧ pathLength s' = S (pathLength s) ∧
  path s' = path s ∧ fitter s' = fitter s ∧ thresholdSq s' = thresholdSq s ∧
  same_routes (tags s) (tags s') ∧
  ∃ tj, tags s' !! pathLength s = Some tj ∧ tag_cut tj = false ∧
    ∀ i ti, tags s !! i = Some ti → tag_cut ti = true →
      tag_next tj ≠ Z.of_nat i ∧
      length (trace s') ≤ pathLength s - i + 1 ∧
      ∀ e, trace s' !! (pathLength s - i) = Some e → e = cut.
Proof.
  intros [Hlen Htags] Hpath Hrun.
  destruct (onAddPoint_cases s p Hlen Hpath)
    as (s'' & Hrun' & Hp & Hf & Ht & Hl & Hcases).
  assert (s'' = s') as -> by congruence. clear Hrun Hrun'.
  set (j := pathLength s) in *.
  destruct Hcases as [(Hj & Htags' & Htrace)
                     |(tn & box & hull & st' & Hj & Htn & Hscan & Htags' & Htrace)].
  { (* the first point *)
    assert (tags s = []) as Hnil by (apply length_zero_iff_nil; lia).
    rewrite Hnil in *. simpl in Htags'.
    split_and!; auto.
    - split; [rewrite Htags', Hl; simpl; lia|].
      rewrite Htags'. intros [|j'] tj; [|done]. intros [= <-]. simpl. done.
    - by intros i ti.
    - exists (mkTag 0 (-1) false). rewrite Htags', Hj. split_and!; [done..|].
      by intros i ti. }
  (* a later point *)
  pose proof (scans_tags _ _ _ _ Hscan) as Hst. simpl in Hst.
  pose proof (scans_best _ _ _ _ Hscan) as Hsb. simpl in Hsb.
  pose proof (scans_trace _ _ _ _ Hscan) as (evs & Hevs & Hevlen & Hev).
  simpl in Hevs, Hev.
  assert (same_routes (tags s) (sc_tags st')) as Hsame.
  { destruct Hst as [->|(i & ti & _ & Hti & _ & ->)];
      [apply same_routes_refl|by apply same_routes_cut]. }
  assert (length (sc_tags st') = j) as Hlen'.
  { destruct Hst as [->|(i & ti & _ & Hti & _ & ->)];
      [done|by rewrite length_insert]. }
  assert (same_routes (tags s) (tags s')) as Hsame'.
  { rewrite Htags'. eapply same_routes_trans; [done|apply same_routes_snoc]. }
  assert (∃ i ti, i < j ∧ sc_next st' = Z.of_nat i ∧ tags s !! i = Some ti ∧
                  sc_dist st' = tag_dist ti ∧
                  (tag_cut ti = true → i = j - 1)) as (b & tb & Hb & Hnext & Htb & Hdist & Hbcut).
  { destruct Hsb as [[-> ->]|(i & ti & Hi & Hti & Hc & -> & -> & _)].
    - exists (j - 1), tn. split_and!; auto with lia.
    - exists i, ti. split_and!; auto. congruence. }
  split_and!; auto.
  - (* the invariant *)
    split; [rewrite Htags', length_app, Hl; simpl; lia|].
    intros j' tj' Hj'. rewrite Htags' in Hj'.
    apply lookup_snoc_Some in Hj' as [[Hlt Hj']|[-> <-]].
    + assert (∃ tj, tags s !! j' = Some tj ∧ tag_dist tj' = tag_dist tj ∧
                    tag_next tj' = tag_next tj ∧
                    (tag_cut tj' = true → tag_cut tj = true ∨ j' + 3 ≤ j))
        as (tj & Htj & Hd & Hn & Hc).
      { destruct Hst as [Heq|(i & ti & _ & Hti & Hwhy & Heq)]; rewrite Heq in Hj'.
        - exists tj'. auto.
        - destruct (decide (i = j')) as [->|Hne].
          + rewrite list_lookup_insert_eq in Hj' by by eapply lookup_lt_Some.
            injection Hj' as <-. exists ti. split_and!; auto.
            intros _. destruct Hwhy; [auto|right; lia].
          + rewrite list_lookup_insert_ne in Hj' by done. exists tj'. auto. }
      destruct (Htags j' tj Htj) as [Hok Hcut]. split.
      * by eapply route_ok_same_routes.
      * intros [Hc'|Hc']%Hc; [apply Hcut in Hc'|]; lia.
    + rewrite Hlen'. split; [|done]. simpl.
      destruct j as [|j0] eqn:Ej; [lia|].
      destruct (Hsame' b tb Htb) as (tb' & Htb' & Hd' & _).
      exists b, tb'. simpl. split_and!; [lia|done|done|congruence].
  - (* the new tag *)
    exists (mkTag (sc_dist st' + 1) (sc_next st') false).
    split_and!; [|done|].
    { rewrite Htags'. apply list_lookup_middle. done. }
    intros i ti Hti Hcut. simpl.
    destruct (Htags i ti Hti) as [_ Hi]. specialize (Hi Hcut). fold j in Hi.
    split_and!.
    + rewrite Hnext. intros Heq. assert (b = i) as -> by lia.
      assert (tb = ti) as -> by congruence. specialize (Hbcut Hcut). lia.
    + rewrite Htrace, Hevs. simpl.
      destruct (evs !! (j - 1 - i)) as [e|] eqn:He.
      * destruct (Hev _ _ He) as (_ & ti' & Hti' & Hc').
        replace (j - 1 - (j - 1 - i)) with i in Hti' by lia.
        assert (ti' = ti) as -> by congruence.
        destruct (Hc' Hcut) as [_ ->]. lia.
      * apply lookup_ge_None_1 in He. lia.
    + intros e. rewrite Htrace, Hevs.
      replace (j - i) with (S (j - 1 - i)) by lia. simpl. intros He.
      destruct (Hev _ _ He) as (_ & ti' & Hti' & Hc').
      replace (j - 1 - (j - 1 - i)) with i in Hti' by lia.
      assert (ti' = ti) as -> by congruence.
      by destruct (Hc' Hcut) as [-> _].
Qed.


Lemma replay_spec ps : ∀ s,
  Inv s → pathLength s + length ps ≤ length (path s) →
  ∃ s', replay s ps = Some s' ∧ Inv s' ∧
        pathLength s' = pathLength s + length ps ∧
        path s' = path s ∧ fitter s' = fitter s ∧
        thresholdSq s' = thresholdSq s ∧ same_routes (tags s) (tags s').
Proof.
  induction ps as [|p ps IH]; intros s HI Hlen; simpl in *.
  { exists s. split_and!; auto using same_routes_refl with lia. }
  destruct (onAddPoint_cases s p) as (s1 & Hs1 & _); [apply HI|lia|].
  rewrite Hs1. simpl.
  destruct (onAddPoint_spec s p s1) as (HI1 & Hl1 & Hp1 & Hf1 & Ht1 & Hr1 & _);
    [done|lia|done|].
  destruct (IH s1) as (s' & -> & HI' & Hl' & Hp' & Hf' & Ht' & Hr');
    [done|rewrite Hl1, Hp1; lia|].
  exists s'. split_and!; [done..|lia|congruence|congruence|congruence|].
  by eapply same_routes_trans.
Qed.

Lemma new_spec (path0 : Path num) threshold :
  ∃ s, PathSimplifier.new path0 threshold = Some s ∧ Ready s ∧
       path s = path0 ∧ fitter s = LineFitter.new path0 ∧
       thresholdSq s = nmul threshold threshold.
Proof.
  unfold PathSimplifier.new, onClear. simpl.
  match goal with |- context [replay ?s0 _] =>
    destruct (replay_spec path0 s0) as (s & -> & HI & Hl & Hp & Hf & Ht & _)
  end; simpl in *; [|lia|].
  { split; simpl; [done|]. by intros j tj. }
  exists s. split_and!; [done| |done..]. split; [done|]. by rewrite Hl, Hp.
Qed.

Lemma addPoint_spec s p :
  Ready s →
  ∃ s', addPoint s p = Some s' ∧ Ready s' ∧
        path s' = path s ++ [p] ∧ pathLength s' = S (pathLength s) ∧
        thresholdSq s' = thresholdSq s ∧
        fitter s' = LineFitter.onAddPoint (fitter s) p ∧
        same_routes (tags s) (tags s') ∧
        ∃ tj, tags s' !! pathLength s = Some tj ∧ tag_cut tj = false ∧
          ∀ i ti, tags s !! i = Some ti → tag_cut ti = true →
            tag_next tj ≠ Z.of_nat i ∧
            length (trace s') ≤ pathLength s - i + 1 ∧
            ∀ e, trace s' !! (pathLength s - i) = Some e → e = cut.
Proof.
  intros [HI Hlen]. unfold addPoint.
  match goal with |- context [onAddPoint ?s0 p] => set (s1 := s0) end.
  assert (Inv s1) as HI1 by done.
  assert (pathLength s1 ≤ length (path s1)) as Hlen1.
  { simpl. rewrite length_app. simpl. lia. }
  destruct (onAddPoint_cases s1 p) as (s' & Hs' & _); [apply HI1|done|].
  destruct (onAddPoint_spec s1 p s' HI1 Hlen1 Hs')
    as (HI' & Hl' & Hp' & Hf' & Ht' & Hr' & Hnew).
  exists s'. split_and!; try done.
  split; [done|]. rewrite Hl', Hp'. simpl. rewrite length_app. simpl. lia.
Qed.

Lemma addPoints_spec ps : ∀ s,
  Ready s →
  ∃ s', addPoints s ps = Some s' ∧ Ready s' ∧
        path s' = path s ++ ps ∧ thresholdSq s' = thresholdSq s ∧
        same_routes (tags s) (tags s').
Proof.
  induction ps as [|p ps IH]; intros s HR; simpl.
  { exists s. rewrite app_nil_r. split_and!; auto using same_routes_refl. }
  destruct (addPoint_spec s p HR) as (s1 & -> & HR1 & Hp1 & _ & Ht1 & _ & Hr1 & _).
  simpl. destruct (IH s1 HR1) as (s' & -> & HR' & Hp' & Ht' & Hr').
  exists s'. split_and!; [done..| |congruence|by eapply same_routes_trans].
  by rewrite Hp', Hp1, <- app_assoc.
Qed.

End Table.

(** * Facts about the reconstruction *)

Section ReconstructionFacts.
Context {num : Type} `{Number num}.
Import PathSimplifier.
Implicit Types (s : PathSimplifier num).

Lemma polyline_route s prevLine ch out line :
  polyline s prevLine ch out line → route (tags s) (hd 0%Z ch) ch.
Proof.
  induction 1 as [|prevLine j tj pj ch out line Hj Htj Hpj _ IH]; simpl in *.
  - constructor.
  - by econstructor.
Qed.

Lemma polyline_length s prevLine ch out line :
  polyline s prevLine ch out line → length ch = S (length out).
Proof. induction 1; simpl; auto. Qed.


Lemma walk_polyline s line ch out line' :
  polyline s line ch out line' →
  ∀ fuel result, length ch ≤ fuel →
    walk fuel s (hd 0%Z ch) line result = Some (line', result ++ out).
Proof.
  induction 1 as [|prevLine j tj pj ch out line Hj Htj Hpj _ IH];
    intros fuel result Hfuel; simpl in *.
  - destruct fuel as [|fuel]; [lia|]. simpl. by rewrite app_nil_r.
  - destruct fuel as [|fuel]; [lia|]. simpl.
    rewrite (proj2 (Z.eqb_neq _ _)) by done.
    rewrite Htj. simpl. rewrite Hpj. simpl.
    unfold corner.
    destruct (_ || _); rewrite IH by lia; by rewrite <- app_assoc.
Qed.


Lemma lookupZ_of_nat {A : Type} (l : list A) (i : nat) :
  lookupZ l (Z.of_nat i) = l !! i.
Proof.
  unfold lookupZ. rewrite (proj2 (Z.leb_le _ _)) by lia. by rewrite Nat2Z.id.
Qed.

Lemma descending_cons (x : Z) (ch : list Z) :
  (∀ c, c ∈ ch → (c < x)%Z) → descending ch → descending (x :: ch).
Proof.
  intros Hx Hd [|a] [|b] u v Hu Hv Hab; simpl in *; try lia.
  - injection Hu as <-. apply Hx. by eapply list_elem_of_lookup_2.
  - by eapply (Hd a b); [..|lia].
Qed.

(** Under the invariant of the table, the walk from any index [j] is a route
    to 0 of [dist j] steps through indices that go down. *)
Lemma polyline_exists s :
  Inv s → pathLength s ≤ length (path s) →
  ∀ j tj, tags s !! j = Some tj → ∀ prevLine,
    ∃ ch out line,
      polyline s prevLine (Z.of_nat j :: ch) out line ∧
      Z.of_nat (length ch) = tag_dist tj ∧ (tag_dist tj ≤ Z.of_nat j)%Z ∧
      (∀ c, c ∈ ch → (0 ≤ c < Z.of_nat j)%Z) ∧
      descending (Z.of_nat j :: ch) ∧
      last (Z.of_nat j :: ch) = Some 0%Z.
Proof.
  intros [Hlen Htags] Hpath j.
  induction (lt_wf j) as [j _ IH]. intros tj Htj prevLine.
  destruct (Htags j tj Htj) as [Hok _].
  destruct j as [|j']; simpl in Hok.
  { destruct Hok as [Hd Hn]. exists [], [], prevLine.
    split_and!; [constructor|simpl; lia|lia|set_solver| |done].
    intros [|a] [|b] ????; simpl in *; done || lia. }
  destruct Hok as (i & ti & Hi & Hn & Hti & Hd).
  set (j := S j') in *.
  destruct (IH i Hi ti Hti (LineFitter.fitLine (fitter s) (Z.of_nat i) (Z.of_nat j)))
    as (ch & out & line & Hpoly & Hlench & Hdle & Hin & Hdesc & Hlast).
  assert (j < length (path s)) as [pj Hpj]%lookup_lt_is_Some_2.
  { apply lookup_lt_Some in Htj. lia. }
  exists (Z.of_nat i :: ch), 
         (corner (thresholdSq s)
                 (LineFitter.fitLine (fitter s) (Z.of_nat i) (Z.of_nat j))
                 prevLine pj :: out), line.
  split_and!.
  - rewrite <- Hn in *. eapply polyline_corner; [lia|..|done].
    + by rewrite lookupZ_of_nat.
    + by rewrite lookupZ_of_nat.
  - simpl length. lia.
  - lia.
  - intros c [->|Hc]%elem_of_cons; [lia|]. specialize (Hin c Hc). lia.
  - apply descending_cons; [|done].
    intros c [->|Hc]%elem_of_cons; [lia|]. specialize (Hin c Hc). lia.
  - done.
Qed.

(** What [getSimplified] returns when there are two points or more: the
    projection of the last point, the corners of the route from the last
    index down to 0, and the projection of point 0. *)
Lemma getSimplified_spec s :
  Ready s → 2 ≤ pathLength s →
  ∃ tj pj p0 ch out line,
    tags s !! (pathLength s - 1) = Some tj ∧
    path s !! (pathLength s - 1) = Some pj ∧
    path s !! 0 = Some p0 ∧
    polyline s (LineFitter.fitLine (fitter s) (tag_next tj)
                                   (Z.of_nat (pathLength s) - 1))
             (tag_next tj :: ch) out line ∧
    getSimplified s
    = Some (Geometry.project pj
              (LineFitter.fitLine (fitter s) (tag_next tj)
                                  (Z.of_nat (pathLength s) - 1))
            :: out ++ [Geometry.project p0 line]) ∧
    (0 ≤ tag_next tj < Z.of_nat (pathLength s) - 1)%Z ∧
    Z.of_nat (S (length ch)) = tag_dist tj ∧
    (tag_dist tj ≤ Z.of_nat (pathLength s) - 1)%Z ∧
    (∀ c, c ∈ ch → (0 ≤ c < tag_next tj)%Z) ∧
    descending (tag_next tj :: ch) ∧
    last (tag_next tj :: ch) = Some 0%Z.
Proof.
  intros [HI Hlen] Hn. pose proof HI as [Hlent Htags].
  set (n := pathLength s) in *.
  destruct (lookup_lt_is_Some_2 (tags s) (n - 1)) as [tj Htj]; [lia|].
  destruct (lookup_lt_is_Some_2 (path s) (n - 1)) as [pj Hpj]; [lia|].
  destruct (lookup_lt_is_Some_2 (path s) 0) as [p0 Hp0]; [lia|].
  destruct (Htags _ _ Htj) as [Hok _].
  destruct (n - 1) as [|m] eqn:Hm; [lia|]. simpl in Hok.
  destruct Hok as (i & ti & Hi & Hnext & Hti & Hd).
  replace (Z.of_nat n - 1)%Z with (Z.of_nat (S m)) by lia.
  destruct (polyline_exists s HI ltac:(lia) i ti Hti
              (LineFitter.fitLine (fitter s) (tag_next tj) (Z.of_nat (S m))))
    as (ch & out & line & Hpoly & Hlench & Hdle & Hin & Hdesc & Hlast).
  rewrite <- Hnext in *.
  exists tj, pj, p0, ch, out, line. split_and!; try done; try lia.
  unfold getSimplified. fold n.
  rewrite (proj2 (Nat.leb_gt _ _)) by lia.
  replace (Z.of_nat n - 1)%Z with (Z.of_nat (S m)) by lia.
  rewrite !lookupZ_of_nat, Htj. simpl. rewrite Hpj. simpl.
  rewrite (walk_polyline _ _ _ _ _ Hpoly n
             [Geometry.project pj
                (LineFitter.fitLine (fitter s) (tag_next tj) (Z.of_nat (S m)))]).
  - simpl. by rewrite Hp0.
  - simpl. lia.
Qed.

End ReconstructionFacts.

(** * Properties of the simplifier, for every arithmetic *)

Section Simplifier.
Context {num : Type} `{Number num}.
Import PathSimplifier.
Implicit Types (s : PathSimplifier num).

Lemma build_spec (threshold : num) (path0 ps : Path num) :
  ∃ s, build threshold path0 ps = Some s ∧ Ready s ∧
       path s = path0 ++ ps ∧ thresholdSq s = nmul threshold threshold.
Proof.
  unfold build.
  destruct (new_spec path0 threshold) as (s0 & -> & HR0 & Hp0 & _ & Ht0). simpl.
  destruct (addPoints_spec ps s0 HR0) as (s & -> & HR & Hp & Ht & _).
  exists s. split_and!; [done..|congruence|congruence].
Qed.

Lemma getSimplified_total s :
  Ready s →
  ∃ result, getSimplified s = Some result ∧ length result ≤ pathLength s.
Proof.
  intros HR. destruct (decide (pathLength s ≤ 1)) as [Hle|Hgt].
  - exists (path s). unfold getSimplified.
    rewrite (proj2 (Nat.leb_le _ _)) by done. split; [done|].
    destruct HR as [_ ->]. done.
  - destruct (getSimplified_spec s HR)
      as (tj & pj & p0 & ch & out & line & _ & _ & _ & Hpoly & -> & _ & Hd & Hle & _);
      [lia|].
    eexists. split; [done|]. apply polyline_length in Hpoly.
    simpl in *. rewrite length_app. simpl. lia.
Qed.


Lemma cut_persists qs : ∀ s i ti,
  Ready s → tags s !! i = Some ti → tag_cut ti = true →
  ∃ s1, addPoints s qs = Some s1 ∧ Ready s1 ∧
        pathLength s ≤ pathLength s1 ∧ same_routes (tags s) (tags s1) ∧
        ∀ j t, pathLength s ≤ j → tags s1 !! j = Some t →
               tag_next t ≠ Z.of_nat i.
Proof.
  induction qs as [|q qs IH]; intros s i ti HR Hti Hcut; simpl.
  { exists s. split_and!; auto using same_routes_refl.
    intros j t Hj Ht%lookup_lt_Some. destruct HR as [[Hlen _] _]. lia. }
  destruct (addPoint_spec s q HR)
    as (s1 & -> & HR1 & _ & Hl1 & _ & _ & Hsame & tj & Htj & _ & Hnew).
  simpl.
  destruct (Hsame i ti Hti) as (ti1 & Hti1 & _ & _ & Hc1).
  destruct (IH s1 i ti1 HR1 Hti1 (Hc1 Hcut))
    as (s2 & -> & HR2 & Hl2 & Hsame2 & Hlater).
  exists s2. split_and!; [done..|lia|by eapply same_routes_trans|].
  intros j t Hj Ht. destruct (decide (j = pathLength s)) as [->|Hne].
  - destruct (Hnew i ti Hti Hcut) as [Hnext _].
    destruct (Hsame2 _ _ Htj) as (t' & Ht' & _ & Hn' & _).
    assert (t = t') as -> by congruence. congruence.
  - apply (Hlater j t); [lia|done].
Qed.

(** C3: the path that [getSimplified] returns is no longer than the original
    sequence (here for every sequence, the empty one included), and along the
    table of tags the recorded distance never decreases from an index to the
    index whose tag names it as [next]: it grows by one. *)
Theorem simplified_length_le (threshold : num) (path0 ps : Path num) :
  ∃ s result,
    build threshold path0 ps = Some s ∧
    getSimplified s = Some result ∧
    length result ≤ length (path0 ++ ps) ∧
    ∀ j tj, tags s !! j = Some tj → j ≠ 0 →
      ∃ i ti, tag_next tj = Z.of_nat i ∧ i < j ∧ tags s !! i = Some ti ∧
              (tag_dist ti ≤ tag_dist tj)%Z ∧
              tag_dist tj = (tag_dist ti + 1)%Z.
Proof.
  destruct (build_spec threshold path0 ps) as (s & Hs & HR & Hp & _).
  destruct (getSimplified_total s HR) as (result & Hres & Hlen).
  exists s, result. split_and!; [done..| |].
  - destruct HR as [_ Hl]. rewrite <- Hp, <- Hl. done.
  - intros j tj Htj Hj. destruct HR as [[_ Htags] _].
    destruct (Htags j tj Htj) as [Hok _]. destruct j as [|j]; [done|].
    destruct Hok as (i & ti & Hi & Hn & Hti & Hd).
    exists i, ti. split_and!; auto with lia.
Qed.

(** C5: when the tag of an index [i] is cut in a state [s], then after any
    further appends [qs] and one more append [q], the flag is still set, the
    scan for the new index [j] has not gone below [i] (its trace has at most
    [j - i + 1] entries) and what it recorded for [i], if it came that far, is
    [cut]; the new tag, and every tag appended since [s], has a [next] other
    than [i]. *)
Theorem cut_is_final (threshold : num) (path0 ps : Path num) s
  (i : nat) (ti : PointTag) (qs : Path num) (q : PVector num) :
  build threshold path0 ps = Some s →
  tags s !! i = Some ti → tag_cut ti = true →
  ∃ s1 s2 ti2 tj,
    addPoints s qs = Some s1 ∧ addPoint s1 q = Some s2 ∧
    tags s2 !! i = Some ti2 ∧ tag_cut ti2 = true ∧
    length (trace s2) ≤ pathLength s1 - i + 1 ∧
    (∀ e, trace s2 !! (pathLength s1 - i) = Some e → e = cut) ∧
    tags s2 !! pathLength s1 = Some tj ∧ tag_next tj ≠ Z.of_nat i ∧
    ∀ j t, pathLength s ≤ j → tags s2 !! j = Some t → tag_next t ≠ Z.of_nat i.
Proof.
  intros Hs Hti Hcut.
  destruct (build_spec threshold path0 ps) as (s' & Hs' & HR & _).
  assert (s' = s) as -> by congruence.
  destruct (cut_persists qs s i ti HR Hti Hcut)
    as (s1 & Hs1 & HR1 & Hl1 & Hsame1 & Hlater1).
  destruct (Hsame1 i ti Hti) as (ti1 & Hti1 & _ & _ & Hc1).
  destruct (addPoint_spec s1 q HR1)
    as (s2 & Hs2 & HR2 & _ & Hl2 & _ & _ & Hsame2 & tj & Htj & _ & Hnew).
  destruct (Hsame2 i ti1 Hti1) as (ti2 & Hti2 & _ & _ & Hc2).
  destruct (Hnew i ti1 Hti1 (Hc1 Hcut)) as (Hnext & Hlen & Hev).
  exists s1, s2, ti2, tj. split_and!; auto.
  intros j t Hj Ht. destruct (decide (j = pathLength s1)) as [->|Hne].
  - assert (t = tj) as -> by congruence. done.
  - assert (j < pathLength s1) as Hlt.
    { apply lookup_lt_Some in Ht. destruct HR2 as [[Hlen2 _] _]. lia. }
    destruct HR1 as [[Hlen1 _] _].
    destruct (lookup_lt_is_Some_2 (tags s1) j) as [t1 Ht1]; [lia|].
    destruct (Hsame2 j t1 Ht1) as (t' & Ht' & _ & Hn' & _).
    assert (t = t') as -> by congruence. rewrite Hn'.
    by apply (Hlater1 j t1).
Qed.

(** C8 as the code has it: the constructor takes every threshold, whatever
    its sign; it returns a simplifier whose [thresholdSq] is the square of
    the threshold (so that [t] and [-t] are the same bound). *)
Theorem constructor_takes_any_threshold (path0 : Path num) (threshold : num) :
  ∃ s, PathSimplifier.new path0 threshold = Some s ∧
       path s = path0 ∧ pathLength s = length path0 ∧
       thresholdSq s = nmul threshold threshold.
Proof.
  destruct (new_spec path0 threshold) as (s & Hs & [_ Hl] & Hp & _ & Ht).
  exists s. split_and!; [done..|congruence|done].
Qed.


(** C10: after any append, the tag of every index [j] from 1 on names an
    index of [0, j - 1] as its [next], the newest tag included; the route
    from the last index goes down strictly, ends at 0 and visits no more
    indices than the path has points, that is, it takes at most
    [pathLength - 1] steps; and [getSimplified], whose loop walks this route,
    returns. *)
Theorem next_below_and_route_ends (threshold : num) (path0 ps : Path num)
  (p : PVector num) :
  ∃ s s' ch result,
    build threshold path0 ps = Some s ∧ addPoint s p = Some s' ∧
    (1 ≤ pathLength s →
     ∃ tj, tags s' !! pathLength s = Some tj ∧
           (0 ≤ tag_next tj < Z.of_nat (pathLength s))%Z) ∧
    (∀ j tj, 1 ≤ j → tags s' !! j = Some tj →
             (0 ≤ tag_next tj < Z.of_nat j)%Z) ∧
    route (tags s') (Z.of_nat (pathLength s') - 1) ch ∧
    descending ch ∧ last ch = Some 0%Z ∧
    length ch - 1 ≤ pathLength s' - 1 ∧ length ch ≤ pathLength s' ∧
    getSimplified s' = Some result.
Proof.
  destruct (build_spec threshold path0 ps) as (s & Hs & HR & _).
  destruct (addPoint_spec s p HR)
    as (s' & Hs' & HR' & _ & Hl' & _ & _ & _ & tj & Htj & _).
  destruct (getSimplified_total s' HR') as (result & Hres & _).
  pose proof HR' as [[Hlen' Htags'] Hpath'].
  assert (∀ j tj, 1 ≤ j → tags s' !! j = Some tj →
                  (0 ≤ tag_next tj < Z.of_nat j)%Z) as Hbelow.
  { intros j t Hj Ht. destruct (Htags' j t Ht) as [Hok _].
    destruct j as [|j]; [lia|]. destruct Hok as (i & ti & Hi & -> & _). lia. }
  destruct (polyline_exists s' (proj1 HR') ltac:(lia) (pathLength s) tj Htj
              (Line.mk nundef nundef nundef))
    as (ch & out & line & Hpoly & Hlench & Hdle & Hin & Hdesc & Hlast).
  exists s, s', (Z.of_nat (pathLength s) :: ch), result.
  replace (Z.of_nat (pathLength s') - 1)%Z with (Z.of_nat (pathLength s)) by lia.
  split_and!; try done.
  - intros Hj. exists tj. split; [done|]. by apply Hbelow.
  - apply (polyline_route _ _ _ _ _ Hpoly).
  - simpl. lia.
  - simpl. lia.
Qed.

(** X4: Tags are written once: after further appends every tag has the [dist]
    and the [next] it had, and a cut that was set stays set. *)
Theorem tags_are_stable (threshold : num) (path0 ps qs : Path num) :
  ∃ s s',
    build threshold path0 ps = Some s ∧ addPoints s qs = Some s' ∧
    ∀ i ti, tags s !! i = Some ti →
      ∃ ti', tags s' !! i = Some ti' ∧ tag_dist ti' = tag_dist ti ∧
             tag_next ti' = tag_next ti ∧
             (tag_cut ti = true → tag_cut ti' = true).
Proof.
  destruct (build_spec threshold path0 ps) as (s & Hs & HR & _).
  destruct (addPoints_spec qs s HR) as (s' & Hs' & _ & _ & _ & Hsame).
  exists s, s'. split_and!; [done..|]. apply Hsame.
Qed.

Lemma walk_ignores_trace s1 s2 fuel :
  path s1 = path s2 → fitter s1 = fitter s2 → tags s1 = tags s2 →
  thresholdSq s1 = thresholdSq s2 →
  ∀ i line result, walk fuel s1 i line result = walk fuel s2 i line result.
Proof.
  intros Hp Hf Ht Hth.
  induction fuel as [|fuel IH]; intros i line result; simpl; [done|].
  rewrite Hp, Hf, Ht, Hth.
  destruct (i =? 0)%Z; [done|].
  destruct (lookupZ (tags s2) i) as [tj|]; [simpl|done].
  destruct (lookupZ (path s2) i) as [pj|]; [simpl|done].
  by rewrite !IH.
Qed.

Lemma getSimplified_ignores_trace s1 s2 :
  path s1 = path s2 → pathLength s1 = pathLength s2 →
  fitter s1 = fitter s2 → tags s1 = tags s2 →
  thresholdSq s1 = thresholdSq s2 →
  getSimplified s1 = getSimplified s2.
Proof.
  intros Hp Hl Hf Ht Hth. unfold getSimplified.
  rewrite Hp, Hl, Hf, Ht.
  destruct (pathLength s2 <=? 1); [done|].
  destruct (lookupZ (tags s2) _) as [tj|]; [simpl|done].
  destruct (lookupZ (path s2) _) as [pj|]; [simpl|done].
  by rewrite (walk_ignores_trace s1 s2).
Qed.

(** X5: Clearing the path and appending points again gives the simplified path
    that the same points give on a fresh path with the same threshold: what
    was appended before the clear leaves no trace in the output. *)
Theorem clear_then_replay (threshold : num) (path0 ps qs : Path num) :
  ∃ s,
    build threshold path0 ps = Some s ∧
    (s' ← addPoints (PathSimplifier.clear s) qs; getSimplified s')
    = simplify threshold qs.
Proof.
  destruct (build_spec threshold path0 ps) as (s & Hs & _ & _ & Ht).
  exists s. split; [done|]. unfold simplify, build.
  change (PathSimplifier.new [] threshold)
    with (Some (PathSimplifier.mk [] 0 LineFitter.onClear []
                  (nmul threshold threshold) [])).
  simpl. destruct qs as [|q qs]; simpl.
  - by apply getSimplified_ignores_trace.
  - by rewrite Ht.
Qed.

End Simplifier.

(** * Attaching a simplifier to a path that has points *)

Section AttachFacts.
Context {num : Type} `{Number num}.
Import SimplePathHull PathSimplifier.
Implicit Types (s : PathSimplifier num) (F : LineFitter num) (P : Path num).

Lemma at_agree (sums sums' : list num) (n : nat) (z : Z) :
  (∀ k, k ≤ n → sums !! k = sums' !! k) → (z <= Z.of_nat n)%Z →
  LineFitter.at_ sums z = LineFitter.at_ sums' z.
Proof.
  intros Hag Hz. unfold LineFitter.at_, lookupZ.
  destruct (0 <=? z)%Z eqn:H0; [|done].
  apply Z.leb_le in H0. rewrite Hag by lia. done.
Qed.

Lemma fitLine_agree F F' (n : nat) (i j : Z) :
  sums_agree n F F' → (j + 1 <= Z.of_nat n)%Z → (i <= Z.of_nat n)%Z →
  LineFitter.fitLine F i j = LineFitter.fitLine F' i j.
Proof.
  intros Hag Hj Hi. unfold LineFitter.fitLine, LineFitter.rangeSum.
  rewrite !(at_agree (LineFitter.sumsX F) (LineFitter.sumsX F') n),
          !(at_agree (LineFitter.sumsY F) (LineFitter.sumsY F') n),
          !(at_agree (LineFitter.sumsXX F) (LineFitter.sumsXX F') n),
          !(at_agree (LineFitter.sumsYY F) (LineFitter.sumsYY F') n),
          !(at_agree (LineFitter.sumsXY F) (LineFitter.sumsXY F') n);
    try done; intros k Hk; by destruct (Hag k Hk) as (? & ? & ? & ? & ?).
Qed.

Lemma cutTest_agree P P' ti (i j : nat) pi pj :
  paths_agree j P P' →
  cutTest P ti i j pi pj = cutTest P' ti i j pi pj.
Proof.
  intros Hag. unfold cutTest. destruct (tag_cut ti); [done|].
  destruct (Z.of_nat i <? Z.of_nat j - 2)%Z eqn:Hlt; [|done].
  apply Z.ltb_lt in Hlt. rewrite (Hag (S i)) by lia.
  unfold lookupZ. rewrite (proj2 (Z.leb_le _ _)) by lia.
  rewrite (Hag (Z.to_nat (Z.of_nat j - 1))) by lia. done.
Qed.

Lemma scan_agree P P' F F' thresholdSq (j : nat) pj nj (k : nat) :
  paths_agree j P P' → sums_agree (S j) F F' → k ≤ j →
  ∀ st, scan P F thresholdSq j pj nj k st = scan P' F' thresholdSq j pj nj k st.
Proof.
  intros HP HF. induction k as [|i IH]; intros Hk st; simpl; [done|].
  rewrite (HP i) by lia.
  destruct (P' !! i) as [pi|]; [simpl|done].
  destruct (sc_tags st !! i) as [ti|]; [simpl|done].
  rewrite (cutTest_agree P P') by done.
  destruct (cutTest P' ti i j pi pj) as [[]|]; [done|simpl|done].
  rewrite (fitLine_agree F F' (S j)) by (done || lia).
  destruct (nlt _ _); [done|].
  destruct (offer _ _) as [[hull ni]|]; [simpl|done].
  destruct (match ni with Some n => _ | None => _ end) as [[]|]; simpl;
    [by rewrite IH by lia| |done].
  destruct nj as [n|]; [simpl|done].
  destruct (negb <$> isPioneer (nodes hull) _ n) as [[]|]; simpl; [done| |done].
  destruct (_ <? _)%Z; by rewrite IH by lia.
Qed.

(** One append reads the path below the new index and the sums up to the
    one after it, and nothing else of the path or of the fitter. *)
Lemma onAddPoint_rebase P F s p :
  paths_agree (pathLength s) P (path s) →
  sums_agree (S (pathLength s)) F (fitter s) →
  onAddPoint (rebase P F s) p = rebase P F <$> onAddPoint s p.
Proof.
  intros HP HF. unfold onAddPoint. rewrite !offer_empty. simpl.
  destruct (pathLength s =? 0); [done|].
  destruct (lookupZ (tags s) _) as [tn|]; [simpl|done].
  rewrite (fitLine_agree F (fitter s) (S (pathLength s))) by (done || lia).
  rewrite (scan_agree P (path s) F (fitter s)) by (done || lia).
  by destruct (scan _ _ _ _ _ _ _ _).
Qed.

Lemma onAddPoint_frame s p s' :
  onAddPoint s p = Some s' →
  path s' = path s ∧ fitter s' = fitter s ∧ pathLength s' = S (pathLength s) ∧
  thresholdSq s' = thresholdSq s.
Proof.
  unfold onAddPoint. rewrite offer_empty. simpl.
  destruct (pathLength s =? 0); [by intros [= <-]|].
  destruct (lookupZ (tags s) _) as [tn|]; [simpl|done].
  destruct (scan _ _ _ _ _ _ _ _); [simpl|done]. by intros [= <-].
Qed.

Lemma paths_agree_le n m P P' : m ≤ n → paths_agree n P P' → paths_agree m P P'.
Proof. intros Hle Hag i Hi. apply Hag. lia. Qed.

Lemma sums_agree_le n m F F' : m ≤ n → sums_agree n F F' → sums_agree m F F'.
Proof. intros Hle Hag k Hk. apply Hag. lia. Qed.

(* the replay of the constructor, on a longer path *)
Lemma replay_rebase P F qs : ∀ s,
  paths_agree (pathLength s + length qs) P (path s) →
  sums_agree (pathLength s + length qs) F (fitter s) →
  replay (rebase P F s) qs = rebase P F <$> replay s qs.
Proof.
  induction qs as [|q qs IH]; intros s HP HF; simpl; [done|].
  simpl in HP, HF.
  rewrite onAddPoint_rebase;
    [|eapply paths_agree_le; [|done]; lia|eapply sums_agree_le; [|done]; lia].
  destruct (onAddPoint s q) as [s1|] eqn:Hs1; simpl; [|done].
  destruct (onAddPoint_frame _ _ _ Hs1) as (Hp1 & Hf1 & Hl1 & _).
  apply IH; rewrite ?Hp1, ?Hf1, Hl1.
  - eapply paths_agree_le; [|done]. lia.
  - eapply sums_agree_le; [|done]. lia.
Qed.

(* the sums of a fitter stay where they are when points are added *)
Lemma fitter_onAddPoint_full F p :
  fitter_full F → fitter_full (LineFitter.onAddPoint F p).
Proof.
  intros (? & ? & ? & ? & ?). unfold fitter_full, LineFitter.onAddPoint. simpl.
  rewrite !length_app. simpl. lia.
Qed.

Lemma fitter_new_full P : fitter_full (LineFitter.new P).
Proof.
  unfold LineFitter.new. induction P as [|p P IH] using rev_ind.
  { by repeat split. }
  rewrite foldl_app. simpl. by apply fitter_onAddPoint_full.
Qed.

Lemma fitter_foldl_length F qs :
  LineFitter.pathLength (foldl LineFitter.onAddPoint F qs)
  = LineFitter.pathLength F + length qs.
Proof.
  revert F. induction qs as [|q qs IH]; intros F; simpl; [lia|].
  rewrite IH. simpl. lia.
Qed.

Lemma fitter_foldl_agree qs : ∀ F,
  fitter_full F →
  sums_agree (LineFitter.pathLength F) (foldl LineFitter.onAddPoint F qs) F.
Proof.
  induction qs as [|q qs IH]; intros F HF; simpl.
  { by intros k Hk. }
  pose proof (fitter_onAddPoint_full F q HF) as HF1.
  intros k Hk.
  destruct (IH _ HF1 k) as (HX & HY & HXX & HYY & HXY); [simpl; lia|].
  destruct HF as (LX & LY & LXX & LYY & LXY).
  rewrite HX, HY, HXX, HYY, HXY. unfold LineFitter.onAddPoint. simpl.
  rewrite !lookup_app_l by lia. done.
Qed.

(* the appends of [addPoints], seen from the final path and fitter *)
Lemma addPoints_rebase qs : ∀ s,
  pathLength s = length (path s) →
  LineFitter.pathLength (fitter s) = pathLength s → fitter_full (fitter s) →
  replay (rebase (path s ++ qs) (foldl LineFitter.onAddPoint (fitter s) qs) s) qs
  = addPoints s qs.
Proof.
  induction qs as [|q qs IH]; intros s Hl Hfl HF; simpl.
  { rewrite app_nil_r. by destruct s. }
  unfold addPoint.
  set (s1 := PathSimplifier.mk (path s ++ [q]) (pathLength s)
               (LineFitter.onAddPoint (fitter s) q) (tags s) (thresholdSq s)
               (trace s)).
  set (P := path s ++ q :: qs).
  set (F := foldl LineFitter.onAddPoint (LineFitter.onAddPoint (fitter s) q) qs).
  change (rebase P F s) with (rebase P F s1).
  rewrite onAddPoint_rebase.
  - destruct (onAddPoint s1 q) as [s2|] eqn:Hs2; simpl; [|done].
    destruct (onAddPoint_frame _ _ _ Hs2) as (Hp2 & Hf2 & Hl2 & _).
    simpl in Hp2, Hf2, Hl2.
    rewrite <- (IH s2).
    + rewrite Hp2, Hf2. unfold P, F. by rewrite <- app_assoc.
    + rewrite Hl2, Hp2, length_app. simpl. lia.
    + rewrite Hf2, Hl2. simpl. lia.
    + rewrite Hf2. by apply fitter_onAddPoint_full.
  - simpl. intros i Hi. unfold P.
    rewrite !lookup_app_l by (rewrite ?length_app; simpl; lia). done.
  - simpl. unfold F. eapply sums_agree_le;
      [|apply fitter_foldl_agree, fitter_onAddPoint_full, HF].
    simpl. lia.
Qed.


Lemma replay_app (qs1 qs2 : Path num) s :
  replay s (qs1 ++ qs2) = s1 ← replay s qs1; replay s1 qs2.
Proof.
  revert s. induction qs1 as [|q qs1 IH]; intros s; simpl; [done|].
  destruct (onAddPoint s q); simpl; [apply IH|done].
Qed.

Lemma fitter_new_length P : LineFitter.pathLength (LineFitter.new P) = length P.
Proof. unfold LineFitter.new. rewrite fitter_foldl_length. simpl. lia. Qed.

(* the constructor on the path [path0 ++ ps] and the appends of [ps] after
   the constructor on [path0] end in one state *)
Lemma new_app_build (threshold : num) (path0 ps : Path num) :
  PathSimplifier.new (path0 ++ ps) threshold = build threshold path0 ps.
Proof.
  unfold build.
  destruct (new_spec path0 threshold) as (s0 & Hs0 & [HI0 Hl0] & Hp0 & Hf0 & Ht0).
  rewrite Hs0. simpl.
  unfold PathSimplifier.new in *. simpl in *.
  set (P := path0 ++ ps). set (F := LineFitter.new P).
  set (i0 := PathSimplifier.mk path0 0 (LineFitter.new path0) []
               (nmul threshold threshold) []) in *.
  change (PathSimplifier.mk P 0 F [] (nmul threshold threshold) [])
    with (rebase P F i0).
  assert (F = foldl LineFitter.onAddPoint (LineFitter.new path0) ps) as HF.
  { unfold F, P, LineFitter.new. by rewrite foldl_app. }
  change (onClear i0) with i0 in Hs0.
  change (onClear (rebase P F i0)) with (rebase P F i0).
  unfold P at 2. rewrite replay_app, replay_rebase, Hs0; simpl.
  - rewrite <- (addPoints_rebase ps s0).
    + by rewrite Hp0, Hf0, <- HF.
    + done.
    + by rewrite Hf0, fitter_new_length, Hl0, Hp0.
    + rewrite Hf0. apply fitter_new_full.
  - intros i Hi. unfold P. by rewrite lookup_app_l by lia.
  - rewrite HF. pose proof (fitter_foldl_agree ps _ (fitter_new_full path0)) as Hag.
    by rewrite fitter_new_length in Hag.
Qed.

(** X6: A simplifier may be attached at any moment: constructing it on a path
    that holds the points [path0 ++ ps] leaves it in the state (tags, trace,
    fitter and all) that it has when it is constructed on [path0] and the
    points [ps] are appended afterwards. *)
Theorem attach_at_any_moment (threshold : num) (path0 ps : Path num) :
  PathSimplifier.new (path0 ++ ps) threshold = build threshold path0 ps.
Proof. apply new_app_build. Qed.

End AttachFacts.

(** * Runs: traces, lengths and cuts *)

Section RunFacts.
Context {num : Type} `{Number num}.
Import SimplePathHull PathSimplifier.
Implicit Types (s : PathSimplifier num) (st : Scan num) (P : Path num).

(** One append, with the run of [scan] that it makes. *)
Lemma onAddPoint_scan s p s' :
  onAddPoint s p = Some s' →
  (pathLength s = 0 ∧ tags s' = tags s ++ [mkTag 0 (-1) false] ∧
   trace s' = [accept]) ∨
  ∃ tn st',
    0 < pathLength s ∧ tags s !! (pathLength s - 1) = Some tn ∧
    scan (path s) (fitter s) (thresholdSq s) (pathLength s) p (Some 0)
         (pathLength s)
         (mkScan (tags s)
                 (ErrorBox.new
                    (LineFitter.fitLine (fitter s) (Z.of_nat (pathLength s))
                                        (Z.of_nat (pathLength s))) p)
                 (hullOf (pathLength s) p)
                 (Z.of_nat (pathLength s) - 1) (tag_dist tn) [accept])
    = Some st' ∧
    tags s' = sc_tags st' ++ [mkTag (sc_dist st' + 1) (sc_next st') false] ∧
    trace s' = sc_trace st'.
Proof.
  unfold onAddPoint. rewrite offer_empty. simpl.
  destruct (pathLength s =? 0) eqn:Hj.
  { apply Nat.eqb_eq in Hj. intros [= <-]. left. simpl. auto. }
  apply Nat.eqb_neq in Hj.
  destruct (lookupZ (tags s) _) as [tn|] eqn:Htn; [simpl|done].
  destruct (scan _ _ _ _ _ _ _ _) as [st'|] eqn:Hscan; [simpl|done].
  intros [= <-]. right. exists tn, st'. simpl. split_and!; [lia| |done..].
  replace (Z.of_nat (pathLength s) - 1)%Z with (Z.of_nat (pathLength s - 1))
    in Htn by lia.
  by rewrite lookupZ_of_nat in Htn.
Qed.

(** An invariant of the runs: what holds of the fresh simplifier on a path
    [P] and is kept by each replayed append holds of the constructed one. *)
Lemma replay_invariant (Q : PathSimplifier num → Prop) (P : Path num)
  (thresholdSq0 : num) :
  (∀ s p s',
     Inv s → path s = P → fitter s = LineFitter.new P →
     thresholdSq s = thresholdSq0 → P !! pathLength s = Some p →
     Q s → onAddPoint s p = Some s' → Q s') →
  ∀ qs done s s',
    P = done ++ qs → pathLength s = length done →
    Inv s → path s = P → fitter s = LineFitter.new P →
    thresholdSq s = thresholdSq0 →
    Q s → replay s qs = Some s' → Q s'.
Proof.
  intros Hstep. induction qs as [|q qs IH];
    intros done s s' HP Hl HI Hp Hf Ht HQ Hrun; simpl in Hrun.
  { by injection Hrun as <-. }
  destruct (onAddPoint s q) as [s1|] eqn:Hs1; [simpl in Hrun|done].
  assert (P !! pathLength s = Some q) as Hq.
  { rewrite HP, Hl. by apply list_lookup_middle. }
  destruct (onAddPoint_spec s q s1 HI) as (HI1 & Hl1 & Hp1 & Hf1 & Ht1 & _);
    [|done|].
  { rewrite Hp. apply lookup_lt_Some in Hq. lia. }
  apply (IH (done ++ [q]) s1 s').
  - by rewrite <- app_assoc.
  - rewrite Hl1, Hl, length_app. simpl. lia.
  - done.
  - congruence.
  - congruence.
  - congruence.
  - by apply (Hstep s q s1).
  - done.
Qed.

Lemma new_invariant (Q : PathSimplifier num → Prop) (P : Path num)
  (threshold : num) :
  Q (PathSimplifier.mk P 0 (LineFitter.new P) [] (nmul threshold threshold) []) →
  (∀ s p s',
     Inv s → path s = P → fitter s = LineFitter.new P →
     thresholdSq s = nmul threshold threshold → P !! pathLength s = Some p →
     Q s → onAddPoint s p = Some s' → Q s') →
  ∀ s, PathSimplifier.new P threshold = Some s → Q s.
Proof.
  intros H0 Hstep s Hs. unfold PathSimplifier.new in Hs.
  apply (replay_invariant Q P _ Hstep P []
           (PathSimplifier.mk P 0 (LineFitter.new P) []
              (nmul threshold threshold) []) s); simpl; try done.
Qed.


(** *** The trace of a scan *)

(** What a scan records: one event for each index it visits; every event
    but the last one is [accept] or [pioneer_weak]; the last one ends the
    loop if the scan stopped above index 0; and the [next] it ends with is
    the one it started with or an index for which it recorded [accept]. *)
Lemma scans_shape j k st st' :
  scans j k st st' →
  ∃ evs, sc_trace st' = sc_trace st ++ evs ∧ length evs ≤ k ∧
    (∀ m e, evs !! m = Some e → S m < length evs →
            e = accept ∨ e = pioneer_weak) ∧
    (length evs < k → ∃ e, last evs = Some e ∧ breaks e) ∧
    (sc_next st' = sc_next st ∨
     ∃ i, i < k ∧ sc_next st' = Z.of_nat i ∧ evs !! (k - 1 - i) = Some accept).
Proof.
  induction 1 as [st|i st ti Hti Hc|i st ti box Hti Hc|i st ti box hull Hti Hc
                  |i st ti box hull st' Hti Hc Hs IH
                  |i st ti box hull st' Hti Hc Hs IH]; simpl in *.
  - exists []. rewrite app_nil_r. split_and!; [done|simpl; lia| |simpl; lia|auto].
    by intros [].
  - exists [cut]. split_and!; [done|simpl; lia| | |auto].
    + intros [|m] e; simpl; [lia|done].
    + intros _. exists cut. split; [done|]. unfold breaks. auto.
  - exists [threshold]. split_and!; [done|simpl; lia| | |auto].
    + intros [|m] e; simpl; [lia|done].
    + intros _. exists threshold. split; [done|]. unfold breaks. auto.
  - exists [pioneer_strong]. split_and!; [done|simpl; lia| | |auto].
    + intros [|m] e; simpl; [lia|done].
    + intros _. exists pioneer_strong. split; [done|]. unfold breaks. auto.
  - destruct IH as (evs & -> & Hlen & Hev & Hlast & Hnext).
    exists (pioneer_weak :: evs). rewrite <- app_assoc.
    split_and!; [done|simpl; lia| | |].
    + intros [|m] e; simpl; [intros [= <-]; auto|]. intros He Hm.
      apply (Hev m e He). lia.
    + simpl. intros Hlt. destruct Hlast as (e & He & Hb); [lia|].
      exists e. split; [|done]. destruct evs; [done|]. done.
    + destruct Hnext as [?|(i' & Hi' & ? & He)]; [auto|].
      right. exists i'. split_and!; [lia|done|].
      replace (i - 0 - i') with (S (i - 1 - i')) by lia. done.
  - destruct IH as (evs & -> & Hlen & Hev & Hlast & Hnext).
    exists (accept :: evs). rewrite <- app_assoc.
    split_and!; [done|simpl; lia| | |].
    + intros [|m] e; simpl; [intros [= <-]; auto|]. intros He Hm.
      apply (Hev m e He). lia.
    + simpl. intros Hlt. destruct Hlast as (e & He & Hb); [lia|].
      exists e. split; [|done]. destruct evs; [done|]. done.
    + destruct Hnext as [Heq|(i' & Hi' & ? & He)].
      * destruct (tag_dist ti <? sc_dist st)%Z; [|auto].
        right. exists i. split_and!; [lia|done|].
        by replace (i - 0 - i) with 0 by lia.
      * right. exists i'. split_and!; [lia|done|].
        replace (i - 0 - i') with (S (i - 1 - i')) by lia. done.
Qed.

(* what every state of a run satisfies before a point is appended to it *)
Lemma addPoint_cases s p :
  Ready s →
  ∃ s', addPoint s p = Some s' ∧
    ((pathLength s = 0 ∧ tags s' = tags s ++ [mkTag 0 (-1) false] ∧
      trace s' = [accept]) ∨
     (∃ tn box hull st',
        0 < pathLength s ∧ tags s !! (pathLength s - 1) = Some tn ∧
        scans (pathLength s) (pathLength s)
              (mkScan (tags s) box hull (Z.of_nat (pathLength s) - 1)
                      (tag_dist tn) [accept]) st' ∧
        tags s' = sc_tags st' ++ [mkTag (sc_dist st' + 1) (sc_next st') false] ∧
        trace s' = sc_trace st')).
Proof.
  intros [[Hlen _] Hpath]. unfold addPoint.
  match goal with |- context [onAddPoint ?s0 p] =>
    destruct (onAddPoint_cases s0 p) as (s' & Hs' & _ & _ & _ & _ & Hcases)
  end; [done|simpl; rewrite length_app; simpl; lia|].
  exists s'. split; [done|]. done.
Qed.

(** X7: The trace after an append: it starts with [accept] and goes on with one
    event for each index that the scan visited, from the index before the
    new one downwards.  Only the last event can be [cut], [threshold] or
    [pioneer_strong], and it is one of them whenever the scan stopped before
    index 0.  The [next] of the new tag is the index before it, or an index
    whose event is [accept]. *)
Theorem trace_shape (thr : num) (path0 ps : Path num) (p : PVector num) :
  ∃ s s' evs,
    build thr path0 ps = Some s ∧ addPoint s p = Some s' ∧
    trace s' = accept :: evs ∧ length evs ≤ pathLength s ∧
    (∀ m e, evs !! m = Some e → S m < length evs →
            e = accept ∨ e = pioneer_weak) ∧
    (length evs < pathLength s → ∃ e, last evs = Some e ∧ breaks e) ∧
    (∀ tj, tags s' !! pathLength s = Some tj → 0 < pathLength s →
       tag_next tj = (Z.of_nat (pathLength s) - 1)%Z ∨
       ∃ i, i < pathLength s ∧ tag_next tj = Z.of_nat i ∧
            evs !! (pathLength s - 1 - i) = Some accept).
Proof.
  destruct (build_spec thr path0 ps) as (s & Hs & HR & _).
  destruct (addPoint_cases s p HR) as (s' & Hs' & Hcases).
  exists s, s'.
  destruct Hcases as [(Hj & Htags' & Htrace)
                     |(tn & box & hull & st' & Hj & Htn & Hscan & Htags' & Htrace)].
  - exists []. rewrite Hj. split_and!; [done..|simpl; lia| | |].
    + by intros [].
    + simpl. lia.
    + intros tj _ Hlt. lia.
  - destruct (scans_shape _ _ _ _ Hscan) as (evs & Hevs & Hlen & Hev & Hlast & Hnext).
    simpl in Hevs, Hnext. exists evs. rewrite Htrace, Hevs.
    split_and!; [done..|].
    intros tj Htj _.
    assert (length (sc_tags st') = pathLength s) as Hlen'.
    { destruct HR as [[Hl _] _].
      destruct (scans_tags _ _ _ _ Hscan) as [->|(i & ti & _ & _ & _ & ->)];
        simpl; [done|by rewrite length_insert]. }
    rewrite Htags', <- Hlen', list_lookup_middle in Htj by done.
    injection Htj as <-. simpl. done.
Qed.


(** *** The length of the simplified path *)

(* with one point or more, the simplified path has one vertex more than the
   last tag has steps to the start *)
Lemma getSimplified_length s :
  Ready s → 1 ≤ pathLength s →
  ∃ result tl,
    getSimplified s = Some result ∧ tags s !! (pathLength s - 1) = Some tl ∧
    Z.of_nat (length result) = (tag_dist tl + 1)%Z ∧ 1 ≤ length result.
Proof.
  intros HR Hn. destruct (decide (pathLength s = 1)) as [H1|H1].
  - destruct HR as [[Hlen Htags] Hpath].
    destruct (lookup_lt_is_Some_2 (tags s) 0) as [t0 Ht0]; [lia|].
    destruct (Htags 0 t0 Ht0) as [[Hd _] _].
    exists (path s), t0. unfold getSimplified. rewrite H1. simpl.
    split_and!; [done..| |]; rewrite <- Hpath, H1; [by rewrite Hd|done].
  - destruct (getSimplified_spec s HR)
      as (tj & pj & p0 & ch & out & line & Htj & _ & _ & Hpoly & -> & _ & Hd & _);
      [lia|].
    eexists _, tj. split_and!; [done..| |simpl; lia].
    apply polyline_length in Hpoly. simpl in *. rewrite length_app. simpl. lia.
Qed.

(** X8: Appending a point adds at most one vertex to the simplified path, and
    the path returned after the append has a vertex. *)
Theorem append_adds_at_most_one_vertex (threshold : num) (path0 ps : Path num)
  (p : PVector num) :
  ∃ s s' result result',
    build threshold path0 ps = Some s ∧ addPoint s p = Some s' ∧
    getSimplified s = Some result ∧ getSimplified s' = Some result' ∧
    1 ≤ length result' ∧ length result' ≤ length result + 1.
Proof.
  destruct (build_spec threshold path0 ps) as (s & Hs & HR & _).
  destruct (addPoint_spec s p HR) as (s' & Hs' & HR' & _ & Hl' & _).
  destruct (addPoint_cases s p HR) as (s'' & Hs'' & Hcases).
  assert (s'' = s') as -> by congruence.
  destruct (getSimplified_total s HR) as (result & Hres & _).
  destruct (getSimplified_length s' HR')
    as (result' & tl' & Hres' & Htl' & Hlen' & Hpos'); [lia|].
  exists s, s', result, result'. split_and!; [done..|].
  rewrite Hl' in Htl'. replace (S (pathLength s) - 1) with (pathLength s) in Htl' by lia.
  destruct Hcases as [(Hj & Htags' & Htrace)
                     |(tn & box & hull & st' & Hj & Htn & Hscan & Htags' & Htrace)].
  - assert (tags s = []) as Hnil.
    { apply length_zero_iff_nil. destruct HR as [[-> _] _]. done. }
    rewrite Htags', Hnil, Hj in Htl'. injection Htl' as <-. simpl in Hlen'. lia.
  - destruct (getSimplified_length s HR)
      as (result0 & tl & Hres0 & Htl & Hlen & _); [lia|].
    assert (result0 = result) as -> by congruence.
    assert (tl = tn) as -> by congruence.
    assert (length (sc_tags st') = pathLength s) as Hlent.
    { destruct HR as [[Hl _] _].
      destruct (scans_tags _ _ _ _ Hscan) as [->|(i & ti & _ & _ & _ & ->)];
        simpl; [done|by rewrite length_insert]. }
    rewrite Htags', <- Hlent, list_lookup_middle in Htl' by done.
    injection Htl' as <-. simpl in Hlen'.
    destruct (scans_best _ _ _ _ Hscan) as [[_ Hd]|(i & ti & _ & _ & _ & _ & _ & Hd)];
      simpl in Hd; lia.
Qed.


(** *** Where a cut comes from *)

Lemma cutTest_crosses P ti i j pj pi :
  P !! i = Some pi → cutTest P ti i j pi pj = Some true →
  tag_cut ti = true ∨ crosses P i j pj.
Proof.
  intros Hpi. unfold cutTest. destruct (tag_cut ti); [auto|].
  destruct (Z.of_nat i <? Z.of_nat j - 2)%Z eqn:Hlt; [|done].
  apply Z.ltb_lt in Hlt.
  destruct (P !! S i) as [a|] eqn:Ha; [simpl|done].
  destruct (lookupZ P (Z.of_nat j - 1)) as [b|] eqn:Hb; [simpl|done].
  intros [= Hx]. right. split; [done|]. exists pi, a, b. split_and!; try done.
  replace (Z.of_nat j - 1)%Z with (Z.of_nat (j - 1)) in Hb by lia.
  by rewrite lookupZ_of_nat in Hb.
Qed.

(* a scan sets a cut only where one was set or where [intersect] says so *)
Lemma scan_cut_sound P F thresholdSq j pj nj k : ∀ st st',
  scan P F thresholdSq j pj nj k st = Some st' →
  ∀ i ti', sc_tags st' !! i = Some ti' → tag_cut ti' = true →
    (∃ ti, sc_tags st !! i = Some ti ∧ tag_cut ti = true) ∨ crosses P i j pj.
Proof.
  induction k as [|i0 IH]; intros st st'; simpl.
  { intros [= <-] i ti' Hti' Hc. eauto. }
  destruct (P !! i0) as [pi|] eqn:Hpi; [simpl|done].
  destruct (sc_tags st !! i0) as [ti|] eqn:Hti; [simpl|done].
  destruct (cutTest P ti i0 j pi pj) as [[]|] eqn:Hcut; [simpl..|done].
  { intros [= <-] i ti' Hti' Hc. simpl in Hti'.
    destruct (decide (i = i0)) as [->|Hne].
    - destruct (cutTest_crosses _ _ _ _ _ _ Hpi Hcut); eauto.
    - rewrite list_lookup_insert_ne in Hti' by done. eauto. }
  destruct (nlt _ _).
  { intros [= <-] i ti' Hti' Hc. simpl in Hti'. eauto. }
  destruct (offer _ _) as [[hull ni]|]; [simpl|done].
  destruct (match ni with Some n => _ | None => _ end) as [[]|]; simpl; [|..|done].
  { intros Hs i ti' Hti' Hc. apply (IH _ _ Hs i ti' Hti' Hc). }
  destruct nj as [n|]; [simpl|done].
  destruct (negb <$> isPioneer (nodes hull) _ n) as [[]|]; simpl; [| |done].
  { intros [= <-] i ti' Hti' Hc. simpl in Hti'. eauto. }
  destruct (_ <? _)%Z; intros Hs i ti' Hti' Hc;
    apply (IH _ _ Hs i ti' Hti' Hc).
Qed.

Lemma onAddPoint_cuts_cross s p s' :
  path s !! pathLength s = Some p →
  cuts_cross (path s) s → onAddPoint s p = Some s' → cuts_cross (path s) s'.
Proof.
  intros Hp HQ Hrun.
  destruct (onAddPoint_frame _ _ _ Hrun) as (_ & _ & Hl' & _).
  destruct (onAddPoint_scan _ _ _ Hrun)
    as [(Hj & Htags' & _)|(tn & st' & Hj & Htn & Hscan & Htags' & _)];
    intros i ti Hti Hc; rewrite Htags' in Hti;
    apply lookup_snoc_Some in Hti as [[_ Hti]|[_ <-]]; try done.
  - destruct (HQ i ti Hti Hc) as (j & pj & Hlt & ?). exists j, pj.
    split; [lia|done].
  - destruct (scan_cut_sound _ _ _ _ _ _ _ _ _ Hscan i ti Hti Hc)
      as [(ti0 & Hti0 & Hc0)|Hx]; simpl in *.
    + destruct (HQ i ti0 Hti0 Hc0) as (j & pj & Hlt & ?). exists j, pj.
      split; [lia|done].
    + exists (pathLength s), p. split; [lia|done].
Qed.

(** X9: A cut flag is set only where [Geometry.intersect] reported a crossing:
    when the tag of an index i is cut, the segment from point i to point
    i + 1 and the segment that ends at some later point j > i + 2 were
    found to intersect. *)
Theorem cut_means_crossing (threshold : num) (path0 ps : Path num) :
  ∃ s, build threshold path0 ps = Some s ∧
    ∀ i ti, tags s !! i = Some ti → tag_cut ti = true →
      ∃ j pi a b pj,
        i + 2 < j ∧ j < length (path0 ++ ps) ∧
        (path0 ++ ps) !! i = Some pi ∧ (path0 ++ ps) !! S i = Some a ∧
        (path0 ++ ps) !! (j - 1) = Some b ∧ (path0 ++ ps) !! j = Some pj ∧
        Geometry.intersect pi a b pj = true.
Proof.
  destruct (build_spec threshold path0 ps) as (s & Hs & HR & Hp & _).
  exists s. split; [done|].
  assert (cuts_cross (path0 ++ ps) s) as HQ.
  { apply (new_invariant (cuts_cross (path0 ++ ps)) (path0 ++ ps) threshold).
    - by intros i ti.
    - intros s1 p s1' _ Hp1 _ _ Hq HQ1 Hrun. rewrite <- Hp1 in *.
      by eapply onAddPoint_cuts_cross.
    - by rewrite new_app_build. }
  intros i ti Hti Hc.
  destruct (HQ i ti Hti Hc) as (j & pj & Hj & Hpj & Hlt & pi & a & b & ? & ? & ? & ?).
  exists j, pi, a, b, pj. split_and!; try done; [lia|].
  destruct HR as [_ Hl]. rewrite <- Hp, <- Hl. done.
Qed.

(** *** Vertices that are numbers *)




End RunFacts.

(** * The frame of [remap] *)

Section Remap.
Context {num : Type} `{Number num}.

(** [l.remap(other, v)] reads [v] in the frame of [other], the argument, and
    returns its coordinates in the frame of [l], the receiver. *)
Lemma remap_unfold (l other : Line num) (v : LVector num) :
  Line.remap l other v = Line.map l (Line.unmap other v).
Proof. reflexivity. Qed.

End Remap.

(** * The direction of a fitted line *)

Section FitFacts.
Context {num : Type} `{Number num}.
Import LineFitter.
Local Open Scope num_scope.

(* one of the coefficients a, b of a fitted line is 1, or both are -1 *)
Lemma fitLine_unit (f : LineFitter num) (i j : Z) :
  Line.a (fitLine f i j) = #1 ∨ Line.b (fitLine f i j) = #1 ∨
  (Line.a (fitLine f i j) = - #1 ∧ Line.b (fitLine f i j) = - #1).
Proof.
  unfold fitLine, fitLineStat.
  destruct (_ <=? 0)%Z; simpl; [auto|].
  destruct (_ && _); simpl; [auto|].
  destruct (nlt _ _); simpl; auto.
Qed.


End FitFacts.

(** * Runs on binary64 *)

Section Binary64.
Import PathSimplifier SimplePathHull.
Local Open Scope float_scope.

(* values that a test tells apart are not equal *)
Lemma apart {A : Type} (f : A → bool) (x y : A) : f x ≠ f y → x ≠ y.
Proof. intros Hf ->. done. Qed.

(** ** C1: three collinear points *)

(** C1, as the code has it: for (0,0), (5,0), (10,0) and threshold 1,
    [getSimplified] returns the two end points with the last point first:
    [(10,0), (0,0)]. *)
Theorem collinear_scenario_reversed :
  simplify 1 collinear3 = Some [pt 10 0; pt 0 0].
Proof. vm_compute. reflexivity. Qed.

(** C1, as stated, fails: the path returned is not [(0,0), (10,0)] in that
    order. *)
Lemma collinear_scenario_not_in_path_order :
  simplify 1 collinear3 ≠ Some [pt 0 0; pt 10 0].
Proof.
  apply (apart (λ r, match r with
                     | Some (v :: _) => PrimFloat.eqb (PVector.x v) 0
                     | _ => false
                     end)).
  by vm_compute.
Qed.

(** ** C2: the direction of [remap] *)

(** C2 at a concrete input: [lineX.remap(lineY, (2,3))] is (4,-2), the
    coordinates in the frame of [lineX] of the point that has the coordinates
    (2,3) in the frame of [lineY]; the claim gives (-3,1), the coordinates in
    the frame of [lineY] of the point that has (2,3) in the frame of
    [lineX]. *)
Theorem remap_at_lineX_lineY :
  Line.remap lineX lineY coord23 = Line.mkL 4 (-2) ∧
  Line.map lineX (Line.unmap lineY coord23) = Line.mkL 4 (-2) ∧
  Line.map lineY (Line.unmap lineX coord23) = Line.mkL (-3) 1.
Proof. by vm_compute. Qed.

(** ** C4: a hull that loses a point *)

(** C4 at a concrete input.  B = (2^27+1, 2^27), A = (0,0) and
    P = (2^27+2, 2^27+1) are not collinear: [side A B P] is 1 in exact
    arithmetic, so the polyline B, A, P is simple.  In binary64 the two
    products of [side] round to the same number and [side A B P] is 0; the
    third [offer] takes the collinear branch, evicts A and leaves the hull
    [P, B], and A, whose x is below the x of both nodes, is outside it. *)
Theorem hull_loses_offered_point :
  Geometry.side (num := R) hullA hullB hullP = 1%R ∧
  Geometry.side (num := float) hullA hullB hullP = 0 ∧
  ∃ h, offers SimplePathHull.empty 0 [hullB; hullA; hullP] = Some h ∧
       polygon h = [hullP; hullB] ∧
       Forall (λ v, PVector.x hullA <? PVector.x v = true) (polygon h).
Proof.
  split_and!.
  - unfold Geometry.side, PVector.per, PVector.span, PVector.sub, hullA, hullB,
      hullP, ptZ. simpl. lra.
  - by vm_compute.
  - eexists. split; [by vm_compute|]. split; [by vm_compute|].
    repeat constructor.
Qed.

(** ** C6: a single point far from the start of the sums *)


(** ** C7: an error box whose error goes down *)

(** C7, as stated, fails: in the scan for the point (0,0) appended after
    (10,2), (20,0), (10,3), with threshold 3, the box is extended for
    i = 2, 1 and 0 (the trace has an entry for each), and [error()] is 4
    after the [extend] for i = 1 and 3.0625 after the [extend] for i = 0. *)
Lemma error_box_error_decreases :
  (∃ s, build 3 [] zigzag = Some s ∧
        trace s = [accept; accept; accept; pioneer_weak]) ∧
  sc_box <$> scan zigzag zigzagFitter 9 3 (pt 0 0) (Some 0%nat) 3
               (mkScan [mkTag 0 (-1) false; mkTag 1 0 false; mkTag 2 1 false]
                       zigzagBox3
                       (SimplePathHull.mk
                          [mkNode (mkRef 3 (pt 0 0)) 0 0 true] (Some 0%nat) 1)
                       2 2 [accept])
  = Some zigzagBox0 ∧
  ErrorBox.error zigzagBox1 = 4 ∧
  ErrorBox.error zigzagBox0 = 3.0625 ∧
  (ErrorBox.error zigzagBox0 <? ErrorBox.error zigzagBox1) = true.
Proof.
  split_and!; [|by vm_compute..].
  eexists. split; by vm_compute.
Qed.

(** ** C8: a threshold that is not positive *)

(** C8, as stated, fails: the constructor returns with the threshold -1 (and
    with 0); nothing is thrown. *)
Lemma nonpositive_threshold_accepted :
  (-1 <=? 0) = true ∧
  (∃ s, PathSimplifier.new ([] : Path float) (-1) = Some s ∧
        thresholdSq s = 1) ∧
  (∃ s, PathSimplifier.new ([] : Path float) 0 = Some s ∧
        thresholdSq s = 0) ∧
  PathSimplifier.new ([] : Path float) (-1) ≠ None.
Proof.
  split_and!; [by vm_compute|eexists; split; by vm_compute..|by vm_compute].
Qed.

(** ** The right-angle scenario *)

(** For (0,0), (10,0), (10,10) and threshold 1 no edge spans the corner:
    [getSimplified] returns the three points, the last one first. *)
Theorem right_angle_scenario :
  simplify 1 rightAngle = Some [pt 10 10; pt 10 0; pt 0 0].
Proof. by vm_compute. Qed.

End Binary64.

(** * Facts about the running sums *)

Section Sums.
Context {num : Type} `{Number num}.
Import LineFitter.

Lemma at_of_nat (sums : list num) (i : nat) :
  at_ sums (Z.of_nat i) = default nundef (sums !! i).
Proof. unfold at_. by rewrite lookupZ_of_nat. Qed.

Lemma running_snoc (sums vals : list num) (v : num) :
  running sums vals →
  running (sums ++ [nadd (at_ sums (Z.of_nat (length vals))) v]) (vals ++ [v]).
Proof.
  intros [Hlen Hstep]. split.
  { rewrite !length_app. simpl. lia. }
  intros i w Hi.
  replace (Z.of_nat i + 1)%Z with (Z.of_nat (S i)) by lia.
  rewrite !at_of_nat.
  apply lookup_snoc_Some in Hi as [[Hlt Hi]|[-> <-]].
  - rewrite !lookup_app_l by lia.
    specialize (Hstep i w Hi).
    replace (Z.of_nat i + 1)%Z with (Z.of_nat (S i)) in Hstep by lia.
    by rewrite !at_of_nat in Hstep.
  - rewrite (lookup_app_l sums _ (length vals)) by lia.
    rewrite (list_lookup_middle sums [] _ (S (length vals))) by lia. simpl.
    done.
Qed.

Lemma new_running (path : Path num) :
  pathLength (LineFitter.new path) = length path ∧
  running (sumsX (LineFitter.new path)) (PVector.x <$> path) ∧
  running (sumsY (LineFitter.new path)) (PVector.y <$> path) ∧
  running (sumsXX (LineFitter.new path))
          ((λ p, nmul (PVector.x p) (PVector.x p)) <$> path) ∧
  running (sumsYY (LineFitter.new path))
          ((λ p, nmul (PVector.y p) (PVector.y p)) <$> path) ∧
  running (sumsXY (LineFitter.new path))
          ((λ p, nmul (PVector.x p) (PVector.y p)) <$> path).
Proof.
  unfold LineFitter.new.
  induction path as [|q path IH] using rev_ind.
  { simpl. split_and!; [done|split; [done|by intros []]..]. }
  rewrite foldl_app. simpl.
  set (f := foldl onAddPoint onClear path) in *.
  destruct IH as (Hl & HX & HY & HXX & HYY & HXY).
  unfold onAddPoint. simpl. rewrite !fmap_app, length_app. simpl.
  rewrite Hl.
  split_and!; [lia|..].
  - rewrite <- (length_fmap PVector.x path) at 1. by apply running_snoc.
  - rewrite <- (length_fmap PVector.y path) at 1. by apply running_snoc.
  - rewrite <- (length_fmap (λ p, nmul (PVector.x p) (PVector.x p)) path) at 1.
    by apply running_snoc.
  - rewrite <- (length_fmap (λ p, nmul (PVector.y p) (PVector.y p)) path) at 1.
    by apply running_snoc.
  - rewrite <- (length_fmap (λ p, nmul (PVector.x p) (PVector.y p)) path) at 1.
    by apply running_snoc.
Qed.

End Sums.

(** * Exact arithmetic *)

Section ExactArithmetic.
Import LineFitter.
Local Open Scope R_scope.

Lemma EPSILON_pos : 0 < Exact.EPSILON.
Proof. unfold Exact.EPSILON. apply Rinv_0_lt_compat, pow_lt. lra. Qed.





Lemma min5_le (a b c d e x : R) :
  x = a ∨ x = b ∨ x = c ∨ x = d ∨ x = e → ErrorBox.min5 a b c d e <= x.
Proof.
  unfold ErrorBox.min5. simpl.
  pose proof (Rmin_l a b). pose proof (Rmin_r a b).
  pose proof (Rmin_l (Rmin a b) c). pose proof (Rmin_r (Rmin a b) c).
  pose proof (Rmin_l (Rmin (Rmin a b) c) d).
  pose proof (Rmin_r (Rmin (Rmin a b) c) d).
  pose proof (Rmin_l (Rmin (Rmin (Rmin a b) c) d) e).
  pose proof (Rmin_r (Rmin (Rmin (Rmin a b) c) d) e).
  intros [->|[->|[->|[->| ->]]]]; lra.
Qed.

Lemma max5_ge (a b c d e x : R) :
  x = a ∨ x = b ∨ x = c ∨ x = d ∨ x = e → x <= ErrorBox.max5 a b c d e.
Proof.
  unfold ErrorBox.max5. simpl.
  pose proof (Rmax_l a b). pose proof (Rmax_r a b).
  pose proof (Rmax_l (Rmax a b) c). pose proof (Rmax_r (Rmax a b) c).
  pose proof (Rmax_l (Rmax (Rmax a b) c) d).
  pose proof (Rmax_r (Rmax (Rmax a b) c) d).
  pose proof (Rmax_l (Rmax (Rmax (Rmax a b) c) d) e).
  pose proof (Rmax_r (Rmax (Rmax (Rmax a b) c) d) e).
  intros [->|[->|[->|[->| ->]]]]; lra.
Qed.

Lemma square_le_max (lo hi x : R) :
  lo <= x → x <= hi → x * x <= Rmax (lo * lo) (hi * hi).
Proof.
  intros Hlo Hhi.
  pose proof (Rmax_l (lo * lo) (hi * hi)).
  pose proof (Rmax_r (lo * lo) (hi * hi)).
  destruct (Rle_dec 0 x); nra.
Qed.

(** C7 as the code has it, in exact arithmetic: after [extend(line, p)],
    [error()] is not below the squared distance to [line] of the point [p] or
    of a corner of the box it extended (each squared distance being t^2 (a^2 +
    b^2) for the coordinate t in the frame of [line]), and it is not
    negative.  It can be below the [error()] of the box before the call,
    which is measured from the line of that box. *)
Theorem error_bounds_extended_points
  (box : ErrorBox R) (line : Line R) (p : PVector R) :
  let box' := ErrorBox.extend box line p in
  let n2 := Line.a line * Line.a line + Line.b line * Line.b line in
  0 <= ErrorBox.error box' ∧
  Line.t (Line.map line p) * Line.t (Line.map line p) * n2
  <= ErrorBox.error box' ∧
  ∀ s t, s = ErrorBox.s0 box ∨ s = ErrorBox.s1 box →
         t = ErrorBox.t0 box ∨ t = ErrorBox.t1 box →
         Line.t (Line.remapc line (ErrorBox.line box) s t)
         * Line.t (Line.remapc line (ErrorBox.line box) s t) * n2
         <= ErrorBox.error box'.
Proof.
  intros box' n2.
  assert (0 <= n2) as Hn2 by (unfold n2; nra).
  assert (∀ x, x = Line.t (Line.map line p)
               ∨ x = Line.t (Line.remapc line (ErrorBox.line box)
                                         (ErrorBox.s0 box) (ErrorBox.t0 box))
               ∨ x = Line.t (Line.remapc line (ErrorBox.line box)
                                         (ErrorBox.s0 box) (ErrorBox.t1 box))
               ∨ x = Line.t (Line.remapc line (ErrorBox.line box)
                                         (ErrorBox.s1 box) (ErrorBox.t0 box))
               ∨ x = Line.t (Line.remapc line (ErrorBox.line box)
                                         (ErrorBox.s1 box) (ErrorBox.t1 box)) →
               x * x * n2 <= ErrorBox.error box') as Hbound.
  { intros x Hx. unfold ErrorBox.error, box', ErrorBox.extend. simpl. fold n2.
    apply Rmult_le_compat_r; [done|].
    apply square_le_max; [by apply min5_le|by apply max5_ge]. }
  split_and!.
  - pose proof (Hbound _ (or_introl eq_refl)) as Hb.
    assert (0 <= Line.t (Line.map line p) * Line.t (Line.map line p) * n2)
      by (apply Rmult_le_pos; [nra|done]).
    lra.
  - apply Hbound. auto.
  - intros s t [->| ->] [->| ->]; apply Hbound; auto 6.
Qed.

End ExactArithmetic.

(** * Exact arithmetic: the tests *)

Section ExactTests.
Local Open Scope R_scope.

Lemma ltb_true (a b : R) : Exact.ltb a b = true ↔ a < b.
Proof. unfold Exact.ltb. destruct (Rlt_dec a b); split; (done || lra). Qed.

Lemma ltb_false (a b : R) : Exact.ltb a b = false ↔ b <= a.
Proof. unfold Exact.ltb. destruct (Rlt_dec a b); split; (done || lra). Qed.

Lemma leb_true (a b : R) : Exact.leb a b = true ↔ a <= b.
Proof. unfold Exact.leb. destruct (Rle_dec a b); split; (done || lra). Qed.

Lemma leb_false (a b : R) : Exact.leb a b = false ↔ b < a.
Proof. unfold Exact.leb. destruct (Rle_dec a b); split; (done || lra). Qed.

Lemma eqb_true (a b : R) : Exact.eqb a b = true ↔ a = b.
Proof. unfold Exact.eqb. destruct (Req_dec_T a b); split; (done || lra). Qed.

Lemma eqb_false (a b : R) : Exact.eqb a b = false ↔ a ≠ b.
Proof. unfold Exact.eqb. destruct (Req_dec_T a b); split; (done || lra). Qed.

End ExactTests.

(** * Exact arithmetic: geometry *)

Section ExactGeometry.
Local Open Scope R_scope.
Implicit Types (p q : PVector R) (l : Line R).

Lemma Rabs_zero (x : R) : Rabs x <= 0 → x = 0.
Proof.
  intros Hx. destruct (Req_dec x 0) as [|Hne]; [done|].
  apply Rabs_pos_lt in Hne. lra.
Qed.

Lemma sq_sum_nonneg (u v : R) : 0 <= u * u + v * v.
Proof. nra. Qed.

Lemma proper_pos l : proper l → 0 < Line.a l * Line.a l + Line.b l * Line.b l.
Proof. unfold proper. nra. Qed.

Lemma project_onLine p l : proper l → onLine l (Geometry.project p l).
Proof.
  intros Hl. destruct l as [a b c], p as [x y]. unfold proper in Hl.
  unfold onLine, Geometry.project. simpl in *. field. done.
Qed.

Lemma project_distSq p l :
  proper l →
  PVector.distSq p (Geometry.project p l)
  = (Line.a l * PVector.x p + Line.b l * PVector.y p + Line.c l)
    * (Line.a l * PVector.x p + Line.b l * PVector.y p + Line.c l)
    / (Line.a l * Line.a l + Line.b l * Line.b l).
Proof.
  intros Hl. destruct l as [a b c], p as [x y]. unfold proper in Hl.
  unfold Geometry.project, PVector.distSq. simpl in *. field. done.
Qed.

(** X12: [Geometry.project]: the projection lies on the line, its squared
    distance to the point is (a x + b y + c)^2 / (a^2 + b^2), and no point of
    the line is nearer. *)
Theorem project_is_nearest p l :
  proper l →
  onLine l (Geometry.project p l) ∧
  PVector.distSq p (Geometry.project p l)
  = (Line.a l * PVector.x p + Line.b l * PVector.y p + Line.c l)
    * (Line.a l * PVector.x p + Line.b l * PVector.y p + Line.c l)
    / (Line.a l * Line.a l + Line.b l * Line.b l) ∧
  ∀ q, onLine l q →
       PVector.distSq p (Geometry.project p l) <= PVector.distSq p q.
Proof.
  intros Hl. pose proof (proper_pos l Hl) as Hn.
  split_and!; [by apply project_onLine|by apply project_distSq|].
  intros q Hq. rewrite project_distSq by done.
  destruct l as [a b c], p as [x y], q as [u v].
  unfold onLine, PVector.distSq in *. simpl in *.
  apply (Rmult_le_reg_r (a * a + b * b)); [done|].
  unfold Rdiv. rewrite Rmult_assoc, Rinv_l, Rmult_1_r by lra.
  assert (a * x + b * y + c = a * (x - u) + b * (y - v)) as -> by lra.
  pose proof (Rle_0_sqr (a * (y - v) - b * (x - u))) as Hsq.
  unfold Rsqr in Hsq. nra.
Qed.


(** X13: [Geometry.intersection]: for two lines that are not parallel, the point
    returned lies on both. *)
Theorem intersection_on_both_lines (l1 l2 : Line R) :
  Line.a l1 * Line.b l2 - Line.a l2 * Line.b l1 ≠ 0 →
  onLine l1 (Geometry.intersection l1 l2) ∧
  onLine l2 (Geometry.intersection l1 l2).
Proof.
  destruct l1 as [a1 b1 c1], l2 as [a2 b2 c2]. simpl. intros Hdet.
  unfold Geometry.intersection, onLine. simpl.
  destruct (Exact.ltb (Rmax (Rabs a1) (Rabs b1)) (Rmax (Rabs a2) (Rabs b2)))
    eqn:H1.
  - apply ltb_true in H1.
    destruct (Exact.ltb (Rabs a2) (Rabs b2)) eqn:H2; simpl.
    + apply ltb_true in H2.
      assert (b2 ≠ 0).
      { intros ->. rewrite Rabs_R0 in H2. pose proof (Rabs_pos a2). lra. }
      split; field; split; (done || lra).
    + apply ltb_false in H2.
      assert (a2 ≠ 0).
      { intros ->. rewrite Rabs_R0 in *.
        assert (Rabs b2 = 0) as Hb by (pose proof (Rabs_pos b2); lra).
        rewrite Hb in H1. rewrite (Rmax_left 0 0) in H1 by lra.
        pose proof (Rmax_l (Rabs a1) (Rabs b1)). pose proof (Rabs_pos a1). lra. }
      split; field; split; (done || lra).
  - apply ltb_false in H1.
    destruct (Exact.ltb (Rabs a1) (Rabs b1)) eqn:H2; simpl.
    + apply ltb_true in H2.
      assert (b1 ≠ 0).
      { intros ->. rewrite Rabs_R0 in H2. pose proof (Rabs_pos a1). lra. }
      split; field; split; (done || lra).
    + apply ltb_false in H2.
      assert (a1 ≠ 0).
      { intros ->. rewrite Rabs_R0 in *.
        apply Rabs_zero in H2. subst b1. lra. }
      split; field; split; (done || lra).
Qed.


(** *** Line coordinates *)

(* of a proper line, the coefficient that [map] divides by is not 0 *)
Lemma map_pivot l :
  proper l →
  (Exact.ltb (Rabs (Line.b l)) (Rabs (Line.a l)) = true ∧ Line.a l ≠ 0) ∨
  (Exact.ltb (Rabs (Line.b l)) (Rabs (Line.a l)) = false ∧ Line.b l ≠ 0).
Proof.
  intros Hl. destruct (Exact.ltb _ _) eqn:Hab; [left|right]; split; try done.
  - apply ltb_true in Hab. intros Ha. rewrite Ha, Rabs_R0 in Hab.
    pose proof (Rabs_pos (Line.b l)). lra.
  - apply ltb_false in Hab. intros Hb. rewrite Hb, Rabs_R0 in Hab.
    apply Rabs_zero in Hab. unfold proper in Hl. rewrite Hab, Hb in Hl. lra.
Qed.

(* [map] without its case distinction *)
Lemma map_exact l p :
  proper l →
  Line.map l p
  = Line.mkL
      ((Line.a l * PVector.y p - Line.b l * PVector.x p)
       / (Line.a l * Line.a l + Line.b l * Line.b l))
      ((Line.a l * PVector.x p + Line.b l * PVector.y p + Line.c l)
       / (Line.a l * Line.a l + Line.b l * Line.b l)).
Proof.
  intros Hl. destruct (map_pivot l Hl) as [[Hab Hz]|[Hab Hz]];
    destruct l as [a b c], p as [x y]; unfold proper in Hl;
    unfold Line.map; simpl in *; rewrite Hab; f_equal; field; done.
Qed.

Lemma unmap_map l p : proper l → Line.unmap l (Line.map l p) = p.
Proof.
  intros Hl. rewrite map_exact by done.
  destruct l as [a b c], p as [x y]. unfold proper in Hl.
  unfold Line.unmap, Line.unmapc. simpl in *. f_equal; field; done.
Qed.

Lemma map_unmap l (v : LVector R) : proper l → Line.map l (Line.unmap l v) = v.
Proof.
  intros Hl. rewrite map_exact by done.
  destruct l as [a b c], v as [s t]. unfold proper in Hl.
  unfold Line.unmap, Line.unmapc. simpl in *. f_equal; field; done.
Qed.

(** X14: [Line.map] and [Line.unmap] are inverse to each other on a line that has
    a direction, and so are [remap] in one direction and in the other. *)
Theorem map_unmap_round_trip l p (v : LVector R) :
  proper l →
  Line.unmap l (Line.map l p) = p ∧ Line.map l (Line.unmap l v) = v ∧
  ∀ l', proper l' → Line.remap l l' (Line.remap l' l v) = v.
Proof.
  intros Hl. split_and!; [by apply unmap_map|by apply map_unmap|].
  intros l' Hl'. unfold Line.remap, Line.remapc.
  change (Line.unmapc l (Line.s v) (Line.t v)) with (Line.unmap l v).
  match goal with |- context [Line.unmapc l' (Line.s ?w) (Line.t ?w)] =>
    change (Line.unmapc l' (Line.s w) (Line.t w)) with (Line.unmap l' w)
  end.
  by rewrite unmap_map, map_unmap.
Qed.

(** X15: The frame of a line, as the header of line.ts defines it: [unmapc(s, t)]
    is O + s T + t N for the origin O, the tangent T and the normal N of the
    line; O is the projection of (0, 0) onto the line, it lies on the line
    and has the coordinates (0, 0); T and N are orthogonal. *)
Theorem line_frame l (s t : R) :
  proper l →
  PVector.x (Line.unmapc l s t)
  = PVector.x (Line.origin l) + s * PVector.x (Line.tangent l)
    + t * PVector.x (Line.normal l) ∧
  PVector.y (Line.unmapc l s t)
  = PVector.y (Line.origin l) + s * PVector.y (Line.tangent l)
    + t * PVector.y (Line.normal l) ∧
  Line.origin l = Geometry.project (PVector.mk 0 0) l ∧
  onLine l (Line.origin l) ∧
  Line.map l (Line.origin l) = Line.mkL 0 0 ∧
  PVector.x (Line.tangent l) * PVector.x (Line.normal l)
  + PVector.y (Line.tangent l) * PVector.y (Line.normal l) = 0.
Proof.
  intros Hl. rewrite map_exact by done.
  destruct l as [a b c]. unfold proper in Hl.
  unfold Line.unmapc, Line.origin, Line.tangent, Line.normal, Geometry.project,
    onLine. simpl in *.
  split_and!; try (field; done); try (f_equal; field; done); ring.
Qed.


(** *** Segment intersection *)

(* what [Geometry.intersect] tests, in terms of [side]: c and d are not
   strictly on one side of the line a b, a and b are not strictly on one side
   of the line c d, and, when both products vanish, c or d is within the
   length of a b from a *)
Lemma intersect_exact (a b c d : PVector R) :
  Geometry.intersect a b c d = true ↔
  Geometry.side a b c * Geometry.side a b d <= 0 ∧
  Geometry.side c d a * Geometry.side c d b <= 0 ∧
  (Geometry.side a b c * Geometry.side a b d = 0 →
   Geometry.side c d a * Geometry.side c d b = 0 →
   PVector.distSq a c <= PVector.distSq a b ∨
   PVector.distSq a d < PVector.distSq a b).
Proof.
  destruct a as [x1 y1], b as [x2 y2], c as [x3 y3], d as [x4 y4].
  unfold Geometry.intersect, Geometry.side, PVector.per, PVector.span,
    PVector.sub, PVector.magSq, PVector.distSq. simpl.
  set (sab := ((x2 - x1) * (y3 - y1) - (x3 - x1) * (y2 - y1))
              * ((x2 - x1) * (y4 - y1) - (x4 - x1) * (y2 - y1))).
  set (scd := ((x4 - x3) * (y3 - y1) - (x3 - x1) * (y4 - y3))
              * ((x4 - x3) * (y2 - y3) - (x2 - x3) * (y4 - y3))).
  replace (((x4 - x3) * (y1 - y3) - (x1 - x3) * (y4 - y3))
           * ((x4 - x3) * (y2 - y3) - (x2 - x3) * (y4 - y3)))
    with (- scd) by (unfold scd; ring).
  replace ((x1 - x3) * (x1 - x3) + (y1 - y3) * (y1 - y3))
    with ((x3 - x1) * (x3 - x1) + (y3 - y1) * (y3 - y1)) by ring.
  replace ((x1 - x4) * (x1 - x4) + (y1 - y4) * (y1 - y4))
    with ((x4 - x1) * (x4 - x1) + (y4 - y1) * (y4 - y1)) by ring.
  replace ((x1 - x2) * (x1 - x2) + (y1 - y2) * (y1 - y2))
    with ((x2 - x1) * (x2 - x1) + (y2 - y1) * (y2 - y1)) by ring.
  destruct (Exact.ltb 0 sab) eqn:H1.
  { apply ltb_true in H1. split; [done|]. lra. }
  apply ltb_false in H1.
  destruct (Exact.ltb scd 0) eqn:H2.
  { apply ltb_true in H2. split; [done|]. lra. }
  apply ltb_false in H2.
  destruct (Exact.eqb sab 0) eqn:H3; simpl.
  - apply eqb_true in H3.
    destruct (Exact.eqb scd 0) eqn:H4; simpl.
    + apply eqb_true in H4. rewrite orb_true_iff, leb_true, ltb_true.
      split; [intros Hor; split_and!; [lra..|done]|].
      intros (_ & _ & Hor). apply Hor; lra.
    + apply eqb_false in H4. split; [|done]. intros _. split_and!; lra.
  - apply eqb_false in H3. split; [|done]. intros _. split_and!; lra.
Qed.

Lemma div_by_product (n d : R) : d ≠ 0 → 0 <= n * d → 0 <= n / d.
Proof.
  intros Hd Hnd. replace (n / d) with (n * d / (d * d)) by (field; done).
  apply Rmult_le_pos; [done|]. apply Rlt_le, Rinv_0_lt_compat. nra.
Qed.

(** X16: [Geometry.intersect] on segments in general position (the two products
    of sides are not both 0): it answers true exactly when the closed
    segments a b and c d have a common point. *)
Theorem intersect_iff_common_point (a b c d : PVector R) :
  ¬ (Geometry.side a b c * Geometry.side a b d = 0 ∧
     Geometry.side c d a * Geometry.side c d b = 0) →
  Geometry.intersect a b c d = true ↔ ∃ p, onSegment a b p ∧ onSegment c d p.
Proof.
  rewrite intersect_exact.
  destruct a as [x1 y1], b as [x2 y2], c as [x3 y3], d as [x4 y4].
  unfold Geometry.side, PVector.per, PVector.span, PVector.sub, onSegment.
  simpl.
  set (P1 := (x2 - x1) * (y3 - y1) - (x3 - x1) * (y2 - y1)).
  set (P2 := (x2 - x1) * (y4 - y1) - (x4 - x1) * (y2 - y1)).
  set (Q1 := (x4 - x3) * (y1 - y3) - (x1 - x3) * (y4 - y3)).
  set (Q2 := (x4 - x3) * (y2 - y3) - (x2 - x3) * (y4 - y3)).
  set (D := (x2 - x1) * (y4 - y3) - (x4 - x3) * (y2 - y1)).
  assert (P2 - P1 = D) as HP by (unfold P1, P2, D; ring).
  assert (Q1 - Q2 = D) as HQ by (unfold Q1, Q2, D; ring).
  intros Hgen. split.
  - intros (Hab & Hcd & _).
    assert (D ≠ 0) as HD.
    { intros HD0. apply Hgen. split; nra. }
    exists (PVector.mk (x1 + Q1 / D * (x2 - x1)) (y1 + Q1 / D * (y2 - y1))).
    split.
    + exists (Q1 / D). simpl. split_and!; [| |done..].
      * apply div_by_product; [done|]. nra.
      * assert (0 <= (- Q2) / D) as H1 by (apply div_by_product; [done|nra]).
        replace (- Q2 / D) with (1 - Q1 / D) in H1
          by (rewrite <- HQ; field; lra).
        lra.
    + exists (- P1 / D). simpl. split_and!.
      * apply div_by_product; [done|]. nra.
      * assert (0 <= P2 / D) as H1 by (apply div_by_product; [done|nra]).
        replace (P2 / D) with (1 - - P1 / D) in H1
          by (rewrite <- HP; field; lra).
        lra.
      * unfold Q1, P1, D in *. field. done.
      * unfold Q1, P1, D in *. field. done.
  - intros ([x y] & (t & Ht & Hx & Hy) & (u & Hu & Hx' & Hy')). simpl in *.
    assert (x3 - x1 = t * (x2 - x1) - u * (x4 - x3)) as Hcx by lra.
    assert (y3 - y1 = t * (y2 - y1) - u * (y4 - y3)) as Hcy by lra.
    assert (P1 = - u * D) as HP1 by (unfold P1, D; rewrite Hcx, Hcy; ring).
    assert (Q1 = t * D) as HQ1.
    { unfold Q1, D. replace (y1 - y3) with (- (y3 - y1)) by ring.
      replace (x1 - x3) with (- (x3 - x1)) by ring. rewrite Hcx, Hcy. ring. }
    assert (P2 = (1 - u) * D) as HP2 by lra.
    assert (Q2 = - (1 - t) * D) as HQ2 by lra.
    assert (0 <= u * (1 - u)) by nra.
    assert (0 <= t * (1 - t)) by nra.
    assert (0 <= D * D) by nra.
    split_and!.
    + rewrite HP1, HP2. nra.
    + rewrite HQ1, HQ2. nra.
    + intros Hz1 Hz2. exfalso. apply Hgen. done.
Qed.

(** X17: [Geometry.intersect] on segments that share an end point: when the
    shared point is the first end of both, the answer is true; when it is the
    second end of both, the answer is true only if c is not farther from a
    than b is. *)
Theorem intersect_shared_end (a b c : PVector R) :
  Geometry.intersect a b a c = true ∧
  (Geometry.intersect a b c b = true ↔
   PVector.distSq a c <= PVector.distSq a b).
Proof.
  rewrite !intersect_exact.
  destruct a as [x1 y1], b as [x2 y2], c as [x3 y3].
  unfold Geometry.side, PVector.per, PVector.span, PVector.sub, PVector.distSq.
  simpl. split.
  - split_and!; [apply Req_le; ring..|]. intros _ _. left.
    replace ((x1 - x1) * (x1 - x1) + (y1 - y1) * (y1 - y1)) with 0 by ring.
    apply sq_sum_nonneg.
  - split.
    + intros (_ & _ & Hor). destruct Hor as [|]; [ring..|done|lra].
    + intros Hle. split_and!; [apply Req_le; ring..|auto].
Qed.

(** *** clamp *)

(** X18: [clamp(x, a, b)] for a <= b: the result lies in [a, b]; it is x when x
    lies there; clamping twice is clamping once. *)
Theorem clamp_within (x a b : R) :
  a <= b →
  a <= clamp x a b <= b ∧
  (a <= x <= b → clamp x a b = x) ∧
  clamp (clamp x a b) a b = clamp x a b.
Proof.
  intros Hab. unfold clamp. simpl.
  destruct (Exact.ltb x a) eqn:H1;
    [apply ltb_true in H1|apply ltb_false in H1].
  - rewrite (proj2 (ltb_false a a)), (proj2 (ltb_false b a)) by lra.
    split_and!; [lra..|done].
  - destruct (Exact.ltb b x) eqn:H2;
      [apply ltb_true in H2|apply ltb_false in H2].
    + rewrite (proj2 (ltb_false b a)), (proj2 (ltb_false b b)) by lra.
      split_and!; [lra..|done].
    + rewrite ?(proj2 (ltb_false x a)), ?(proj2 (ltb_false b x)) by lra.
      split_and!; [lra..|done|done].
Qed.

End ExactGeometry.

(** * Exact arithmetic: the fitted line *)

Section ExactFit.
Import LineFitter.
Local Open Scope R_scope.

Lemma fitLine_proper (f : LineFitter R) (i j : Z) : proper (fitLine f i j).
Proof.
  unfold proper.
  destruct (fitLine_unit f i j) as [Ha|[Hb|[Ha Hb]]];
    simpl in *; rewrite ?Ha, ?Hb; nra.
Qed.

Lemma sumR_app (l1 l2 : list R) : sumR (l1 ++ l2) = sumR l1 + sumR l2.
Proof. induction l1 as [|x l1 IH]; simpl; [lra|]. rewrite IH. lra. Qed.

(* the entry [k] of running sums is the entry 0 plus the first [k] values *)
Lemma running_prefix (sums vals : list R) (k : nat) :
  running sums vals → k ≤ length vals →
  at_ sums (Z.of_nat k) = at_ sums 0 + sumR (take k vals).
Proof.
  intros [_ Hstep]. induction k as [|k IH]; intros Hk.
  { rewrite take_0. change (Z.of_nat 0) with 0%Z. unfold sumR. simpl. lra. }
  destruct (lookup_lt_is_Some_2 vals k) as [v Hv]; [lia|].
  rewrite (take_S_r _ _ _ Hv), sumR_app. simpl.
  replace (Z.of_nat (S k)) with (Z.of_nat k + 1)%Z by lia.
  rewrite (Hstep k v Hv). simpl. rewrite IH by lia. lra.
Qed.

(* a range sum is the sum of the values of the indices i, ..., j *)
Lemma rangeSum_slice (sums vals : list R) (i j : nat) :
  running sums vals → i ≤ j → (j < length vals)%nat →
  rangeSum sums (Z.of_nat i) (Z.of_nat j) = sumR (slice i j vals).
Proof.
  intros Hrun Hij Hj. unfold rangeSum, slice.
  replace (Z.of_nat j + 1)%Z with (Z.of_nat (S j)) by lia.
  rewrite (running_prefix _ _ (S j) Hrun), (running_prefix _ _ i Hrun) by lia.
  simpl nsub.
  rewrite <- (take_drop i (take (S j) vals)) at 1.
  rewrite sumR_app, take_take, Nat.min_l by lia.
  rewrite take_drop_commute.
  replace (i + (S j - i))%nat with (S j) by lia. lra.
Qed.


Lemma slice_fmap {A B : Type} (f : A → B) (i j : nat) (l : list A) :
  slice i j (f <$> l) = f <$> slice i j l.
Proof. unfold slice. by rewrite fmap_take, fmap_drop. Qed.

Lemma slice_length {A : Type} (i j : nat) (l : list A) :
  i ≤ j → (j < length l)%nat → length (slice i j l) = (S j - i)%nat.
Proof. intros Hij Hj. unfold slice. rewrite length_take, length_drop. lia. Qed.

(* the statistics from which [fitLine(i, j)] computes its line are the sums
   over the points i, ..., j *)
Lemma fitLine_stats (path : Path R) (i j : nat) :
  i ≤ j → (j < length path)%nat →
  fitLine (LineFitter.new path) (Z.of_nat i) (Z.of_nat j)
  = fitLineStat
      (sumR (PVector.x <$> slice i j path))
      (sumR (PVector.y <$> slice i j path))
      (sumR ((λ p, PVector.x p * PVector.x p) <$> slice i j path))
      (sumR ((λ p, PVector.y p * PVector.y p) <$> slice i j path))
      (sumR ((λ p, PVector.x p * PVector.y p) <$> slice i j path))
      (Z.of_nat (length (slice i j path))).
Proof.
  intros Hij Hj.
  destruct (new_running path) as (_ & HX & HY & HXX & HYY & HXY).
  unfold fitLine.
  rewrite (rangeSum_slice _ _ i j HX), (rangeSum_slice _ _ i j HY),
    (rangeSum_slice _ _ i j HXX), (rangeSum_slice _ _ i j HYY),
    (rangeSum_slice _ _ i j HXY) by (done || by rewrite length_fmap).
  rewrite !slice_fmap, slice_length by done.
  f_equal. lia.
Qed.

(** X19: The range sums of a fitter: for the points i, ..., j of the path it was
    made for, [rangeSum] on each of its five arrays is the sum of x, of y, of
    x^2, of y^2 and of x y over these points. *)
Theorem range_sums_are_sums (path : Path R) (i j : nat) :
  i ≤ j → (j < length path)%nat →
  rangeSum (sumsX (LineFitter.new path)) (Z.of_nat i) (Z.of_nat j)
  = sumR (PVector.x <$> slice i j path) ∧
  rangeSum (sumsY (LineFitter.new path)) (Z.of_nat i) (Z.of_nat j)
  = sumR (PVector.y <$> slice i j path) ∧
  rangeSum (sumsXX (LineFitter.new path)) (Z.of_nat i) (Z.of_nat j)
  = sumR ((λ p, PVector.x p * PVector.x p) <$> slice i j path) ∧
  rangeSum (sumsYY (LineFitter.new path)) (Z.of_nat i) (Z.of_nat j)
  = sumR ((λ p, PVector.y p * PVector.y p) <$> slice i j path) ∧
  rangeSum (sumsXY (LineFitter.new path)) (Z.of_nat i) (Z.of_nat j)
  = sumR ((λ p, PVector.x p * PVector.y p) <$> slice i j path).
Proof.
  intros Hij Hj.
  destruct (new_running path) as (_ & HX & HY & HXX & HYY & HXY).
  rewrite (rangeSum_slice _ _ i j HX), (rangeSum_slice _ _ i j HY),
    (rangeSum_slice _ _ i j HXX), (rangeSum_slice _ _ i j HYY),
    (rangeSum_slice _ _ i j HXY) by (done || by rewrite length_fmap).
  by rewrite !slice_fmap.
Qed.

(* the three cases of the private [fitLine], for a positive number of points *)
Lemma fitLineStat_cases (sumX sumY sumXX sumYY sumXY : R) (n : Z) :
  (0 < n)%Z →
  let va := IZR n * sumXX - sumX * sumX in
  let vb := IZR n * sumYY - sumY * sumY in
  let l := fitLineStat sumX sumY sumXX sumYY sumXY n in
  (va <= Exact.EPSILON ∧ vb <= Exact.EPSILON ∧
   l = Line.mk (-1) (-1) ((sumX + sumY) / IZR n)) ∨
  (0 < vb ∧ va < vb ∧
   l = Line.mk 1 ((sumX * sumY - IZR n * sumXY) / vb)
               (- (sumY * ((sumX * sumY - IZR n * sumXY) / vb) + sumX) / IZR n)) ∨
  (0 < va ∧ vb <= va ∧
   l = Line.mk ((sumX * sumY - IZR n * sumXY) / va) 1
               (- (sumX * ((sumX * sumY - IZR n * sumXY) / va) + sumY) / IZR n)).
Proof.
  intros Hn va vb l. pose proof EPSILON_pos as He.
  unfold l, fitLineStat. rewrite (proj2 (Z.leb_gt _ _)) by done. simpl.
  fold va vb.
  pose proof (Rmax_l va 0). pose proof (Rmax_r va 0).
  pose proof (Rmax_l vb 0). pose proof (Rmax_r vb 0).
  destruct (Exact.leb (Rmax va 0) Exact.EPSILON) eqn:Ha;
    [apply leb_true in Ha|apply leb_false in Ha]; simpl.
  - destruct (Exact.leb (Rmax vb 0) Exact.EPSILON) eqn:Hb;
      [apply leb_true in Hb|apply leb_false in Hb]; simpl.
    + left. split_and!; [lra..|done].
    + assert (Rmax vb 0 = vb) as Hvb.
      { unfold Rmax in *. destruct (Rle_dec vb 0); lra. }
      rewrite Hvb in *.
      destruct (Exact.ltb (Rmax va 0) vb) eqn:Hab;
        [apply ltb_true in Hab|apply ltb_false in Hab]; [|lra].
      right. left. split_and!; [lra..|done].
  - assert (Rmax va 0 = va) as Hva.
    { unfold Rmax in *. destruct (Rle_dec va 0); lra. }
    rewrite Hva in *.
    destruct (Exact.ltb va (Rmax vb 0)) eqn:Hab;
      [apply ltb_true in Hab|apply ltb_false in Hab].
    + assert (Rmax vb 0 = vb) as Hvb.
      { unfold Rmax in *. destruct (Rle_dec vb 0); lra. }
      rewrite Hvb in *. right. left. split_and!; [lra..|done].
    + right. right. split_and!; [lra..|done].
Qed.

(** X20: The line of [fitLine(i, j)] passes through the centroid of the points
    i, ..., j: multiplied by their number, a mean(x) + b mean(y) + c = 0. *)
Theorem fitLine_through_centroid (path : Path R) (i j : nat) :
  i ≤ j → (j < length path)%nat →
  Line.a (fitLine (LineFitter.new path) (Z.of_nat i) (Z.of_nat j))
  * sumR (PVector.x <$> slice i j path)
  + Line.b (fitLine (LineFitter.new path) (Z.of_nat i) (Z.of_nat j))
    * sumR (PVector.y <$> slice i j path)
  + Line.c (fitLine (LineFitter.new path) (Z.of_nat i) (Z.of_nat j))
    * INR (length (slice i j path)) = 0.
Proof.
  intros Hij Hj. rewrite fitLine_stats by done.
  pose proof (slice_length i j path Hij Hj) as Hlen.
  rewrite INR_IZR_INZ.
  set (n := Z.of_nat (length (slice i j path))).
  assert (0 < n)%Z as Hn by (unfold n; lia).
  assert (IZR n ≠ 0) as Hn0.
  { apply not_0_IZR. lia. }
  match goal with |- context [fitLineStat ?sx ?sy ?sxx ?syy ?sxy n] =>
    destruct (fitLineStat_cases sx sy sxx syy sxy n Hn)
      as [(_ & _ & ->)|[(Hv & _ & ->)|(Hv & _ & ->)]]
  end; simpl; field; (done || split; lra).
Qed.

(* the sum of squared residuals, written out in the five statistics *)
Lemma residualSq_expand (l : Line R) (pts : list (PVector R)) :
  residualSq l pts
  = Line.a l * Line.a l * sumR ((λ p, PVector.x p * PVector.x p) <$> pts)
    + Line.b l * Line.b l * sumR ((λ p, PVector.y p * PVector.y p) <$> pts)
    + Line.c l * Line.c l * INR (length pts)
    + 2 * Line.a l * Line.b l * sumR ((λ p, PVector.x p * PVector.y p) <$> pts)
    + 2 * Line.a l * Line.c l * sumR (PVector.x <$> pts)
    + 2 * Line.b l * Line.c l * sumR (PVector.y <$> pts).
Proof.
  unfold residualSq. induction pts as [|p pts IH].
  { simpl. lra. }
  rewrite !fmap_cons. cbn [sumR foldr length]. rewrite S_INR.
  unfold sumR in IH. rewrite IH. ring.
Qed.

(* the coefficients of a regression minimise the quadratic form of the
   residuals *)
Lemma regression_optimal (n SX SY SXX SXY a' c' : R) :
  0 < n → 0 < n * SXX - SX * SX →
  let a := (SX * SY - n * SXY) / (n * SXX - SX * SX) in
  let c := - (SX * a + SY) / n in
  a * a * SXX + c * c * n + 2 * a * SXY + 2 * a * c * SX + 2 * c * SY
  <= a' * a' * SXX + c' * c' * n + 2 * a' * SXY + 2 * a' * c' * SX + 2 * c' * SY.
Proof.
  intros Hn Hv a c.
  assert (n * c + SX * a + SY = 0) as G1 by (unfold c; field; lra).
  assert (a * (n * SXX - SX * SX) + n * SXY - SX * SY = 0) as G2
    by (unfold a; field; lra).
  clearbody a c.
  assert (n * ((a' * a' * SXX + c' * c' * n + 2 * a' * SXY
                + 2 * a' * c' * SX + 2 * c' * SY)
               - (a * a * SXX + c * c * n + 2 * a * SXY
                  + 2 * a * c * SX + 2 * c * SY))
          = (n * (c' - c) + (a' - a) * SX) * (n * (c' - c) + (a' - a) * SX)
            + (a' - a) * (a' - a) * (n * SXX - SX * SX)
            + 2 * n * (c' - c) * (n * c + SX * a + SY)
            + 2 * (a' - a)
              * ((a * (n * SXX - SX * SX) + n * SXY - SX * SY)
                 + SX * (n * c + SX * a + SY))) as Hid by ring.
  rewrite G1, G2 in Hid.
  pose proof (sq_sum_nonneg (n * (c' - c) + (a' - a) * SX) 0) as Hs1.
  assert (0 <= (a' - a) * (a' - a) * (n * SXX - SX * SX)) as Hs2.
  { apply Rmult_le_pos; [|lra]. pose proof (sq_sum_nonneg (a' - a) 0). lra. }
  match type of Hid with n * ?d = _ =>
    assert (0 <= d) as Hd by (apply (Rmult_le_reg_l n); lra)
  end.
  lra.
Qed.

(** X21: What [fitLine(i, j)] minimises: the sum over the points i, ..., j of the
    squared residuals (a x + b y + c)^2, among the lines with the same
    normalisation.  The line has a = b = -1 and the best c (the points
    nearly coincide: both spreads are at most Number.EPSILON), or a = 1 and
    the best b and c (the regression of x on y, taken when x spreads less
    than y), or b = 1 and the best a and c (the regression of y on x). *)
Theorem fitLine_least_squares (path : Path R) (i j : nat) :
  i ≤ j → (j < length path)%nat →
  let l := fitLine (LineFitter.new path) (Z.of_nat i) (Z.of_nat j) in
  let pts := slice i j path in
  (Line.a l = -1 ∧ Line.b l = -1 ∧
   ∀ c', residualSq l pts <= residualSq (Line.mk (-1) (-1) c') pts) ∨
  (Line.a l = 1 ∧
   ∀ b' c', residualSq l pts <= residualSq (Line.mk 1 b' c') pts) ∨
  (Line.b l = 1 ∧
   ∀ a' c', residualSq l pts <= residualSq (Line.mk a' 1 c') pts).
Proof.
  intros Hij Hj l pts. unfold l. rewrite fitLine_stats by done. fold pts.
  pose proof (slice_length i j path Hij Hj) as Hlen. fold pts in Hlen.
  set (n := Z.of_nat (length pts)).
  assert (0 < n)%Z as Hn by (unfold n; lia).
  assert (IZR n = INR (length pts)) as HnR by (by rewrite INR_IZR_INZ).
  assert (0 < INR (length pts)) as Hpos by (apply lt_0_INR; lia).
  match goal with |- context [fitLineStat ?sx ?sy ?sxx ?syy ?sxy n] =>
    destruct (fitLineStat_cases sx sy sxx syy sxy n Hn)
      as [(_ & _ & ->)|[(Hv & _ & ->)|(Hv & _ & ->)]]
  end; rewrite HnR in *.
  - left. split_and!; [done..|]. intros c'.
    rewrite !residualSq_expand. simpl.
    set (SX := sumR (PVector.x <$> pts)). set (SY := sumR (PVector.y <$> pts)).
    set (m := INR (length pts)) in *.
    assert (m * ((SX + SY) / m) = SX + SY) as Hc by (field; lra).
    set (c := (SX + SY) / m) in *. clearbody c.
    assert (m * (c' * c' * m - 2 * c' * SX - 2 * c' * SY
                 - (c * c * m - 2 * c * SX - 2 * c * SY))
            = (m * c' - m * c) * (m * c' - m * c)
              + 2 * (m * c - (SX + SY)) * (m * c' - m * c)) as Hid by ring.
    rewrite Hc in Hid.
    pose proof (sq_sum_nonneg (m * c' - (SX + SY)) 0) as Hsq.
    match type of Hid with m * ?d = _ =>
      assert (0 <= d) as Hd by (apply (Rmult_le_reg_l m); lra)
    end.
    lra.
  - right. left. split; [done|]. intros b' c'.
    rewrite !residualSq_expand. simpl.
    match goal with |- context [sumR (PVector.x <$> pts)] =>
      pose proof (regression_optimal (INR (length pts))
                    (sumR (PVector.y <$> pts)) (sumR (PVector.x <$> pts))
                    (sumR ((λ p, PVector.y p * PVector.y p) <$> pts))
                    (sumR ((λ p, PVector.x p * PVector.y p) <$> pts))
                    b' c' Hpos Hv) as Hopt
    end.
    simpl in Hopt. lra.
  - right. right. split; [done|]. intros a' c'.
    rewrite !residualSq_expand. simpl.
    pose proof (regression_optimal (INR (length pts))
                  (sumR (PVector.x <$> pts)) (sumR (PVector.y <$> pts))
                  (sumR ((λ p, PVector.x p * PVector.x p) <$> pts))
                  (sumR ((λ p, PVector.x p * PVector.y p) <$> pts))
                  a' c' Hpos Hv) as Hopt.
    simpl in Hopt. lra.
Qed.

(** *** Two points *)

Lemma lineDistSq_formula (l : Line R) (p : PVector R) :
  proper l →
  lineDistSq l p
  = (Line.a l * PVector.x p + Line.b l * PVector.y p + Line.c l)
    * (Line.a l * PVector.x p + Line.b l * PVector.y p + Line.c l)
    / (Line.a l * Line.a l + Line.b l * Line.b l).
Proof. intros Hl. unfold lineDistSq. by apply project_distSq. Qed.

Lemma slice_pair {A : Type} (l : list A) (j : nat) (p q : A) :
  l !! j = Some p → l !! S j = Some q → slice j (S j) l = [p; q].
Proof.
  intros Hp Hq. unfold slice. replace (S (S j) - j)%nat with 2%nat by lia.
  rewrite (drop_S _ _ _ Hp), (drop_S _ _ _ Hq). done.
Qed.

(* the line fitted to two consecutive points passes through both, or they
   nearly coincide and it passes between them *)
Lemma two_point_cases (P : Path R) (j : nat) (p q pm : PVector R) :
  P !! j = Some p → P !! S j = Some q → pm = p ∨ pm = q →
  onLine (fitLine (LineFitter.new P) (Z.of_nat j) (Z.of_nat (S j))) pm ∨
  ((PVector.x q - PVector.x p) * (PVector.x q - PVector.x p) <= Exact.EPSILON ∧
   (PVector.y q - PVector.y p) * (PVector.y q - PVector.y p) <= Exact.EPSILON ∧
   lineDistSq (fitLine (LineFitter.new P) (Z.of_nat j) (Z.of_nat (S j))) pm
   <= Exact.EPSILON / 2).
Proof.
  intros Hp Hq Hpm. pose proof EPSILON_pos as He.
  rewrite lineDistSq_formula by apply fitLine_proper. unfold onLine.
  assert (S j < length P)%nat as Hlen by (by eapply lookup_lt_Some).
  rewrite fitLine_stats by (done || lia).
  rewrite (slice_pair P j p q) by done.
  destruct p as [x0 y0], q as [x1 y1].
  cbn [fmap list_fmap sumR foldr length PVector.x PVector.y].
  match goal with |- context [fitLineStat ?sx ?sy ?sxx ?syy ?sxy ?n] =>
    destruct (fitLineStat_cases sx sy sxx syy sxy n)
      as [(Ha & Hb & ->)|[(Hv & _ & ->)|(Hv & _ & ->)]]; [lia|..]
  end; cbn [Line.a Line.b Line.c]; change (IZR (Z.of_nat 2)) with 2 in *.
  - right.
    assert ((x1 - x0) * (x1 - x0) <= Exact.EPSILON) as Ha' by lra.
    assert ((y1 - y0) * (y1 - y0) <= Exact.EPSILON) as Hb' by lra.
    pose proof (sq_sum_nonneg ((x1 - x0) - (y1 - y0)) 0) as Hsq.
    split_and!; [done..|].
    destruct Hpm as [-> | ->]; simpl; lra.
  - left. destruct Hpm as [-> | ->]; simpl; field; lra.
  - left. destruct Hpm as [-> | ->]; simpl; field; lra.
Qed.

Lemma two_point_fit (P : Path R) (j : nat) (p q pm : PVector R) :
  P !! j = Some p → P !! S j = Some q → pm = p ∨ pm = q →
  lineDistSq (fitLine (LineFitter.new P) (Z.of_nat j) (Z.of_nat (S j))) pm
  <= Exact.EPSILON / 2.
Proof.
  intros Hp Hq Hpm. pose proof EPSILON_pos as He.
  destruct (two_point_cases P j p q pm Hp Hq Hpm) as [Hon|(_ & _ & Hd)]; [|done].
  rewrite lineDistSq_formula by apply fitLine_proper.
  unfold onLine in Hon. rewrite Hon. lra.
Qed.

(** X22: The line fitted to two consecutive points passes through both, unless
    the two nearly coincide (their differences in x and in y are both within
    the square root of Number.EPSILON); then it is the line of direction
    (1, -1) through their midpoint, at a squared distance of at most
    Number.EPSILON / 2 from each. *)
Theorem two_point_line (P : Path R) (j : nat) (p q : PVector R) :
  P !! j = Some p → P !! S j = Some q →
  (Exact.EPSILON < (PVector.x q - PVector.x p) * (PVector.x q - PVector.x p) ∨
   Exact.EPSILON < (PVector.y q - PVector.y p) * (PVector.y q - PVector.y p) →
   onLine (fitLine (LineFitter.new P) (Z.of_nat j) (Z.of_nat (S j))) p ∧
   onLine (fitLine (LineFitter.new P) (Z.of_nat j) (Z.of_nat (S j))) q) ∧
  lineDistSq (fitLine (LineFitter.new P) (Z.of_nat j) (Z.of_nat (S j))) p
  <= Exact.EPSILON / 2 ∧
  lineDistSq (fitLine (LineFitter.new P) (Z.of_nat j) (Z.of_nat (S j))) q
  <= Exact.EPSILON / 2.
Proof.
  intros Hp Hq. split_and!.
  - intros Hfar.
    destruct (two_point_cases P j p q p Hp Hq (or_introl eq_refl))
      as [Hon1|(? & ? & _)]; [|lra].
    destruct (two_point_cases P j p q q Hp Hq (or_intror eq_refl))
      as [Hon2|(? & ? & _)]; [|lra].
    done.
  - apply (two_point_fit P j p q); auto.
  - apply (two_point_fit P j p q); auto.
Qed.

End ExactFit.

(** * Exact arithmetic: the error box *)

Section ExactBox.
Local Open Scope R_scope.
Implicit Types (p q : PVector R) (l : Line R) (box : ErrorBox R).

(* the coordinate t of a point measures its distance to the line *)
Lemma map_t_distance l p :
  proper l →
  Line.t (Line.map l p) * Line.t (Line.map l p)
  * (Line.a l * Line.a l + Line.b l * Line.b l)
  = lineDistSq l p.
Proof.
  intros Hl. unfold lineDistSq.
  rewrite project_distSq by done.
  rewrite map_exact by done. simpl. unfold proper in Hl. field. done.
Qed.

(* [remapc] is an affine map of (s, t) *)
Lemma remapc_affine l old (s t : R) :
  proper l →
  Line.s (Line.remapc l old s t)
  = Line.s (Line.remapc l old 0 0)
    + s * (Line.s (Line.remapc l old 1 0) - Line.s (Line.remapc l old 0 0))
    + t * (Line.s (Line.remapc l old 0 1) - Line.s (Line.remapc l old 0 0)) ∧
  Line.t (Line.remapc l old s t)
  = Line.t (Line.remapc l old 0 0)
    + s * (Line.t (Line.remapc l old 1 0) - Line.t (Line.remapc l old 0 0))
    + t * (Line.t (Line.remapc l old 0 1) - Line.t (Line.remapc l old 0 0)).
Proof.
  intros Hl. unfold Line.remapc. rewrite !map_exact by done.
  destruct l as [a b c], old as [a' b' c']. unfold proper in Hl.
  unfold Line.unmapc. simpl in *.
  set (k := c' / (a' * a' + b' * b')). clearbody k.
  split; field; done.
Qed.

(* an affine function on a rectangle lies between its values at two corners *)
Lemma affine_between (f0 fs ft s t s0 s1 t0 t1 : R) :
  s0 <= s <= s1 → t0 <= t <= t1 →
  ∃ sa ta sb tb,
    (sa = s0 ∨ sa = s1) ∧ (ta = t0 ∨ ta = t1) ∧
    (sb = s0 ∨ sb = s1) ∧ (tb = t0 ∨ tb = t1) ∧
    f0 + sa * fs + ta * ft <= f0 + s * fs + t * ft
    <= f0 + sb * fs + tb * ft.
Proof.
  intros Hs Ht.
  destruct (Rle_dec 0 fs) as [Hfs|Hfs], (Rle_dec 0 ft) as [Hft|Hft].
  - exists s0, t0, s1, t1. split_and!; auto; nra.
  - exists s0, t1, s1, t0. split_and!; auto; nra.
  - exists s1, t0, s0, t1. split_and!; auto; nra.
  - exists s1, t1, s0, t0. split_and!; auto; nra.
Qed.

Lemma extend_line box l p : ErrorBox.line (ErrorBox.extend box l p) = l.
Proof. done. Qed.

(* [extend] keeps inside the box what was inside, and puts the new point
   inside *)
Lemma extend_inBox box l p q :
  proper (ErrorBox.line box) → proper l →
  inBox box q → inBox (ErrorBox.extend box l p) q.
Proof.
  intros Hold Hl [Hs Ht]. unfold inBox. rewrite extend_line.
  set (old := ErrorBox.line box) in *.
  assert (Line.map l q
          = Line.remapc l old (Line.s (Line.map old q)) (Line.t (Line.map old q)))
    as Hq.
  { unfold Line.remapc.
    change (Line.unmapc old (Line.s (Line.map old q)) (Line.t (Line.map old q)))
      with (Line.unmap old (Line.map old q)).
    by rewrite unmap_map. }
  rewrite Hq.
  set (s := Line.s (Line.map old q)) in *.
  set (t := Line.t (Line.map old q)) in *.
  destruct (remapc_affine l old s t Hl) as [Es Et].
  assert (∀ s' t', Line.s (Line.remapc l old s' t')
    = Line.s (Line.remapc l old 0 0)
      + s' * (Line.s (Line.remapc l old 1 0) - Line.s (Line.remapc l old 0 0))
      + t' * (Line.s (Line.remapc l old 0 1) - Line.s (Line.remapc l old 0 0)))
    as As by (intros; by apply remapc_affine).
  assert (∀ s' t', Line.t (Line.remapc l old s' t')
    = Line.t (Line.remapc l old 0 0)
      + s' * (Line.t (Line.remapc l old 1 0) - Line.t (Line.remapc l old 0 0))
      + t' * (Line.t (Line.remapc l old 0 1) - Line.t (Line.remapc l old 0 0)))
    as At by (intros; by apply remapc_affine).
  unfold ErrorBox.extend. simpl. fold old.
  split.
  - destruct (affine_between (Line.s (Line.remapc l old 0 0))
               (Line.s (Line.remapc l old 1 0) - Line.s (Line.remapc l old 0 0))
               (Line.s (Line.remapc l old 0 1) - Line.s (Line.remapc l old 0 0))
               s t _ _ _ _ Hs Ht)
      as (sa & ta & sb & tb & Hsa & Hta & Hsb & Htb & Hlo & Hhi).
    rewrite <- !As in Hlo, Hhi.
    split.
    + etrans; [|exact Hlo]. apply min5_le.
      destruct Hsa as [-> | ->], Hta as [-> | ->]; auto 6.
    + etrans; [exact Hhi|]. apply max5_ge.
      destruct Hsb as [-> | ->], Htb as [-> | ->]; auto 6.
  - destruct (affine_between (Line.t (Line.remapc l old 0 0))
               (Line.t (Line.remapc l old 1 0) - Line.t (Line.remapc l old 0 0))
               (Line.t (Line.remapc l old 0 1) - Line.t (Line.remapc l old 0 0))
               s t _ _ _ _ Hs Ht)
      as (sa & ta & sb & tb & Hsa & Hta & Hsb & Htb & Hlo & Hhi).
    rewrite <- !At in Hlo, Hhi.
    split.
    + etrans; [|exact Hlo]. apply min5_le.
      destruct Hsa as [-> | ->], Hta as [-> | ->]; auto 6.
    + etrans; [exact Hhi|]. apply max5_ge.
      destruct Hsb as [-> | ->], Htb as [-> | ->]; auto 6.
Qed.

Lemma extend_inBox_new box l p : inBox (ErrorBox.extend box l p) p.
Proof.
  unfold inBox. rewrite extend_line. unfold ErrorBox.extend. simpl.
  split_and!; (apply min5_le || apply max5_ge); auto.
Qed.

Lemma new_inBox l p : inBox (ErrorBox.new l p) p.
Proof. unfold inBox, ErrorBox.new. simpl. lra. Qed.

(* [error()] bounds the squared distance to the line of the box of every
   point inside the box *)
Lemma inBox_error box q :
  proper (ErrorBox.line box) → inBox box q →
  lineDistSq (ErrorBox.line box) q <= ErrorBox.error box.
Proof.
  intros Hl [_ Ht]. rewrite <- map_t_distance by done.
  unfold ErrorBox.error. simpl in Ht |- *.
  apply Rmult_le_compat_r; [apply sq_sum_nonneg|].
  apply square_le_max; lra.
Qed.

Lemma extends_snoc box steps l p :
  extends box (steps ++ [(l, p)]) = ErrorBox.extend (extends box steps) l p.
Proof. unfold extends. by rewrite foldl_app. Qed.

Lemma extends_proper box steps :
  proper (ErrorBox.line box) → Forall (λ step, proper step.1) steps →
  proper (ErrorBox.line (extends box steps)).
Proof.
  intros Hb Hs. destruct steps as [|st steps _] using rev_ind; [done|].
  destruct st as [l p]. rewrite extends_snoc, extend_line.
  apply Forall_app in Hs as [_ Hs]. by inversion Hs.
Qed.

(** X23: What an error box is for: after a box was made for a point and extended
    by further points, each time in the coordinates of another line,
    [error()] is not below the squared distance from any of these points to
    the line of the last call. *)
Theorem error_box_covers (l0 : Line R) (p0 : PVector R)
  (steps : list (Line R * PVector R)) (q : PVector R) :
  proper l0 → Forall (λ step, proper step.1) steps →
  q ∈ p0 :: (snd <$> steps) →
  lineDistSq (ErrorBox.line (extends (ErrorBox.new l0 p0) steps)) q
  <= ErrorBox.error (extends (ErrorBox.new l0 p0) steps).
Proof.
  intros Hl0 Hsteps Hq. apply inBox_error.
  { by apply extends_proper. }
  revert Hsteps q Hq.
  induction steps as [|[l p] steps IH] using rev_ind; intros Hsteps q Hq.
  { simpl in Hq. apply list_elem_of_singleton in Hq as ->. apply new_inBox. }
  apply Forall_app in Hsteps as [Hsteps Hl]. inversion Hl as [|?? Hl' _]; subst.
  simpl in Hl'.
  rewrite extends_snoc. rewrite fmap_app in Hq. simpl in Hq.
  change (p0 :: (snd <$> steps) ++ [p]) with ((p0 :: (snd <$> steps)) ++ [p]) in Hq.
  apply elem_of_app in Hq as [Hq|Hq].
  - apply extend_inBox; [by apply extends_proper|done|by apply IH].
  - apply list_elem_of_singleton in Hq as ->. apply extend_inBox_new.
Qed.

(* the squared distance to the line of the point of coordinates (s, t) *)
Lemma unmapc_distance l (s t : R) :
  proper l →
  lineDistSq l (Line.unmapc l s t)
  = t * t * (Line.a l * Line.a l + Line.b l * Line.b l).
Proof.
  intros Hl. rewrite <- map_t_distance by done.
  change (Line.unmapc l s t) with (Line.unmap l (Line.mkL s t)).
  by rewrite map_unmap.
Qed.

(** X24: [error()] is the largest squared distance from a corner of the box, as
    [getCartesianCorners] returns them, to the line of the box. *)
Theorem error_is_corner_distance box :
  proper (ErrorBox.line box) →
  (∀ c, c ∈ ErrorBox.getCartesianCorners box →
        lineDistSq (ErrorBox.line box) c <= ErrorBox.error box) ∧
  (∃ c, c ∈ ErrorBox.getCartesianCorners box ∧
        lineDistSq (ErrorBox.line box) c = ErrorBox.error box).
Proof.
  intros Hl. pose proof (proper_pos _ Hl) as Hn.
  unfold ErrorBox.getCartesianCorners, ErrorBox.error.
  pose proof (Rmax_l (ErrorBox.t0 box * ErrorBox.t0 box)
                     (ErrorBox.t1 box * ErrorBox.t1 box)) as H0.
  pose proof (Rmax_r (ErrorBox.t0 box * ErrorBox.t0 box)
                     (ErrorBox.t1 box * ErrorBox.t1 box)) as H1.
  simpl nmax. simpl nmul. simpl nadd.
  split.
  - intros c Hc. repeat (apply elem_of_cons in Hc as [->|Hc]);
      [rewrite unmapc_distance by done; apply Rmult_le_compat_r; lra..|].
    by apply elem_of_nil in Hc.
  - unfold Rmax. destruct (Rle_dec _ _).
    + eexists. split; [apply list_elem_of_further, list_elem_of_here|].
      by rewrite unmapc_distance.
    + eexists. split; [apply list_elem_of_here|]. by rewrite unmapc_distance.
Qed.

(** X25: A fresh box is its point: the four corners of [new ErrorBox(line, p)]
    are p, and its [error()] is the squared distance from p to the line. *)
Theorem new_box_is_its_point l p :
  proper l →
  ErrorBox.getCartesianCorners (ErrorBox.new l p) = [p; p; p; p] ∧
  ErrorBox.error (ErrorBox.new l p) = lineDistSq l p.
Proof.
  intros Hl.
  assert (Line.unmapc l (Line.s (Line.map l p)) (Line.t (Line.map l p)) = p)
    as Hrt by apply (unmap_map l p Hl).
  unfold ErrorBox.getCartesianCorners, ErrorBox.error, ErrorBox.new.
  cbn [ErrorBox.line ErrorBox.s0 ErrorBox.s1 ErrorBox.t0 ErrorBox.t1].
  rewrite Hrt. split; [done|].
  rewrite <- map_t_distance by done. simpl nmax. rewrite Rmax_left by lra.
  done.
Qed.

End ExactBox.

(** * Exact arithmetic: the threshold *)

Section ExactRuns.
Import SimplePathHull PathSimplifier.
Local Open Scope R_scope.
Implicit Types (s : PathSimplifier R) (st : Scan R) (P : Path R).

Opaque ErrorBox.extend ErrorBox.error ErrorBox.new LineFitter.fitLine.

(** The scan keeps the points it has passed inside its box, and takes as
    [next] only an index for which the box, and so every point from that
    index to the new one, is within the threshold of the fitted line. *)
Lemma scan_fits P F thr (j : nat) pj nj next0 (k : nat) : ∀ st st',
  scan P F thr j pj nj k st = Some st' →
  proper (ErrorBox.line (sc_box st)) →
  (∀ m pm, k ≤ m → m ≤ j → P !! m = Some pm → inBox (sc_box st) pm) →
  next_fits P F thr j next0 (sc_next st) →
  next_fits P F thr j next0 (sc_next st').
Proof.
  induction k as [|i IH]; intros st st'; simpl.
  { by intros [= <-]. }
  destruct (P !! i) as [pi|] eqn:Hpi; [simpl|done].
  destruct (sc_tags st !! i) as [ti|] eqn:Hti; [simpl|done].
  destruct (cutTest P ti i j pi pj) as [[]|] eqn:Hcut; [simpl..|done].
  { by intros [= <-]. }
  set (line := LineFitter.fitLine F (Z.of_nat i) (Z.of_nat j)).
  set (box := ErrorBox.extend (sc_box st) line pi).
  destruct (Exact.ltb thr (ErrorBox.error box)) eqn:Herr.
  { by intros [= <-]. }
  apply ltb_false in Herr.
  intros Hrun Hprop Hin Hnext.
  assert (proper (ErrorBox.line box)) as Hprop' by apply fitLine_proper.
  assert (∀ m pm, i ≤ m → m ≤ j → P !! m = Some pm → inBox box pm) as Hin'.
  { intros m pm Him Hmj Hpm. destruct (decide (m = i)) as [->|Hne].
    - assert (pm = pi) as -> by congruence. apply extend_inBox_new.
    - apply extend_inBox; [done|apply fitLine_proper|].
      apply (Hin m pm); [lia|done..]. }
  assert (fits P F thr i j) as Hfit.
  { intros m pm Him Hmj Hpm.
    pose proof (inBox_error box pm Hprop' (Hin' m pm Him Hmj Hpm)) as Hb.
    change (ErrorBox.line box) with line in Hb. fold line. lra. }
  destruct (offer _ _) as [[hull ni]|]; [simpl in Hrun|done].
  destruct (match ni with Some n => _ | None => _ end) as [[]|];
    simpl in Hrun; [|..|done].
  { by apply (IH _ _ Hrun). }
  destruct nj as [n|]; [simpl in Hrun|done].
  destruct (negb <$> isPioneer (nodes hull) _ n) as [[]|];
    simpl in Hrun; [| |done].
  { by injection Hrun as <-. }
  destruct (_ <? _)%Z; apply (IH _ _ Hrun); simpl; try done.
  right. by exists i.
Qed.

Lemma onAddPoint_table_fits s p s' :
  Inv s → (pathLength s <= length (path s))%nat →
  path s !! pathLength s = Some p →
  table_fits (path s) (fitter s) (thresholdSq s) s →
  onAddPoint s p = Some s' →
  table_fits (path s) (fitter s) (thresholdSq s) s'.
Proof.
  intros HI Hlen Hp HQ Hrun.
  destruct (onAddPoint_spec s p s' HI Hlen Hrun) as (_ & _ & _ & _ & _ & Hsame & _).
  destruct HI as [Hlent _].
  assert (∀ j tj, (j < pathLength s)%nat → tags s' !! j = Some tj →
                  next_fits (path s) (fitter s) (thresholdSq s) j
                            (Z.of_nat j - 1) (tag_next tj)) as Hold.
  { intros j tj Hj Htj.
    destruct (lookup_lt_is_Some_2 (tags s) j) as [tj0 Htj0]; [lia|].
    destruct (Hsame j tj0 Htj0) as (tj' & Htj' & _ & Hn & _).
    assert (tj' = tj) as -> by congruence. rewrite Hn. by apply HQ. }
  destruct (onAddPoint_scan _ _ _ Hrun)
    as [(Hj & Htags' & _)|(tn & st' & Hj & Htn & Hscan & Htags' & _)];
    intros j tj Htj.
  - rewrite Htags' in Htj.
    apply lookup_snoc_Some in Htj as [[Hlt _]|[Hjl <-]]; [lia|].
    left. simpl. lia.
  - destruct (decide (j < pathLength s)%nat) as [Hlt|Hge]; [by apply Hold|].
    assert (length (sc_tags st') = pathLength s) as Hlen'.
    { pose proof (scan_scans _ _ _ _ _ _ _ _ _ Hscan) as Hscans.
      destruct (scans_tags _ _ _ _ Hscans) as [->|(i & ti & _ & _ & _ & ->)];
        simpl; [done|by rewrite length_insert]. }
    rewrite Htags' in Htj.
    apply lookup_snoc_Some in Htj as [[Hlt _]|[Hjl <-]]; [lia|].
    rewrite Hlen' in Hjl. subst j. simpl.
    apply (scan_fits _ _ _ _ _ _ _ _ _ _ Hscan); simpl.
    + apply fitLine_proper.
    + intros m pm Hm1 Hm2 Hpm. assert (m = pathLength s) as -> by lia.
      assert (pm = p) as -> by congruence. apply new_inBox.
    + by left.
Qed.

Transparent ErrorBox.extend ErrorBox.error ErrorBox.new LineFitter.fitLine.

(** X26: The threshold is kept.  When the tag of an index j names the index i
    as its [next], every point from i to j is near the line fitted to these
    points, the line that [getSimplified] uses for this edge of the route:
    if i is not j - 1, its squared distance to that line is at most the
    squared threshold; in any case it is at most the larger of the squared
    threshold and Number.EPSILON / 2. *)
Theorem threshold_is_kept (thr : R) (path0 ps : Path R) :
  ∃ s, build thr path0 ps = Some s ∧
    ∀ j tj i, tags s !! j = Some tj → tag_next tj = Z.of_nat i →
      ∀ m pm, (i <= m)%nat → (m <= j)%nat → (path0 ++ ps) !! m = Some pm →
        ((i + 1 < j)%nat →
         lineDistSq (LineFitter.fitLine (fitter s) (Z.of_nat i) (Z.of_nat j)) pm
         <= thr * thr) ∧
        lineDistSq (LineFitter.fitLine (fitter s) (Z.of_nat i) (Z.of_nat j)) pm
        <= Rmax (thr * thr) (Exact.EPSILON / 2).
Proof.
  destruct (build_spec thr path0 ps) as (s & Hs & HR & Hp & Ht).
  exists s. split; [done|].
  set (P := path0 ++ ps) in *.
  assert (fitter s = LineFitter.new P ∧
          table_fits P (LineFitter.new P) (thr * thr) s) as [Hf HQ].
  { rewrite <- new_app_build in Hs. fold P in Hs.
    apply (new_invariant
             (λ s, fitter s = LineFitter.new P ∧
                   table_fits P (LineFitter.new P) (thr * thr) s) P thr);
      [| |done].
    - split; [done|]. by intros j tj.
    - intros s1 p s1' HI1 Hp1 Hf1 Ht1 Hq [_ HQ1] Hrun.
      destruct (onAddPoint_frame _ _ _ Hrun) as (_ & Hf1' & _).
      split; [congruence|].
      assert (pathLength s1 <= length (path s1))%nat as Hlen1.
      { rewrite Hp1. apply lookup_lt_Some in Hq. lia. }
      assert (path s1 !! pathLength s1 = Some p) as Hq1 by (by rewrite Hp1).
      assert (table_fits (path s1) (fitter s1) (thresholdSq s1) s1) as HQ1'
        by (by rewrite Hp1, Hf1, Ht1).
      pose proof (onAddPoint_table_fits s1 p s1' HI1 Hlen1 Hq1 HQ1' Hrun) as Hg.
      by rewrite Hp1, Hf1, Ht1 in Hg. }
  intros j tj i Htj Hn m pm Him Hmj Hpm. rewrite Hf.
  assert ((i + 1 < j)%nat →
          lineDistSq (LineFitter.fitLine (LineFitter.new P) (Z.of_nat i)
                                         (Z.of_nat j)) pm <= thr * thr) as Hfar.
  { intros Hij. destruct (HQ j tj Htj) as [Heq|(i' & Hi' & Hfit)]; [lia|].
    assert (i' = i) as -> by lia. by apply (Hfit m pm). }
  split; [done|].
  pose proof (Rmax_l (thr * thr) (Exact.EPSILON / 2)) as Hl.
  pose proof (Rmax_r (thr * thr) (Exact.EPSILON / 2)) as Hr.
  destruct (decide (i + 1 < j)%nat) as [Hij|Hij].
  { specialize (Hfar Hij). lra. }
  assert (j = S i) as ->.
  { destruct HR as [[_ Htags] _]. destruct (Htags j tj Htj) as [Hok _].
    destruct j as [|j]; simpl in Hok; [destruct Hok; lia|].
    destruct Hok as (i' & _ & Hi' & Hn' & _). lia. }
  assert (S i < length P)%nat as Hlen.
  { apply lookup_lt_Some in Htj. destruct HR as [[Hlt _] Hlp].
    rewrite <- Hp, <- Hlp, <- Hlt. done. }
  destruct (lookup_lt_is_Some_2 P i) as [p Hpi]; [lia|].
  destruct (lookup_lt_is_Some_2 P (S i)) as [q Hqi]; [lia|].
  pose proof (two_point_fit P i p q pm Hpi Hqi) as Htwo.
  assert (pm = p ∨ pm = q) as Hor.
  { destruct (decide (m = i)) as [->|Hne]; [left; congruence|].
    assert (m = S i) as -> by lia. right. congruence. }
  specialize (Htwo Hor). lra.
Qed.

(** *** The vertices of the simplified path *)




End ExactRuns.

(** * Exact arithmetic: the first hull *)

Section ExactHull.
Import SimplePathHull.
Local Open Scope R_scope.

(** X28: The first three offers: the hull of three points that are not collinear
    is the triangle of the three, counter-clockwise, with the last point as
    first node; when they are collinear it is the 2-gon of the last and the
    first point, and the second point is left out. *)
Theorem first_triangle (a b c : PVector R) :
  ∃ h, offers SimplePathHull.empty 0 [a; b; c] = Some h ∧
    ((0 < Geometry.side a b c ∧ polygon h = [c; a; b]) ∨
     (Geometry.side a b c < 0 ∧ polygon h = [c; b; a]) ∨
     (Geometry.side a b c = 0 ∧ polygon h = [c; a])) ∧
    ∀ x y, polygon h = [c; x; y] → 0 < Geometry.side c x y.
Proof.
  assert (Geometry.side b a c = - Geometry.side a b c) as Hflip.
  { destruct a, b, c. unfold Geometry.side, PVector.per, PVector.span,
      PVector.sub. simpl. ring. }
  assert (Geometry.side c a b = Geometry.side a b c) as Hrot1.
  { destruct a, b, c. unfold Geometry.side, PVector.per, PVector.span,
      PVector.sub. simpl. ring. }
  assert (Geometry.side c b a = - Geometry.side a b c) as Hrot2.
  { destruct a, b, c. unfold Geometry.side, PVector.per, PVector.span,
      PVector.sub. simpl. ring. }
  destruct (offers_three a b c) as (h & Hh & H3).
  exists h. split; [done|].
  rewrite H3, Hflip. cbn [nlt nofZ R_Number].
  destruct (Exact.ltb (- Geometry.side a b c) 0) eqn:H1.
  { apply ltb_true in H1. split; [left; split; [lra|done]|].
    intros x y [= <- <-]. lra. }
  apply ltb_false in H1.
  destruct (Exact.ltb 0 (- Geometry.side a b c)) eqn:H2.
  { apply ltb_true in H2. split; [right; left; split; [lra|done]|].
    intros x y [= <- <-]. lra. }
  apply ltb_false in H2.
  split; [right; right; split; [lra|done]|]. by intros x y.
Qed.

End ExactHull.

(** ** Paths of two points or fewer *)

Section ExactShort.
Import PathSimplifier.
Local Open Scope R_scope.

Lemma build_fitter (thr : R) (path0 ps : Path R) s :
  build thr path0 ps = Some s → fitter s = LineFitter.new (path0 ++ ps).
Proof.
  intros Hs. rewrite <- new_app_build in Hs.
  apply (new_invariant (λ s, fitter s = LineFitter.new (path0 ++ ps))
           (path0 ++ ps) thr); [done| |done].
  intros s1 p s1' _ _ Hf1 _ _ _ Hrun.
  destruct (onAddPoint_frame _ _ _ Hrun) as (_ & Hf1' & _). congruence.
Qed.

(* a point of a line is its own projection *)
Lemma project_fixed p l : proper l → onLine l p → Geometry.project p l = p.
Proof.
  intros Hl Hon. destruct p as [x y], l as [a b c].
  unfold proper, onLine, Geometry.project in *. simpl in *.
  rewrite Hon. f_equal; field; done.
Qed.

(** X29: Paths of two points or fewer are kept.  A path of at most one point is
    returned as it is; a path of two points that are apart (in x or in y by
    more than the square root of Number.EPSILON) comes back as these two
    points, the last one first, whatever the threshold. *)
Theorem short_paths_are_kept (thr : R) (path0 ps : Path R) :
  ∃ s result,
    build thr path0 ps = Some s ∧ getSimplified s = Some result ∧
    ((length (path0 ++ ps) <= 1)%nat → result = path0 ++ ps) ∧
    ∀ p q, path0 ++ ps = [p; q] →
      Exact.EPSILON < (PVector.x q - PVector.x p) * (PVector.x q - PVector.x p) ∨
      Exact.EPSILON < (PVector.y q - PVector.y p) * (PVector.y q - PVector.y p) →
      result = [q; p].
Proof.
  destruct (build_spec thr path0 ps) as (s & Hs & HR & Hp & Ht).
  destruct (getSimplified_total s HR) as (result & Hres & _).
  exists s, result. split_and!; [done..| |].
  - intros Hle. unfold getSimplified in Hres. destruct HR as [_ Hlen].
    rewrite (proj2 (Nat.leb_le _ _)) in Hres by (rewrite Hlen, Hp; lia).
    congruence.
  - intros p q HP Hfar. pose proof HR as [_ Hlen].
    rewrite Hp, HP in Hlen. simpl in Hlen.
    destruct (getSimplified_spec s HR)
      as (tj & pj & p0 & ch & out & line & Htj & Hpj & Hp0 & Hpoly & Hget
          & Hnext & Hd & _ & Hin & _); [lia|].
    rewrite Hlen in *. rewrite Hp, HP in Hpj, Hp0. simpl in Hpj, Hp0.
    injection Hpj as <-. injection Hp0 as <-.
    assert (tag_next tj = 0%Z) as Hn0 by lia. rewrite Hn0 in *.
    assert (ch = []) as ->.
    { destruct ch as [|c ch]; [done|].
      assert (0 <= c < 0)%Z by (apply Hin; set_solver). lia. }
    inversion Hpoly; subst.
    rewrite Hget in Hres. injection Hres as <-. simpl.
    rewrite (build_fitter _ _ _ _ Hs), HP.
    destruct (two_point_cases [p; q] 0 p q p eq_refl eq_refl
                (or_introl eq_refl)) as [Honp|(? & ? & _)]; [|lra].
    destruct (two_point_cases [p; q] 0 p q q eq_refl eq_refl
                (or_intror eq_refl)) as [Honq|(? & ? & _)]; [|lra].
    change (Z.of_nat 2 - 1)%Z with (Z.of_nat 1).
    change 0%Z with (Z.of_nat 0).
    rewrite !project_fixed;
      [done|apply fitLine_proper|done|apply fitLine_proper|done].
Qed.

End ExactShort.

(** * Exact arithmetic: examples *)

Section ExactExamples.
Local Open Scope R_scope.

Lemma lineDiag_proper : proper lineDiag.
Proof. unfold proper, lineDiag. simpl. lra. Qed.

Lemma lineV_proper : proper lineV.
Proof. unfold proper, lineV. simpl. lra. Qed.

(** The witness of [project_is_nearest]: the origin and the line x + y = 2. *)
Lemma project_is_nearest_witness :
  proper lineDiag ∧ onLine lineDiag (Geometry.project (ptR 0 0) lineDiag).
Proof.
  split; [apply lineDiag_proper|].
  exact (proj1 (project_is_nearest (ptR 0 0) lineDiag lineDiag_proper)).
Defined.

(** The witness of [intersection_on_both_lines]: the lines x = 1 and y = 2. *)
Lemma intersection_on_both_lines_witness :
  Line.a lineV * Line.b lineH - Line.a lineH * Line.b lineV ≠ 0 ∧
  onLine lineV (Geometry.intersection lineV lineH).
Proof.
  assert (Line.a lineV * Line.b lineH - Line.a lineH * Line.b lineV ≠ 0) as Hd.
  { unfold lineV, lineH. simpl. lra. }
  split; [done|]. exact (proj1 (intersection_on_both_lines lineV lineH Hd)).
Defined.

(** The witness of [intersect_iff_common_point]: the two diagonals of a
    square meet at its centre. *)
Lemma intersect_iff_common_point_witness :
  Geometry.intersect (ptR 0 0) (ptR 2 2) (ptR 0 2) (ptR 2 0) = true.
Proof.
  apply (intersect_iff_common_point (ptR 0 0) (ptR 2 2) (ptR 0 2) (ptR 2 0)).
  - unfold Geometry.side, PVector.per, PVector.span, PVector.sub, ptR. simpl.
    intros [H1 _]. lra.
  - exists (ptR 1 1). split; exists (1 / 2); unfold ptR; simpl; lra.
Defined.

(** The witness of [map_unmap_round_trip]: the line x + y = 2. *)
Lemma map_unmap_round_trip_witness :
  proper lineDiag ∧
  Line.unmap lineDiag (Line.map lineDiag (ptR 3 4)) = ptR 3 4.
Proof.
  split; [apply lineDiag_proper|].
  exact (proj1 (map_unmap_round_trip lineDiag (ptR 3 4) (Line.mkL 0 0)
                  lineDiag_proper)).
Defined.

(** The witness of [line_frame]: the line x + y = 2. *)
Lemma line_frame_witness :
  proper lineDiag ∧ onLine lineDiag (Line.origin lineDiag).
Proof.
  split; [apply lineDiag_proper|].
  destruct (line_frame lineDiag 0 0 lineDiag_proper) as (_ & _ & _ & Hon & _).
  exact Hon.
Defined.

(** The witness of [clamp_within]: 5 in the range from 0 to 1. *)
Lemma clamp_within_witness : 0 <= 1 ∧ 0 <= clamp 5 0 1 <= 1.
Proof.
  assert (0 <= 1) as H01 by lra.
  split; [done|]. exact (proj1 (clamp_within 5 0 1 H01)).
Defined.

(** The witness of [range_sums_are_sums]: both points of a path of two. *)
Lemma range_sums_are_sums_witness :
  0 ≤ 1 ∧ (1 < length pair01)%nat ∧
  LineFitter.rangeSum (LineFitter.sumsX (LineFitter.new pair01)) 0 1
  = sumR (PVector.x <$> slice 0 1 pair01).
Proof.
  assert (0 ≤ 1) as H01 by lia.
  assert (1 < length pair01)%nat as Hlen by (simpl; lia).
  split_and!; [done..|].
  exact (proj1 (range_sums_are_sums pair01 0 1 H01 Hlen)).
Defined.

(** The witness of [fitLine_through_centroid]: both points of a path of
    two. *)
Lemma fitLine_through_centroid_witness :
  0 ≤ 1 ∧ (1 < length pair01)%nat ∧
  Line.a (LineFitter.fitLine (LineFitter.new pair01) 0 1)
  * sumR (PVector.x <$> slice 0 1 pair01)
  + Line.b (LineFitter.fitLine (LineFitter.new pair01) 0 1)
    * sumR (PVector.y <$> slice 0 1 pair01)
  + Line.c (LineFitter.fitLine (LineFitter.new pair01) 0 1)
    * INR (length (slice 0 1 pair01)) = 0.
Proof.
  assert (0 ≤ 1) as H01 by lia.
  assert (1 < length pair01)%nat as Hlen by (simpl; lia).
  split_and!; [done..|].
  exact (fitLine_through_centroid pair01 0 1 H01 Hlen).
Defined.

(** The witness of [fitLine_least_squares]: both points of a path of two. *)
Lemma fitLine_least_squares_witness :
  0 ≤ 1 ∧ (1 < length pair01)%nat ∧
  (Line.a (LineFitter.fitLine (LineFitter.new pair01) 0 1) = -1 ∨
   Line.a (LineFitter.fitLine (LineFitter.new pair01) 0 1) = 1 ∨
   Line.b (LineFitter.fitLine (LineFitter.new pair01) 0 1) = 1).
Proof.
  assert (0 ≤ 1) as H01 by lia.
  assert (1 < length pair01)%nat as Hlen by (simpl; lia).
  split_and!; [done..|].
  destruct (fitLine_least_squares pair01 0 1 H01 Hlen)
    as [(Ha & _)|[(Ha & _)|(Hb & _)]]; auto.
Defined.

(** The witness of [two_point_line]: the two points of a path of two. *)
Lemma two_point_line_witness :
  pair01 !! 0%nat = Some (ptR 0 0) ∧ pair01 !! 1%nat = Some (ptR 2 1) ∧
  lineDistSq (LineFitter.fitLine (LineFitter.new pair01) 0 1) (ptR 0 0)
  <= Exact.EPSILON / 2.
Proof.
  split_and!; [reflexivity..|].
  destruct (two_point_line pair01 0 (ptR 0 0) (ptR 2 1) eq_refl eq_refl)
    as (_ & Hd & _).
  exact Hd.
Defined.

(** The witness of [error_box_covers]: a box made for the origin on the line
    x + y = 2 and extended by the point (3, 4) on the line x = 1. *)
Lemma error_box_covers_witness :
  proper lineDiag ∧ Forall (λ step, proper step.1) [(lineV, ptR 3 4)] ∧
  lineDistSq lineV (ptR 0 0)
  <= ErrorBox.error (extends (ErrorBox.new lineDiag (ptR 0 0)) [(lineV, ptR 3 4)]).
Proof.
  assert (Forall (λ step : Line R * PVector R, proper step.1)
                 [(lineV, ptR 3 4)]) as Hsteps.
  { constructor; [apply lineV_proper|constructor]. }
  split_and!; [apply lineDiag_proper|done|].
  apply (error_box_covers lineDiag (ptR 0 0) [(lineV, ptR 3 4)] (ptR 0 0)
           lineDiag_proper Hsteps).
  apply list_elem_of_here.
Defined.

(** The witness of [error_is_corner_distance]: the box of the origin on the
    line x + y = 2. *)
Lemma error_is_corner_distance_witness :
  proper (ErrorBox.line (ErrorBox.new lineDiag (ptR 0 0))) ∧
  ∃ c, c ∈ ErrorBox.getCartesianCorners (ErrorBox.new lineDiag (ptR 0 0)) ∧
       lineDistSq lineDiag c = ErrorBox.error (ErrorBox.new lineDiag (ptR 0 0)).
Proof.
  split; [apply lineDiag_proper|].
  exact (proj2 (error_is_corner_distance (ErrorBox.new lineDiag (ptR 0 0))
                  lineDiag_proper)).
Defined.

(** The witness of [new_box_is_its_point]: the box of the origin on the line
    x + y = 2. *)
Lemma new_box_is_its_point_witness :
  proper lineDiag ∧
  ErrorBox.error (ErrorBox.new lineDiag (ptR 0 0)) = lineDistSq lineDiag (ptR 0 0).
Proof.
  split; [apply lineDiag_proper|].
  exact (proj2 (new_box_is_its_point lineDiag (ptR 0 0) lineDiag_proper)).
Defined.


End ExactExamples.

(** * Witnesses on binary64 *)

Section Witnesses.
Import PathSimplifier.
Local Open Scope float_scope.

(** The witness of [cut_is_final]: index 0 of [crossing] is cut, and two more
    points are appended. *)
Lemma cut_is_final_witness :
  build 100 [] crossing = Some crossingState ∧
  tags crossingState !! 0%nat = Some (mkTag 0 (-1) true) ∧
  ∃ s1 s2 tj,
    addPoints crossingState [pt 6 (-6)] = Some s1 ∧
    addPoint s1 (pt 7 (-7)) = Some s2 ∧
    length (trace s2) ≤ pathLength s1 - 0 + 1 ∧
    tags s2 !! pathLength s1 = Some tj ∧ tag_next tj ≠ 0%Z.
Proof.
  split; [by vm_compute|]. split; [reflexivity|].
  destruct (cut_is_final 100 [] crossing crossingState 0 (mkTag 0 (-1) true)
              [pt 6 (-6)] (pt 7 (-7)))
    as (s1 & s2 & ti2 & tj & Hs1 & Hs2 & _ & _ & Hlen & _ & Htj & Hnext & _);
    [by vm_compute|reflexivity|reflexivity|].
  exists s1, s2, tj. auto.
Defined.




End Witnesses.
